(** * Genesis sync storage: SyncStorage and KubernetesStorage

    A shallow embedding of the two storage engines of package [genesis]
    (controller/genesis): the engines' state is a record, every method is
    a function in a small state-and-panic monad over the engine, the
    relational store and the trace of effects that leave the engine
    (channel sends, SQL writes, HTTP requests, log lines). *)

From Stdlib Require Import Ascii.
From stdpp Require Import base decidable option numbers list gmap fin_maps strings pretty.

Open Scope Z_scope.
Open Scope string_scope.

(** ** Go's [time.Time] and [time.Duration] *)

Module GoTime.

(** A [time.Time] is taken as its number of nanoseconds since the epoch;
    a [time.Duration] is an int64 count of nanoseconds. *)
Definition minDuration : Z := - 2 ^ 63.
Definition maxDuration : Z := 2 ^ 63 - 1.

(** int64 wrap-around, as in a conversion [time.Duration(n)] and in the
    product of two durations. *)
Definition wrap64 (x : Z) : Z := (x + 2 ^ 63) mod 2 ^ 64 - 2 ^ 63.

Definition Second : Z := 1000000000.

(** [time.Duration(n) * time.Second] *)
Definition seconds (n : Z) : Z := wrap64 (wrap64 n * Second).

(** [t.Sub(u)]: the difference, saturated to the range of a Duration. *)
Definition Sub (t u : Z) : Z := Z.max minDuration (Z.min maxDuration (t - u)).

End GoTime.

(** ** Per-family data operation *)

Module Op.

(** Modelled from the spec: the record types of the ten families
    ([model.GenesisVM], [model.GenesisVIP], ...) are declared outside
    the sources at hand.  Section 3 gives what all of them share: the
    natural key, the reporting agent, the last-seen timestamp; the rest
    of the row is kept as an opaque body. *)
Record Item := mkItem {
  key : string;
  vtap_id : Z;
  last_seen : Z;
  body : string
}.

Definition touch (now : Z) (r : Item) : Item :=
  {| key := key r; vtap_id := vtap_id r; last_seen := now; body := body r |}.

(** Modelled from the spec: the generic operation type behind
    [NewVMPlatformDataOperation] and its nine siblings is not among the
    sources.  Section 3: an organisation scope and a keyed mapping from
    natural key to record; [table] names the family's table of
    section 6. *)
Record Operation := mkOperation {
  orgID : Z;
  table : string;
  dataDict : gmap string Item
}.

Definition with_dict (o : Operation) (d : gmap string Item) : Operation :=
  {| orgID := orgID o; table := table o; dataDict := d |}.

(** Modelled from the spec: [Fetch() -> []Record] returns a copy of the
    current records. *)
Definition Fetch (o : Operation) : list Item := (map_to_list (dataDict o)).*2.

(** Modelled from the spec: [Renew(records, now)] sets [last_seen = now]
    on the stored record with the same natural key if present, and
    ignores the record otherwise; records are applied in order. *)
Definition Renew (o : Operation) (records : list Item) (now : Z) : Operation :=
  with_dict o (foldl (fun d r => alter (touch now) (key r) d) (dataDict o) records).

(** Modelled from the spec: [Update(records, now)] upserts each record
    with [last_seen = now], in order, last write wins. *)
Definition Update (o : Operation) (records : list Item) (now : Z) : Operation :=
  with_dict o (foldl (fun d r => <[key r := touch now r]> d) (dataDict o) records).

Definition fresh (now ttl : Z) (r : Item) : Prop := GoTime.Sub now (last_seen r) <= ttl.

#[global] Instance fresh_dec now ttl r : Decision (fresh now ttl r).
Proof. unfold fresh. apply _. Defined.

(** Modelled from the spec: [Age(now, ttl) -> changed] removes every
    record with [now - last_seen > ttl] and returns true iff at least
    one record was removed. *)
Definition Age (o : Operation) (now ttl : Z) : Operation * bool :=
  let kept := filter (fun kv => fresh now ttl kv.2) (dataDict o) in
  (with_dict o kept, bool_decide (size kept < size (dataDict o))%nat).

(** Modelled from the spec: [Load(now, ttl)] installs the rows read from
    the store that are not older than [ttl]. *)
Definition Load (o : Operation) (rows : list Item) (now ttl : Z) : Operation :=
  with_dict o (list_to_map (map (fun r => (key r, r))
                 (filter (fun r => fresh now ttl r) rows))).

End Op.

(** ** The state-and-panic monad

    A method runs on a world [S] (the engine, the relational store, the
    trace of effects); [None] is a Go panic (a nil dereference). *)

Definition M (S A : Type) : Type := S -> option (A * S).

Definition ret {S A} (a : A) : M S A := fun s => Some (a, s).

Definition bind {S A B} (m : M S A) (k : A -> M S B) : M S B :=
  fun s => match m s with
           | Some (a, s') => k a s'
           | None => None
           end.

Definition panic {S A} : M S A := fun _ => None.
Definition gets {S A} (f : S -> A) : M S A := fun s => Some (f s, s).
Definition modify {S} (f : S -> S) : M S unit := fun s => Some (tt, f s).

(** The world after a run, when the run did not panic. *)
Definition exec {S A} (m : M S A) (s : S) : option S := snd <$> m s.

Declare Scope go_scope.
Delimit Scope go_scope with go.
Notation "x <- m ;; k" := (bind m (fun x => k))
  (at level 100, m at next level, right associativity) : go_scope.
Notation "m ;; k" := (bind m (fun _ => k))
  (at level 100, right associativity) : go_scope.
Open Scope go_scope.

(** [for _, x := range xs { body x }] *)
Fixpoint for_range {S A} (xs : list A) (body : A -> M S unit) : M S unit :=
  match xs with
  | [] => ret tt
  | x :: xs' => body x ;; for_range xs' body
  end.

(** Go's [a || b]: the right operand is evaluated only when the left one
    is false. *)
Definition orelse {S} (a : bool) (b : M S bool) : M S bool :=
  if a then ret true else b.

(** ** The relational store (packages [mysql], [mysqlmodel], [model]) *)

Module SubDomain.
(** Modelled from the spec: [mysqlmodel.SubDomain], columns of
    section 6. *)
Record t := mk { Lcuuid : string; Domain : string; ClusterID : string }.
End SubDomain.

Module Domain.
(** Modelled from the spec: [mysqlmodel.Domain], columns of section 6. *)
Record t := mk { Lcuuid : string; ClusterID : string; Type_ : Z; ControllerIP : string }.
End Domain.

Module Controller.
(** Modelled from the spec: [mysqlmodel.Controller], columns of
    section 6. *)
Record t := mk { IP : string; PodIP : string; State : Z }.
End Controller.

Module GenesisStorage.
(** Modelled from the spec: [model.GenesisStorage], the ownership row
    [{VtapID (PK), NodeIP}]. *)
Record t := mk { VtapID : Z; NodeIP : string }.
End GenesisStorage.

Module MySQL.

(** Modelled from the spec: one logical database per organisation, with
    the tables of section 6.  Tables are lists of rows in primary-key
    order; [vtap] keeps the [id] column only; the ten family tables are
    looked up by name.  [read_only] makes every write statement on the
    session fail. *)
Record DB := mkDB {
  vtap : list Z;
  genesis_storage : list GenesisStorage.t;
  sub_domain : list SubDomain.t;
  domain : list Domain.t;
  controller : list Controller.t;
  genesis : gmap string (list Op.Item);
  read_only : bool
}.

(** Modelled from the spec: what [mysql.GetORGIDs] and [mysql.GetDB]
    answer.  [org_ids = None] is a failing enumeration; [GetDB] fails
    for an organisation without an entry in [databases]. *)
Record t := mk {
  org_ids : option (list Z);
  databases : gmap Z DB
}.

Definition GetORGIDs (m : t) : option (list Z) := org_ids m.
Definition GetDB (m : t) (orgID : Z) : option DB := databases m !! orgID.

Definition put_db (orgID : Z) (d : DB) (m : t) : t :=
  {| org_ids := org_ids m; databases := <[orgID := d]> (databases m) |}.

Definition with_genesis_storage (d : DB) (rows : list GenesisStorage.t) : DB :=
  {| vtap := vtap d; genesis_storage := rows; sub_domain := sub_domain d;
     domain := domain d; controller := controller d; genesis := genesis d;
     read_only := read_only d |}.

Definition with_genesis (d : DB) (g : gmap string (list Op.Item)) : DB :=
  {| vtap := vtap d; genesis_storage := genesis_storage d;
     sub_domain := sub_domain d; domain := domain d;
     controller := controller d; genesis := g; read_only := read_only d |}.

(** [db.Clauses(clause.OnConflict{Columns: vtap_id, DoUpdates: node_ip})
    .Create(row)]: the row with the same [vtap_id] takes the new
    [node_ip]; without such a row, [row] is inserted. *)
Fixpoint upsert (row : GenesisStorage.t) (rows : list GenesisStorage.t)
  : list GenesisStorage.t :=
  match rows with
  | [] => [row]
  | r :: rs =>
      if bool_decide (GenesisStorage.VtapID r = GenesisStorage.VtapID row)
      then GenesisStorage.mk (GenesisStorage.VtapID r) (GenesisStorage.NodeIP row) :: rs
      else r :: upsert row rs
  end.

(** [db.Delete(&rows)]: gorm builds the condition [vtap_id IN (...)]
    from the primary keys of [rows] that are not zero; without such a
    key the statement has no condition and fails. *)
Definition delete_keys (gone : list GenesisStorage.t) : list Z :=
  filter (fun k => k <> 0) (GenesisStorage.VtapID <$> gone).

Definition delete_fails (d : DB) (gone : list GenesisStorage.t) : bool :=
  read_only d || bool_decide (delete_keys gone = []).

(** The rows with the keys of the condition go. *)
Definition delete_rows (gone rows : list GenesisStorage.t) : list GenesisStorage.t :=
  filter (fun r => GenesisStorage.VtapID r ∉ delete_keys gone) rows.

(** [db.Where(...).First(&x)]: the first matching row in primary-key
    order, or record-not-found. *)
Definition First {A} (P : A -> Prop) `{forall a, Decision (P a)} (rows : list A) : option A :=
  head (filter P rows).

End MySQL.

Inductive LogLevel := Debug | Info | Warning | Error.

(** Modelled from the spec: [config.GenesisConfig], the three options of
    section 6, in seconds. *)
Record GenesisConfig := mkConfig {
  AgingTime : Z;
  VinterfaceAgingTime : Z;
  DataPersistenceInterval : Z
}.

(** Modelled from the spec: [mcommon.DEFAULT_ORG_ID], declared outside the
    sources; no theorem depends on its value. *)
Definition DEFAULT_ORG_ID : Z := 1.

(** ** The ten resource families *)

Module Family.

Inductive t :=
| VIPs | VMs | VPCs | Hosts | Lldps | Ports | Networks | IPlastseens
| Vinterfaces | Processes.

#[global] Instance eq_dec : EqDecision t.
Proof. solve_decision. Defined.

(** The family's table, section 6. *)
Definition table (f : t) : string :=
  match f with
  | VIPs => "genesis_vip" | VMs => "genesis_vm" | VPCs => "genesis_vpc"
  | Hosts => "genesis_host" | Lldps => "genesis_lldp" | Ports => "genesis_port"
  | Networks => "genesis_network" | IPlastseens => "genesis_ip"
  | Vinterfaces => "genesis_vinterface" | Processes => "genesis_process"
  end.

Definition all : list t :=
  [VIPs; VMs; VPCs; Hosts; Lldps; Ports; Networks; IPlastseens; Vinterfaces;
   Processes].

End Family.

Module GenesisSyncDataOperation.

(** Modelled from the spec: the aggregate is declared outside the
    sources; the code reads and writes its ten fields, each either nil
    or an operation (section 3). *)
Record t := mk {
  IPlastseens : option Op.Operation;
  VIPs : option Op.Operation;
  VMs : option Op.Operation;
  VPCs : option Op.Operation;
  Hosts : option Op.Operation;
  Lldps : option Op.Operation;
  Ports : option Op.Operation;
  Networks : option Op.Operation;
  Vinterfaces : option Op.Operation;
  Processes : option Op.Operation
}.

(** [GenesisSyncDataOperation{}] *)
Definition zero : t := mk None None None None None None None None None None.

Definition slot (f : Family.t) (g : t) : option Op.Operation :=
  match f with
  | Family.VIPs => VIPs g | Family.VMs => VMs g | Family.VPCs => VPCs g
  | Family.Hosts => Hosts g | Family.Lldps => Lldps g | Family.Ports => Ports g
  | Family.Networks => Networks g | Family.IPlastseens => IPlastseens g
  | Family.Vinterfaces => Vinterfaces g | Family.Processes => Processes g
  end.

Definition set_slot (f : Family.t) (v : option Op.Operation) (g : t) : t :=
  let pick f' old := if decide (f = f') then v else old in
  {| IPlastseens := pick Family.IPlastseens (IPlastseens g);
     VIPs := pick Family.VIPs (VIPs g);
     VMs := pick Family.VMs (VMs g);
     VPCs := pick Family.VPCs (VPCs g);
     Hosts := pick Family.Hosts (Hosts g);
     Lldps := pick Family.Lldps (Lldps g);
     Ports := pick Family.Ports (Ports g);
     Networks := pick Family.Networks (Networks g);
     Vinterfaces := pick Family.Vinterfaces (Vinterfaces g);
     Processes := pick Family.Processes (Processes g) |}.

(** Every slot holds an operation, as after [loadFromDatabase]. *)
Definition loaded (g : t) : Prop := forall f, is_Some (slot f g).

(** At least one family is present. *)
Definition any_present (g : t) : bool :=
  existsb (fun f => bool_decide (is_Some (slot f g))) Family.all.

(** The aggregate with [h f] applied to the operation of every set
    slot [f]. *)
Definition map_slots (h : Family.t -> Op.Operation -> Op.Operation) (g : t) : t :=
  {| IPlastseens := h Family.IPlastseens <$> IPlastseens g;
     VIPs := h Family.VIPs <$> VIPs g;
     VMs := h Family.VMs <$> VMs g;
     VPCs := h Family.VPCs <$> VPCs g;
     Hosts := h Family.Hosts <$> Hosts g;
     Lldps := h Family.Lldps <$> Lldps g;
     Ports := h Family.Ports <$> Ports g;
     Networks := h Family.Networks <$> Networks g;
     Vinterfaces := h Family.Vinterfaces <$> Vinterfaces g;
     Processes := h Family.Processes <$> Processes g |}.

End GenesisSyncDataOperation.

Module GenesisSyncData.

(** Modelled from the spec: the snapshot type is declared outside the
    sources; [fetch] fills its ten fields. *)
Record t := mk {
  VIPs : list Op.Item;
  VMs : list Op.Item;
  VPCs : list Op.Item;
  Hosts : list Op.Item;
  Ports : list Op.Item;
  Lldps : list Op.Item;
  IPLastSeens : list Op.Item;
  Networks : list Op.Item;
  Vinterfaces : list Op.Item;
  Processes : list Op.Item
}.

End GenesisSyncData.

(** Modelled from the spec: [VIFRPCMessage], of which [Update] reads
    [orgID] and [vtapID]. *)
Record VIFRPCMessage := mkVIF { orgID : Z; vtapID : Z }.

(** ** SyncStorage *)

Module SyncStorage.

Import GenesisSyncDataOperation.

(** The struct.  [vCtx] tells whether the scope is cancelled, [vCancel]
    whether the cancel function is non-nil.  The sends on [channel] are
    kept in the world's trace; methods that hold [mutex] run as one
    step. *)
Record t := mk {
  cfg : GenesisConfig;
  vCtx : bool;
  vCancel : bool;
  dirty : bool;
  genesisSyncInfo : GenesisSyncDataOperation.t
}.

(** What leaves the engine, in order. *)
Inductive Effect :=
| Send (d : GenesisSyncData.t)
| Create (orgID : Z) (row : GenesisStorage.t)
| Delete (orgID : Z) (rows : list GenesisStorage.t)
| SaveRows (orgID : Z) (table : string) (rows : list Op.Item)
| Log (lvl : LogLevel) (msg : string) (org : option Z).

Record World := mkWorld {
  self : t;
  mysql : MySQL.t;
  NODE_IP : string;
  trace : list Effect
}.

Abbreviation Go := (M World).

Definition on_self (f : t -> t) (w : World) : World :=
  {| self := f (self w); mysql := mysql w; NODE_IP := NODE_IP w; trace := trace w |}.

Definition on_mysql (f : MySQL.t -> MySQL.t) (w : World) : World :=
  {| self := self w; mysql := f (mysql w); NODE_IP := NODE_IP w; trace := trace w |}.

Definition emit (e : Effect) : Go unit :=
  modify (fun w => {| self := self w; mysql := mysql w; NODE_IP := NODE_IP w;
                      trace := trace w ++ [e] |}).

Definition with_dirty (b : bool) (s : t) : t :=
  {| cfg := cfg s; vCtx := vCtx s; vCancel := vCancel s; dirty := b;
     genesisSyncInfo := genesisSyncInfo s |}.

Definition with_info (g : GenesisSyncDataOperation.t) (s : t) : t :=
  {| cfg := cfg s; vCtx := vCtx s; vCancel := vCancel s; dirty := dirty s;
     genesisSyncInfo := g |}.

Definition set_dirty (b : bool) : Go unit := modify (on_self (with_dirty b)).

(** [s.genesisSyncInfo.F], dereferenced by a method of the operation: a
    nil slot panics. *)
Definition receiver (f : Family.t) : Go Op.Operation :=
  g <- gets (fun w => genesisSyncInfo (self w)) ;;
  match slot f g with
  | Some o => ret o
  | None => panic
  end.

Definition assign (f : Family.t) (o : Op.Operation) : Go unit :=
  modify (on_self (fun s => with_info (set_slot f (Some o) (genesisSyncInfo s)) s)).

Definition GetDB (orgID : Z) : Go (option MySQL.DB) :=
  gets (fun w => MySQL.GetDB (mysql w) orgID).

Definition NewSyncStorage (c : GenesisConfig) (ctx : bool) : t :=
  {| cfg := c; vCtx := ctx; vCancel := true; dirty := false;
     genesisSyncInfo := zero |}.

(** [if data.F != nil { s.genesisSyncInfo.F.Renew(data.F.Fetch(), now) }] *)
Definition Renew_family (f : Family.t) (data : GenesisSyncDataOperation.t) (now : Z)
  : Go unit :=
  match slot f data with
  | Some d => o <- receiver f ;; assign f (Op.Renew o (Op.Fetch d) now)
  | None => ret tt
  end.

Definition Renew (data : GenesisSyncDataOperation.t) (now : Z) : Go unit :=
  Renew_family Family.VIPs data now ;;
  Renew_family Family.VMs data now ;;
  Renew_family Family.VPCs data now ;;
  Renew_family Family.Hosts data now ;;
  Renew_family Family.Lldps data now ;;
  Renew_family Family.Ports data now ;;
  Renew_family Family.Networks data now ;;
  Renew_family Family.IPlastseens data now ;;
  Renew_family Family.Vinterfaces data now ;;
  Renew_family Family.Processes data now.

(** [if data.F != nil { updateFlag = true;
      s.genesisSyncInfo.F.Update(data.F.Fetch(), now) }] *)
Definition Update_family (f : Family.t) (data : GenesisSyncDataOperation.t) (now : Z)
    (updateFlag : bool) : Go bool :=
  match slot f data with
  | Some d => o <- receiver f ;; assign f (Op.Update o (Op.Fetch d) now) ;; ret true
  | None => ret updateFlag
  end.

Definition fetch : Go unit :=
  vips <- receiver Family.VIPs ;;
  vms <- receiver Family.VMs ;;
  vpcs <- receiver Family.VPCs ;;
  hosts <- receiver Family.Hosts ;;
  ports <- receiver Family.Ports ;;
  lldps <- receiver Family.Lldps ;;
  iplastseens <- receiver Family.IPlastseens ;;
  networks <- receiver Family.Networks ;;
  vinterfaces <- receiver Family.Vinterfaces ;;
  processes <- receiver Family.Processes ;;
  emit (Send {| GenesisSyncData.VIPs := Op.Fetch vips;
                GenesisSyncData.VMs := Op.Fetch vms;
                GenesisSyncData.VPCs := Op.Fetch vpcs;
                GenesisSyncData.Hosts := Op.Fetch hosts;
                GenesisSyncData.Ports := Op.Fetch ports;
                GenesisSyncData.Lldps := Op.Fetch lldps;
                GenesisSyncData.IPLastSeens := Op.Fetch iplastseens;
                GenesisSyncData.Networks := Op.Fetch networks;
                GenesisSyncData.Vinterfaces := Op.Fetch vinterfaces;
                GenesisSyncData.Processes := Op.Fetch processes |}).

(** The upsert of the ownership row; the statement is issued, and takes
    effect unless the session refuses writes (the code does not look at
    its error). *)
Definition Create_GenesisStorage (orgID : Z) (d : MySQL.DB) (row : GenesisStorage.t)
  : Go unit :=
  emit (Create orgID row) ;;
  if MySQL.read_only d then ret tt
  else modify (on_mysql (MySQL.put_db orgID
         (MySQL.with_genesis_storage d (MySQL.upsert row (MySQL.genesis_storage d))))).

Definition Update (data : GenesisSyncDataOperation.t) (info : VIFRPCMessage) (now : Z)
  : Go unit :=
  updateFlag <- Update_family Family.VIPs data now false ;;
  updateFlag <- Update_family Family.VMs data now updateFlag ;;
  updateFlag <- Update_family Family.VPCs data now updateFlag ;;
  updateFlag <- Update_family Family.Hosts data now updateFlag ;;
  updateFlag <- Update_family Family.Lldps data now updateFlag ;;
  updateFlag <- Update_family Family.Ports data now updateFlag ;;
  updateFlag <- Update_family Family.Networks data now updateFlag ;;
  updateFlag <- Update_family Family.IPlastseens data now updateFlag ;;
  updateFlag <- Update_family Family.Vinterfaces data now updateFlag ;;
  updateFlag <- Update_family Family.Processes data now updateFlag ;;
  returned <-
    (if updateFlag && negb (vtapID info =? 0)%Z then
       (* push immediately after update *)
       fetch ;;
       db <- GetDB (orgID info) ;;
       match db with
       | None =>
           emit (Log Error "get mysql session failed" (Some (orgID info))) ;;
           ret true
       | Some d =>
           nodeIP <- gets NODE_IP ;;
           Create_GenesisStorage (orgID info) d (GenesisStorage.mk (vtapID info) nodeIP) ;;
           ret false
       end
     else ret false) ;;
  if returned : bool then ret tt else set_dirty true.

(** Modelled from the spec: [NewVIPPlatformDataOperation(orgID, rows)]
    and its nine siblings build a family's operation from initial
    rows. *)
Definition NewPlatformDataOperation (f : Family.t) (org : Z) (rows : list Op.Item)
  : Op.Operation :=
  Op.mkOperation org (Family.table f) (list_to_map (map (fun r => (Op.key r, r)) rows)).

(** Modelled from the spec: [Load(now, ttl)] reads the family's rows of
    its organisation from the store; an unreachable store gives no
    row. *)
Definition Load (f : Family.t) (now ttl : Z) : Go unit :=
  o <- receiver f ;;
  db <- GetDB (Op.orgID o) ;;
  let rows := match db with
              | Some d => default [] (MySQL.genesis d !! Op.table o)
              | None => []
              end in
  assign f (Op.Load o rows now ttl).

(** Modelled from the spec: [Save()] replaces the family's rows of its
    organisation by the current records, in one transaction; a failure
    leaves the memory as it is. *)
Definition Save (f : Family.t) : Go unit :=
  o <- receiver f ;;
  db <- GetDB (Op.orgID o) ;;
  match db with
  | None => ret tt
  | Some d =>
      emit (SaveRows (Op.orgID o) (Op.table o) (Op.Fetch o)) ;;
      if MySQL.read_only d then ret tt
      else modify (on_mysql (MySQL.put_db (Op.orgID o)
             (MySQL.with_genesis d (<[Op.table o := Op.Fetch o]> (MySQL.genesis d)))))
  end.

(** [s.genesisSyncInfo.F = NewFPlatformDataOperation(DEFAULT_ORG_ID, nil);
     s.genesisSyncInfo.F.Load(now, ageTime)] *)
Definition load_family (f : Family.t) (now ageTime : Z) : Go unit :=
  assign f (NewPlatformDataOperation f DEFAULT_ORG_ID []) ;;
  Load f now ageTime.

Definition loadFromDatabase (ageTime now : Z) : Go unit :=
  modify (on_self (with_info zero)) ;;
  load_family Family.VIPs now ageTime ;;
  load_family Family.VMs now ageTime ;;
  load_family Family.VPCs now ageTime ;;
  load_family Family.Hosts now ageTime ;;
  load_family Family.Ports now ageTime ;;
  load_family Family.Lldps now ageTime ;;
  load_family Family.IPlastseens now ageTime ;;
  load_family Family.Networks now ageTime ;;
  load_family Family.Vinterfaces now ageTime ;;
  load_family Family.Processes now ageTime ;;
  fetch.

Definition storeToDatabase : Go unit :=
  Save Family.VIPs ;;
  Save Family.VMs ;;
  Save Family.VPCs ;;
  Save Family.Hosts ;;
  Save Family.Ports ;;
  Save Family.Lldps ;;
  Save Family.IPlastseens ;;
  Save Family.Networks ;;
  Save Family.Vinterfaces ;;
  Save Family.Processes.

(** [time.NewTicker(d)]: a panic when [d] is not positive. *)
Definition NewTicker (d : Z) : Go unit :=
  if bool_decide (0 < d) then ret tt else panic.

(** The body of [for _, orgID := range orgIDs] in [refreshDatabase]. *)
Definition refreshDatabase_org (nodeIP : string) (org : Z) : Go unit :=
  db <- GetDB org ;;
  match db with
  | None =>
      emit (Log Error "get mysql session failed" (Some org))   (* continue *)
  | Some d =>
      let vTaps := MySQL.vtap d in
      let storages :=
        filter (fun s => GenesisStorage.NodeIP s = nodeIP) (MySQL.genesis_storage d) in
      let vTapIDs : gmap Z bool := list_to_map (map (fun v => (v, false)) vTaps) in
      let invalidStorages :=
        filter (fun s => vTapIDs !! GenesisStorage.VtapID s = None) storages in
      if bool_decide (0 < length invalidStorages)%nat then
        emit (Delete org invalidStorages) ;;
        if MySQL.delete_fails d invalidStorages then
          emit (Log Error "node (%s) clean genesis storage invalid data failed: %s"
                    (Some org))
        else
          modify (on_mysql (MySQL.put_db org
            (MySQL.with_genesis_storage d
               (MySQL.delete_rows invalidStorages (MySQL.genesis_storage d))))) ;;
          emit (Log Info "node (%s) clean genesis storage invalid data success"
                    (Some org))
      else ret tt
  end.

(** The body of [for range ticker.C] in [refreshDatabase]; the result
    tells whether the loop goes on ([false]: the function returned). *)
Definition refreshDatabase_tick : Go bool :=
  (* clean genesis storage invalid data *)
  orgIDs <- gets (fun w => MySQL.GetORGIDs (mysql w)) ;;
  match orgIDs with
  | None =>
      emit (Log Error "get org ids failed" None) ;;
      ret false
  | Some ids =>
      nodeIP <- gets NODE_IP ;;
      for_range ids (refreshDatabase_org nodeIP) ;;
      set_dirty true ;;
      ret true
  end.

(** [s.genesisSyncInfo.F.Age(now, ttl)] *)
Definition Age (f : Family.t) (now ttl : Z) : Go bool :=
  o <- receiver f ;;
  assign f (Op.Age o now ttl).1 ;;
  ret (Op.Age o now ttl).2.

(** The body of [for] in [run], from the return of [time.Sleep] at
    [now]. *)
Definition run_tick (now : Z) : Go unit :=
  ageTime <- gets (fun w => GoTime.seconds (AgingTime (cfg (self w)))) ;;
  let hasChange := false in
  hasChange <- orelse hasChange (Age Family.VIPs now ageTime) ;;
  hasChange <- orelse hasChange (Age Family.VMs now ageTime) ;;
  hasChange <- orelse hasChange (Age Family.VPCs now ageTime) ;;
  hasChange <- orelse hasChange (Age Family.Lldps now ageTime) ;;
  hasChange <- orelse hasChange (Age Family.Ports now ageTime) ;;
  hasChange <- orelse hasChange (Age Family.Networks now ageTime) ;;
  hasChange <- orelse hasChange (Age Family.IPlastseens now ageTime) ;;
  hasChange <- orelse hasChange (Age Family.Processes now ageTime) ;;
  vinterfaceAgingTime <-
    gets (fun w => GoTime.seconds (VinterfaceAgingTime (cfg (self w)))) ;;
  hasChange <- orelse hasChange (Age Family.Vinterfaces now vinterfaceAgingTime) ;;
  hasChange <- orelse hasChange (gets (fun w => dirty (self w))) ;;
  set_dirty false ;;
  if hasChange : bool then storeToDatabase ;; fetch else ret tt.

(** [run], up to the wake-ups [wakes] of its [time.Sleep]: the load at
    [now], then one tick per wake-up; the loop has no exit. *)
Definition run (now : Z) (wakes : list Z) : Go unit :=
  ageTime <- gets (fun w => GoTime.seconds (AgingTime (cfg (self w)))) ;;
  loadFromDatabase ageTime now ;;
  for_range wakes run_tick.

(** The loop of [refreshDatabase], up to [ticks] deliveries of its
    ticker: the loop ends where the body returns.  The ticker is
    created when the goroutine starts, see [step]. *)
Fixpoint refreshDatabase (ticks : nat) : Go unit :=
  match ticks with
  | O => ret tt
  | S ticks' =>
      continue <- refreshDatabase_tick ;;
      if continue : bool then refreshDatabase ticks' else ret tt
  end.

(** [if s.vCancel != nil { s.vCancel() }] *)
Definition Stop (s : t) : t :=
  if vCancel s then
    {| cfg := cfg s; vCtx := true; vCancel := vCancel s; dirty := dirty s;
       genesisSyncInfo := genesisSyncInfo s |}
  else s.

(** *** The engine with its two goroutines

    [run_live] and [refreshDatabase_live] tell whether the goroutine
    started by [Start] has not returned.  An event is a call of a
    method, a wake-up of a loop, or a change of the store by another
    party; each runs as one step. *)
Record Process := mkProcess {
  world : World;
  run_live : bool;
  refreshDatabase_live : bool
}.

Inductive Event :=
| CallRenew (data : GenesisSyncDataOperation.t) (now : Z)
| CallUpdate (data : GenesisSyncDataOperation.t) (info : VIFRPCMessage) (now : Z)
| CallStart (now : Z)
| CallStop
| WakeRun (now : Z)
| Tick
| Outside (m : MySQL.t).

Definition step (p : Process) (e : Event) : option Process :=
  match e with
  | CallRenew data now =>
      w ← exec (Renew data now) (world p);
      Some (mkProcess w (run_live p) (refreshDatabase_live p))
  | CallUpdate data info now =>
      w ← exec (Update data info now) (world p);
      Some (mkProcess w (run_live p) (refreshDatabase_live p))
  | CallStart now =>
      (* go s.refreshDatabase(), which first creates its ticker: the
         panic of a goroutine ends the process; go s.run(), which
         first loads *)
      w ← exec (NewTicker (GoTime.seconds (AgingTime (cfg (self (world p))))) ;;
                loadFromDatabase (GoTime.seconds (AgingTime (cfg (self (world p))))) now)
               (world p);
      Some (mkProcess w true true)
  | CallStop =>
      Some (mkProcess (on_self Stop (world p)) (run_live p) (refreshDatabase_live p))
  | WakeRun now =>
      if run_live p then
        w ← exec (run_tick now) (world p);
        Some (mkProcess w true (refreshDatabase_live p))
      else Some p
  | Tick =>
      if refreshDatabase_live p then
        r ← refreshDatabase_tick (world p);
        Some (mkProcess r.2 (run_live p) r.1)
      else Some p
  | Outside m =>
      Some (mkProcess (on_mysql (fun _ => m) (world p)) (run_live p)
              (refreshDatabase_live p))
  end.

Fixpoint steps (p : Process) (es : list Event) : option Process :=
  match es with
  | [] => Some p
  | e :: es' => p' ← step p e; steps p' es'
  end.

End SyncStorage.

(** ** KubernetesStorage *)

Module KubernetesInfo.

(** Modelled from the spec: the Kubernetes record of section 3,
    [{ORGID, ClusterID, Version, Epoch, ErrorMSG, Entries[]}];
    [Version] is a uint64, [Epoch] a time. *)
Record t := mk {
  ORGID : Z;
  ClusterID : string;
  ErrorMSG : string;
  Version : Z;
  Epoch : Z;
  Entries : list string
}.

End KubernetesInfo.

Module KubernetesStorage.

Import KubernetesInfo.

(** The struct.  [kCtx] tells whether the scope is cancelled, [kCancel]
    whether the cancel function is non-nil; the sends on [channel] are
    in the world's trace. *)
Record t := mk {
  listenPort : Z;
  listenNodePort : Z;
  cfg : GenesisConfig;
  kCtx : bool;
  kCancel : bool;
  kubernetesData : gmap Z (gmap string KubernetesInfo.t)
}.

(** The values of Go's [error] that the engine meets. *)
Inductive error :=
| ErrSession                          (* mysql.GetDB failed *)
| ErrRecordNotFound                   (* First found no row *)
| ErrNotUnique (clusterID : string)   (* "cluster_id (%s) is not unique in mysql table sub_domain" *)
| ErrRequest (msg : string).          (* gcommon.RequestGet failed *)

Inductive Effect :=
| Send (kData : KubernetesInfo.t)
| HttpGet (url : string) (timeout : Z) (queryStrings : gmap string string)
| Log (lvl : LogLevel) (msg : string) (org : option Z).

(** [peer] is what the GET of [gcommon.RequestGet] comes back with: nil
    or an error. *)
Record World := mkWorld {
  self : t;
  mysql : MySQL.t;
  peer : option string;
  trace : list Effect
}.

Abbreviation Go := (M World).

Definition with_data (d : gmap Z (gmap string KubernetesInfo.t)) (k : t) : t :=
  {| listenPort := listenPort k; listenNodePort := listenNodePort k; cfg := cfg k;
     kCtx := kCtx k; kCancel := kCancel k; kubernetesData := d |}.

Definition on_self (f : t -> t) (w : World) : World :=
  {| self := f (self w); mysql := mysql w; peer := peer w; trace := trace w |}.

Definition on_mysql (f : MySQL.t -> MySQL.t) (w : World) : World :=
  {| self := self w; mysql := f (mysql w); peer := peer w; trace := trace w |}.

Definition emit (e : Effect) : Go unit :=
  modify (fun w => {| self := self w; mysql := mysql w; peer := peer w;
                      trace := trace w ++ [e] |}).

Definition NewKubernetesStorage (port nPort : Z) (c : GenesisConfig) (ctx : bool) : t :=
  {| listenPort := port; listenNodePort := nPort; cfg := c; kCtx := ctx;
     kCancel := true; kubernetesData := ∅ |}.

Definition Clear : Go unit := modify (on_self (with_data ∅)).

(** [for _, k8sDatas := range k.kubernetesData {
      for _, kData := range k8sDatas { k.channel <- kData } }];
    Go leaves the order of a map range open, the model takes the one of
    [map_to_list]. *)
Definition fetch : Go unit :=
  data <- gets (fun w => kubernetesData (self w)) ;;
  for_range (map_to_list data) (fun k8sDatas =>
    for_range (map_to_list k8sDatas.2) (fun kData => emit (Send kData.2))).

(** [net.JoinHostPort]: a host with a colon is put in brackets. *)
Fixpoint has_colon (s : string) : bool :=
  match s with
  | EmptyString => false
  | String c s' => if Ascii.eqb c ":"%char then true else has_colon s'
  end.

Definition JoinHostPort (host port : string) : string :=
  if has_colon host then "[" +:+ host +:+ "]:" +:+ port
  else host +:+ ":" +:+ port.

(** [strconv.Itoa] *)
Definition Itoa (n : Z) : string := pretty n.

(** [int(version)] for a uint64. *)
Definition int_of_uint64 (v : Z) : Z := GoTime.wrap64 v.

(** Modelled from the spec: [gcommon.RequestGet(url, timeout,
    queryStrings)] issues the GET of section 4.3 and returns its
    error. *)
Definition RequestGet (url : string) (timeout : Z) (queryStrings : gmap string string)
  : Go (option error) :=
  emit (HttpGet url timeout queryStrings) ;;
  gets (fun w => ErrRequest <$> peer w).

Section Constants.

(** [common.KUBERNETES] and [common.CONTROLLER_STATE_EXCEPTION] are
    declared outside the sources. *)
Variables (KUBERNETES CONTROLLER_STATE_EXCEPTION : Z).

(** The [switch len(subDomains)] of [triggerCloudRrefresh]: the
    controller IP and the two lcuuids, or the error returned. *)
Definition resolve (d : MySQL.DB) (clusterID : string) (subDomains : list SubDomain.t)
  : error + (string * string * string) :=
  match subDomains with
  | [] =>
      match MySQL.First (fun dom => Domain.ClusterID dom = clusterID
                                    /\ Domain.Type_ dom = KUBERNETES) (MySQL.domain d) with
      | None => inl ErrRecordNotFound
      | Some domain =>
          inr (Domain.ControllerIP domain, Domain.Lcuuid domain, Domain.Lcuuid domain)
      end
  | [subDomain] =>
      match MySQL.First (fun dom => Domain.Lcuuid dom = SubDomain.Domain subDomain
                                    /\ Domain.Type_ dom = KUBERNETES) (MySQL.domain d) with
      | None => inl ErrRecordNotFound
      | Some domain =>
          inr (Domain.ControllerIP domain, Domain.Lcuuid domain,
               SubDomain.Lcuuid subDomain)
      end
  | _ => inl (ErrNotUnique clusterID)
  end.

Definition triggerCloudRrefresh (org : Z) (clusterID : string) (version : Z)
  : Go (option error) :=
  db <- gets (fun w => MySQL.GetDB (mysql w) org) ;;
  match db with
  | None =>
      emit (Log Error "get mysql session failed" (Some org)) ;;
      ret (Some ErrSession)
  | Some d =>
      let subDomains :=
        filter (fun sd => SubDomain.ClusterID sd = clusterID) (MySQL.sub_domain d) in
      match resolve d clusterID subDomains with
      | inl err => ret (Some err)
      | inr (controllerIP, domainLcuuid, subDomainLcuuid) =>
          match MySQL.First (fun c => Controller.IP c = controllerIP
                                      /\ Controller.State c <> CONTROLLER_STATE_EXCEPTION)
                            (MySQL.controller d) with
          | None => ret (Some ErrRecordNotFound)
          | Some controller =>
              k <- gets self ;;
              let '(requestIP, requestPort) :=
                if bool_decide (Controller.PodIP controller <> "")
                then (Controller.PodIP controller, listenPort k)
                else (controllerIP, listenNodePort k) in
              let requestUrl :=
                "http://" +:+ JoinHostPort requestIP (Itoa requestPort)
                +:+ "/v1/kubernetes-refresh/" in
              let queryStrings : gmap string string :=
                <["domain_lcuuid" := domainLcuuid]>
                  (<["sub_domain_lcuuid" := subDomainLcuuid]>
                     (<["version" := Itoa (int_of_uint64 version)]> ∅)) in
              emit (Log Debug "trigger cloud (%s) kubernetes (%s) refresh version (%d)"
                        (Some org)) ;;
              RequestGet requestUrl 30 queryStrings
          end
      end
  end.

(** [kubernetesData[clusterID] = info] on the inner map [kd] of
    [orgID], which the outer map shares; without an inner map,
    [k.kubernetesData[orgID] = map[string]KubernetesInfo{clusterID: info}]. *)
Definition put (org : Z) (kd : gmap string KubernetesInfo.t) (clusterID : string)
    (info : KubernetesInfo.t) : Go unit :=
  modify (on_self (fun k =>
    with_data (<[org := <[clusterID := info]> kd]> (kubernetesData k)) k)).

Definition Add (org : Z) (newInfo : KubernetesInfo.t) : Go unit :=
  data <- gets (fun w => kubernetesData (self w)) ;;
  unTriggerFlag <-
    match data !! org with
    | Some kd =>
        (* when the reported version is unchanged, only epoch and
           error_msg are updated *)
        match kd !! ClusterID newInfo with
        | Some oldInfo =>
            if bool_decide (Version oldInfo = Version newInfo) then
              put org kd (ClusterID newInfo)
                {| ORGID := ORGID oldInfo; ClusterID := ClusterID oldInfo;
                   ErrorMSG := ErrorMSG newInfo; Version := Version oldInfo;
                   Epoch := Epoch newInfo; Entries := Entries oldInfo |} ;;
              ret true
            else put org kd (ClusterID newInfo) newInfo ;; ret false
        | None => put org kd (ClusterID newInfo) newInfo ;; ret false
        end
    | None => put org ∅ (ClusterID newInfo) newInfo ;; ret false
    end ;;
  fetch ;;
  if negb unTriggerFlag then
    err <- triggerCloudRrefresh org (ClusterID newInfo) (Version newInfo) ;;
    match err with
    | Some _ =>
        emit (Log Warning "trigger cloud kubernetes refresh failed: (%s)" (Some org))
    | None => ret tt
    end
  else ret tt.

(** The body of [for] in [run], from the return of [time.Sleep] at
    [now]: every entry with [now.Sub(s.Epoch)] above the aging time is
    deleted from its inner map. *)
Definition run_tick (now : Z) : Go unit :=
  modify (on_self (fun k =>
    with_data
      (filter (fun kv => GoTime.Sub now (Epoch kv.2)
                         <= GoTime.seconds (AgingTime (cfg k)))
         <$> kubernetesData k) k)) ;;
  fetch.

(** [run], up to the wake-ups [wakes] of its [time.Sleep]; the loop has
    no exit. *)
Definition run (wakes : list Z) : Go unit := for_range wakes run_tick.

(** [if k.kCancel != nil { k.kCancel() }] *)
Definition Stop (k : t) : t :=
  if kCancel k then
    {| listenPort := listenPort k; listenNodePort := listenNodePort k; cfg := cfg k;
       kCtx := true; kCancel := kCancel k; kubernetesData := kubernetesData k |}
  else k.

(** The engine with its goroutine, as for SyncStorage. *)
Record Process := mkProcess {
  world : World;
  run_live : bool
}.

Inductive Event :=
| CallAdd (org : Z) (newInfo : KubernetesInfo.t)
| CallClear
| CallStart
| CallStop
| WakeRun (now : Z)
| Outside (m : MySQL.t).

Definition step (p : Process) (e : Event) : option Process :=
  match e with
  | CallAdd org newInfo =>
      w ← exec (Add org newInfo) (world p); Some (mkProcess w (run_live p))
  | CallClear =>
      w ← exec Clear (world p); Some (mkProcess w (run_live p))
  | CallStart => Some (mkProcess (world p) true)
  | CallStop => Some (mkProcess (on_self Stop (world p)) (run_live p))
  | WakeRun now =>
      if run_live p then
        w ← exec (run_tick now) (world p); Some (mkProcess w true)
      else Some p
  | Outside m =>
      Some (mkProcess (on_mysql (fun _ => m) (world p)) (run_live p))
  end.

Fixpoint steps (p : Process) (es : list Event) : option Process :=
  match es with
  | [] => Some p
  | e :: es' => p' ← step p e; steps p' es'
  end.

End Constants.

End KubernetesStorage.

(** * Tag descriptions (querier/engine/clickhouse/tag/description) *)

(** A panic on a missing value: an index out of range, a failed type
    assertion, an assignment into a nil map. *)
Definition must {S A} (o : option A) : M S A :=
  match o with
  | Some a => ret a
  | None => panic
  end.

Module TagDescription.
Record t := mk {
  Name : string;
  ClientName : string;
  ServerName : string;
  DisplayName : string;
  Type_ : string;
  EnumFile : string;
  Category : string;
  Operators : string
}.
End TagDescription.

Module Description.

(** A value of type [interface{}], by its dynamic type: nil, a string,
    another scalar, a [map[string]interface{}], a [[]interface{}], a
    [[][]interface{}]. *)
#[warnings="-register-all"]
Inductive any :=
| Nil
| Str (s : string)
| Num (n : Z)
| Obj (m : gmap string any)
| Arr (l : list any)
| Rows (rows : list (list any)).

(** [v.(string)], [v.(map[string]interface{})], [v.([][]interface{})] *)
Definition as_string (v : any) : option string :=
  match v with Str s => Some s | _ => None end.
Definition as_obj (v : any) : option (gmap string any) :=
  match v with Obj m => Some m | _ => None end.
Definition as_rows (v : any) : option (list (list any)) :=
  match v with Rows rows => Some rows | _ => None end.

Record TagEnum := mkTagEnum {
  Value : any;
  DisplayName : any
}.

Definition NewTagDescription
    (name clientName serverName displayName tagType enumFile category operators : string)
  : TagDescription.t :=
  {| TagDescription.Name := name;
     TagDescription.ClientName := clientName;
     TagDescription.ServerName := serverName;
     TagDescription.DisplayName := displayName;
     TagDescription.Type_ := tagType;
     TagDescription.EnumFile := enumFile;
     TagDescription.Category := category;
     TagDescription.Operators := operators |}.

Definition NewTagEnum (value displayName : any) : TagEnum :=
  {| Value := value; DisplayName := displayName |}.

(** The two package variables. *)
Record Globals := mkGlobals {
  TAG_DESCRIPTIONS : gmap string (gmap string (list TagDescription.t));
  TAG_ENUMS : gmap string (list TagEnum)
}.

(** Their initial values. *)
Definition initial : Globals :=
  {| TAG_DESCRIPTIONS :=
       <["flow_log" := <["l4_flow_log" := []]> (<["l7_flow_log" := []]> ∅)]> ∅;
     TAG_ENUMS := ∅ |}.

(** [tag[i].(string)] *)
Definition field (tag : list any) (i : nat) : M Globals string :=
  v <- must (tag !! i) ;;
  must (as_string v).

(** The body of [for _, tag := range tableTagData.([][]interface{})]. *)
Definition load_tag (db table : string) (tag : list any) : M Globals unit :=
  a0 <- field tag 0 ;;
  a1 <- field tag 1 ;;
  a2 <- field tag 2 ;;
  a3 <- field tag 3 ;;
  a4 <- field tag 4 ;;
  a5 <- field tag 5 ;;
  a6 <- field tag 6 ;;
  a7 <- field tag 7 ;;
  let description := NewTagDescription a0 a1 a2 a3 a4 a5 a6 a7 in
  (* TAG_DESCRIPTIONS[db][table] = append(TAG_DESCRIPTIONS[db][table], description) *)
  descriptions <- gets TAG_DESCRIPTIONS ;;
  tables <- must (descriptions !! db) ;;
  modify (fun g =>
    {| TAG_DESCRIPTIONS :=
         <[db := <[table := (default [] (tables !! table) ++ [description])%list]> tables]>
           descriptions;
       TAG_ENUMS := TAG_ENUMS g |}).

(** The body of [for table := range tables]. *)
Definition load_table (db : string) (tableData : any) (table : string) : M Globals unit :=
  m <- must (as_obj tableData) ;;
  match m !! table with
  | None => ret tt                                  (* continue *)
  | Some tableTagData =>
      rows <- must (as_rows tableTagData) ;;
      for_range rows (load_tag db table)
  end.

(** The body of [for _, enumValue := range enumData.([][]interface{})],
    with the slice built so far. *)
Fixpoint load_enums (rows : list (list any)) (tagEnums : list TagEnum)
  : M Globals (list TagEnum) :=
  match rows with
  | [] => ret tagEnums
  | enumValue :: rows' =>
      v0 <- must (enumValue !! 0%nat) ;;
      v1 <- must (enumValue !! 1%nat) ;;
      load_enums rows' (tagEnums ++ [NewTagEnum v0 v1])%list
  end.

(** Go leaves the order of a map range open; the model takes the one of
    [map_to_list]. *)
Definition LoadTagDescriptions (tagData : gmap string any) : M Globals unit :=
  descriptions <- gets TAG_DESCRIPTIONS ;;
  for_range (map_to_list descriptions) (fun db_tables =>
    match tagData !! db_tables.1 with
    | None => ret tt                                (* continue *)
    | Some tableData =>
        for_range (map_to_list db_tables.2) (fun table_tags =>
          load_table db_tables.1 tableData table_tags.1)
    end) ;;
  match tagData !! "enum" with
  | Some tagEnumData =>
      m <- must (as_obj tagEnumData) ;;
      for_range (map_to_list m) (fun tagName_enumData =>
        rows <- must (as_rows tagName_enumData.2) ;;
        tagEnums <- load_enums rows [] ;;
        modify (fun g =>
          {| TAG_DESCRIPTIONS := TAG_DESCRIPTIONS g;
             TAG_ENUMS := <[tagName_enumData.1 := tagEnums]> (TAG_ENUMS g) |}))
  | None => ret tt
  end.

(** A result [(value, error)] of which one is nil. *)
Inductive result (A : Type) :=
| Ok (a : A)
| Err (msg : string).
Arguments Ok {A} a.
Arguments Err {A} msg.

Definition GetTagDescriptions (db table : string) (g : Globals)
  : result (gmap string (list any)) :=
  match TAG_DESCRIPTIONS g !! db with
  | None => Err ("no tag in " +:+ db +:+ "." +:+ table)
  | Some dbTagDescriptions =>
      match dbTagDescriptions !! table with
      | None => Err ("no tag in " +:+ db +:+ "." +:+ table)
      | Some tableTagDescriptions =>
          let response : gmap string (list any) :=
            <["columns" := [Str "name"; Str "client_name"; Str "server_name";
                            Str "display_name"; Str "type"; Str "category";
                            Str "operators"]]>
              (<["values" := []]> ∅) in
          Ok (foldl (fun response tag =>
                       <["values" :=
                           (default [] (response !! "values")
                            ++ [Arr [Str (TagDescription.Name tag);
                                     Str (TagDescription.ClientName tag);
                                     Str (TagDescription.ServerName tag);
                                     Str (TagDescription.DisplayName tag);
                                     Str (TagDescription.Type_ tag);
                                     Str (TagDescription.Category tag);
                                     Str (TagDescription.Operators tag)]])%list]> response)
                response tableTagDescriptions)
      end
  end.

Definition GetTagValues (db table tag : string) (g : Globals)
  : result (gmap string (list any)) :=
  match TAG_ENUMS g !! tag with
  | None => Err ("tag (" +:+ tag +:+ ") not found")
  | Some tagValues =>
      let response : gmap string (list any) :=
        <["columns" := [Str "value"; Str "display_name"]]> (<["values" := []]> ∅) in
      Ok (foldl (fun response value =>
                   <["values" :=
                       (default [] (response !! "values")
                        ++ [Arr [Value value; DisplayName value]])%list]> response)
            response tagValues)
  end.

End Description.

(** * Concrete engines *)

Module Examples.

Import GenesisSyncDataOperation.

Definition sec : Z := GoTime.Second.

(** [AgingTime=60], [VinterfaceAgingTime=120],
    [DataPersistenceInterval=10]. *)
Definition config : GenesisConfig := mkConfig 60 120 10.

Definition op (f : Family.t) (rows : list Op.Item) : Op.Operation :=
  SyncStorage.NewPlatformDataOperation f DEFAULT_ORG_ID rows.

(** An aggregate with the given VIPs, VMs and Hosts, the other families
    empty. *)
Definition aggregate (vips vms hosts : list Op.Item) : GenesisSyncDataOperation.t :=
  {| IPlastseens := Some (op Family.IPlastseens []);
     VIPs := Some (op Family.VIPs vips);
     VMs := Some (op Family.VMs vms);
     VPCs := Some (op Family.VPCs []);
     Hosts := Some (op Family.Hosts hosts);
     Lldps := Some (op Family.Lldps []);
     Ports := Some (op Family.Ports []);
     Networks := Some (op Family.Networks []);
     Vinterfaces := Some (op Family.Vinterfaces []);
     Processes := Some (op Family.Processes []) |}.

(** An argument of Renew or Update with the VMs family only. *)
Definition only_VMs (vms : list Op.Item) : GenesisSyncDataOperation.t :=
  set_slot Family.VMs (Some (op Family.VMs vms)) zero.

Definition vip_a : Op.Item := Op.mkItem "vip-a" 7 (100 * sec) "10.0.0.1".
Definition vm_a : Op.Item := Op.mkItem "vm-a" 7 (100 * sec) "A".
Definition vm_b : Op.Item := Op.mkItem "vm-b" 7 (100 * sec) "B".
Definition host_a : Op.Item := Op.mkItem "host-a" 7 (100 * sec) "H".

(** The store: agents 1 and 2 registered for organisation 1; this node
    ["N"] owns the rows of agents 1, 2 and 99. *)
Definition org1 : MySQL.DB :=
  MySQL.mkDB [1; 2]
    [GenesisStorage.mk 1 "N"; GenesisStorage.mk 2 "N"; GenesisStorage.mk 99 "N"]
    [] [] [] ∅ false.

Definition store : MySQL.t := MySQL.mk (Some [1]) (<[1 := org1]> ∅).

(** The same store while the enumeration of organisations fails. *)
Definition store_down : MySQL.t := MySQL.mk None (<[1 := org1]> ∅).

(** The same store with a second organisation that has no session. *)
Definition store_two : MySQL.t := MySQL.mk (Some [5; 1]) (<[1 := org1]> ∅).

Definition engine (g : GenesisSyncDataOperation.t) : SyncStorage.t :=
  SyncStorage.mk config false true false g.

Definition sync_world (g : GenesisSyncDataOperation.t) (m : MySQL.t) : SyncStorage.World :=
  SyncStorage.mkWorld (engine g) m "N" [].

(** All families empty, not dirty. *)
Definition idle : SyncStorage.World := sync_world (aggregate [] [] []) store.

(** A VIP, a VM and a host last seen at 100 s. *)
Definition seen_at_100 : SyncStorage.World :=
  sync_world (aggregate [vip_a] [vm_a] [host_a]) store.

Definition sync_running (w : SyncStorage.World) : SyncStorage.Process :=
  SyncStorage.mkProcess w true true.

(** Kubernetes: organisation 1, cluster ["c1"], version 5, reported at
    100 s. *)
Definition c1_v5 : KubernetesInfo.t :=
  KubernetesInfo.mk 1 "c1" "" 5 (100 * sec) ["entry"].

(** A report of the same version, and one of version 6. *)
Definition c1_v5_again : KubernetesInfo.t :=
  KubernetesInfo.mk 1 "c1" "x" 5 (130 * sec) ["entry'"].
Definition c1_v6 : KubernetesInfo.t :=
  KubernetesInfo.mk 1 "c1" "" 6 (140 * sec) ["entry'"].

Definition KUBERNETES : Z := 11.
Definition CONTROLLER_STATE_EXCEPTION : Z := 3.

(** Cluster ["c1"] is the one sub-domain ["sd-1"] of the Kubernetes
    domain ["d-1"], whose controller 10.1.1.1 runs in pod 172.16.0.9;
    cluster ["c2"] is the domain ["d-2"] itself, on the controller
    10.1.1.2 without pod; cluster ["c3"] has two sub-domain rows. *)
Definition org1_k8s : MySQL.DB :=
  MySQL.mkDB [] []
    [SubDomain.mk "sd-1" "d-1" "c1"; SubDomain.mk "sd-3" "d-1" "c3";
     SubDomain.mk "sd-4" "d-1" "c3"]
    [Domain.mk "d-1" "" KUBERNETES "10.1.1.1"; Domain.mk "d-2" "c2" KUBERNETES "10.1.1.2"]
    [Controller.mk "10.1.1.1" "172.16.0.9" 2; Controller.mk "10.1.1.2" "" 2]
    ∅ false.

Definition store_k8s : MySQL.t := MySQL.mk (Some [1]) (<[1 := org1_k8s]> ∅).

Definition k8s_world (data : gmap Z (gmap string KubernetesInfo.t))
  : KubernetesStorage.World :=
  KubernetesStorage.mkWorld
    (KubernetesStorage.mk 20417 30417 config false true data) store_k8s None [].

Definition one_cluster : KubernetesStorage.World :=
  k8s_world (<[1 := <["c1" := c1_v5]> ∅]> ∅).

(** Organisation 1 with a row whose key is zero: agents 1 and 2 are
    registered; this node owns the rows of the keys 0 and 99. *)
Definition org1_zero : MySQL.DB :=
  MySQL.mkDB [1; 2] [GenesisStorage.mk 0 "N"; GenesisStorage.mk 99 "N"] [] [] [] ∅ false.

Definition store_zero : MySQL.t := MySQL.mk (Some [1]) (<[1 := org1_zero]> ∅).

Definition idle_zero : SyncStorage.World := sync_world (aggregate [] [] []) store_zero.

(** Tag descriptions: one row for [flow_log.l4_flow_log], the same row
    for a table that is not registered, and the enum of [protocol]. *)
Definition tag_ip : list Description.any :=
  [Description.Str "ip"; Description.Str "ip_0"; Description.Str "ip_1";
   Description.Str "IP"; Description.Str "ip"; Description.Str "";
   Description.Str "Network Layer"; Description.Str "=, !="].

Definition tag_data : gmap string Description.any :=
  <["flow_log" := Description.Obj (<["l4_flow_log" := Description.Rows [tag_ip]]> ∅)]>
    (<["flow_metrics" := Description.Obj (<["network" := Description.Rows [tag_ip]]> ∅)]>
       (<["enum" :=
            Description.Obj
              (<["protocol" :=
                   Description.Rows [[Description.Num 6; Description.Str "TCP"]]]> ∅)]>
          ∅)).

(** The package variables after one load of [tag_data], and after
    two. *)
Definition loaded_once : Description.Globals :=
  default Description.initial
    (exec (Description.LoadTagDescriptions tag_data) Description.initial).

Definition loaded_twice : Description.Globals :=
  default Description.initial (exec (Description.LoadTagDescriptions tag_data) loaded_once).

(** A row that is seven strings short. *)
Definition tag_short : list Description.any := [Description.Str "ip"].

Definition tag_data_short : gmap string Description.any :=
  <["flow_log" := Description.Obj (<["l4_flow_log" := Description.Rows [tag_short]]> ∅)]> ∅.

End Examples.

Close Scope string_scope.

(** * Vocabulary of the statements *)

(** [m] relates the world before to the world after by [R], whenever it
    returns. *)
Definition preserves {S A} (R : S -> S -> Prop) (m : M S A) : Prop :=
  forall s a s', m s = Some (a, s') -> R s s'.

(** [m] does on [phi s] what it does on [s], up to [phi]. *)
Definition commutes {S A} (phi : S -> S) (m : M S A) : Prop :=
  forall s, m (phi s) = prod_map id phi <$> m s.

(** From any state in [I], [m] returns, in a state in [I]. *)
Definition runs {S A} (I : S -> Prop) (m : M S A) : Prop :=
  forall s, I s -> exists a s', m s = Some (a, s') /\ I s'.

Module SyncStorageSpec.

Import GenesisSyncDataOperation SyncStorage.

Definition info (w : World) : GenesisSyncDataOperation.t := genesisSyncInfo (self w).

(** What the family's [Renew] makes of the engine's operation [o] of
    family [f], given the argument of [SyncStorage.Renew]. *)
Definition renewed (data : GenesisSyncDataOperation.t) (now : Z) (f : Family.t)
    (o : Op.Operation) : Op.Operation :=
  match slot f data with
  | Some d => Op.Renew o (Op.Fetch d) now
  | None => o
  end.

Definition updated (data : GenesisSyncDataOperation.t) (now : Z) (f : Family.t)
    (o : Op.Operation) : Op.Operation :=
  match slot f data with
  | Some d => Op.Update o (Op.Fetch d) now
  | None => o
  end.

(** The snapshot of ten operations. *)
Definition snapshot (vips vms vpcs hosts ports lldps iplastseens networks vinterfaces
    processes : Op.Operation) : GenesisSyncData.t :=
  {| GenesisSyncData.VIPs := Op.Fetch vips;
     GenesisSyncData.VMs := Op.Fetch vms;
     GenesisSyncData.VPCs := Op.Fetch vpcs;
     GenesisSyncData.Hosts := Op.Fetch hosts;
     GenesisSyncData.Ports := Op.Fetch ports;
     GenesisSyncData.Lldps := Op.Fetch lldps;
     GenesisSyncData.IPLastSeens := Op.Fetch iplastseens;
     GenesisSyncData.Networks := Op.Fetch networks;
     GenesisSyncData.Vinterfaces := Op.Fetch vinterfaces;
     GenesisSyncData.Processes := Op.Fetch processes |}.

(** The snapshot of a loaded aggregate. *)
Definition snapshot_of (g : GenesisSyncDataOperation.t) : option GenesisSyncData.t :=
  vips ← VIPs g; vms ← VMs g; vpcs ← VPCs g; hosts ← Hosts g; ports ← Ports g;
  lldps ← Lldps g; iplastseens ← IPlastseens g; networks ← Networks g;
  vinterfaces ← Vinterfaces g; processes ← Processes g;
  Some (snapshot vips vms vpcs hosts ports lldps iplastseens networks vinterfaces
          processes).

Definition emitted (e : Effect) (w : World) : World :=
  {| self := self w; mysql := mysql w; NODE_IP := NODE_IP w; trace := trace w ++ [e] |}.

(** Only the aggregate differs. *)
Definition only_info (w w' : World) : Prop :=
  exists g, w' = on_self (with_info g) w.

(** The world after the ten family updates of [Update]. *)
Definition families_updated data now (w : World) : World :=
  on_self (with_info (map_slots (updated data now) (info w))) w.

(** Every slot of the engine holds an operation. *)
Definition Loaded (w : World) : Prop := loaded (info w).

(** The process once [Stop] has been called. *)
Definition stopped (p : Process) : Process :=
  mkProcess (on_self Stop (world p)) (run_live p) (refreshDatabase_live p).

(** The aggregate is as it was. *)
Definition same_info (w w' : World) : Prop := info w' = info w.

(** The Hosts slot is as it was, and every snapshot sent in between
    carries its records. *)
Definition hosts_kept (w w' : World) : Prop :=
  slot Family.Hosts (info w') = slot Family.Hosts (info w)
  /\ exists new, trace w' = trace w ++ new
       /\ forall snap, Send snap ∈ new ->
            Some (GenesisSyncData.Hosts snap) = Op.Fetch <$> slot Family.Hosts (info w).

End SyncStorageSpec.

Module KubernetesStorageSpec.

Import KubernetesInfo KubernetesStorage.

Definition appended (es : list Effect) (w : World) : World :=
  {| self := self w; mysql := mysql w; peer := peer w; trace := trace w ++ es |}.

(** The records of the store, in the order [fetch] sends them. *)
Definition snapshot (data : gmap Z (gmap string KubernetesInfo.t)) : list KubernetesInfo.t :=
  map_to_list data ≫= (fun kv => (map_to_list kv.2).*2).

(** The records sent on the channel, oldest first. *)
Definition sends (tr : list Effect) : list KubernetesInfo.t :=
  omap (fun e => match e with Send kData => Some kData | _ => None end) tr.

(** The number of stored (orgID, clusterID) entries. *)
Definition total_entries (data : gmap Z (gmap string KubernetesInfo.t)) : nat :=
  sum_list (size <$> (map_to_list data).*2).

Definition stored (data : gmap Z (gmap string KubernetesInfo.t)) (org : Z) (cid : string)
  : option KubernetesInfo.t :=
  data !! org ≫= (fun kd => kd !! cid).

(** The stored record [old] with the epoch and error message of
    [new]. *)
Definition refreshed (old new : KubernetesInfo.t) : KubernetesInfo.t :=
  {| ORGID := ORGID old; ClusterID := ClusterID old; ErrorMSG := ErrorMSG new;
     Version := Version old; Epoch := Epoch new; Entries := Entries old |}.

(** The store after the mutation of [Add]. *)
Definition added (org : Z) (newInfo : KubernetesInfo.t)
    (data : gmap Z (gmap string KubernetesInfo.t)) : gmap Z (gmap string KubernetesInfo.t) :=
  match data !! org with
  | Some kd =>
      match kd !! ClusterID newInfo with
      | Some oldInfo =>
          if bool_decide (Version oldInfo = Version newInfo)
          then <[org := <[ClusterID newInfo := refreshed oldInfo newInfo]> kd]> data
          else <[org := <[ClusterID newInfo := newInfo]> kd]> data
      | None => <[org := <[ClusterID newInfo := newInfo]> kd]> data
      end
  | None => <[org := <[ClusterID newInfo := newInfo]> ∅]> data
  end.

(** The store after the aging of one tick. *)
Definition aged (now ttl : Z) (data : gmap Z (gmap string KubernetesInfo.t))
  : gmap Z (gmap string KubernetesInfo.t) :=
  filter (fun kv => GoTime.Sub now (Epoch kv.2) <= ttl) <$> data.

Definition refresh_url (host : string) (port : Z) : string :=
  ("http://" +:+ JoinHostPort host (Itoa port) +:+ "/v1/kubernetes-refresh/")%string.

Definition refresh_query (domainLcuuid subDomainLcuuid : string) (version : Z)
  : gmap string string :=
  <["domain_lcuuid"%string := domainLcuuid]>
    (<["sub_domain_lcuuid"%string := subDomainLcuuid]>
       (<["version"%string := Itoa (int_of_uint64 version)]> ∅)).

(** Whether [Add] finds the cluster stored with the version of
    [newInfo]. *)
Definition unchanged (org : Z) (newInfo : KubernetesInfo.t)
    (data : gmap Z (gmap string KubernetesInfo.t)) : bool :=
  match stored data org (ClusterID newInfo) with
  | Some oldInfo => bool_decide (Version oldInfo = Version newInfo)
  | None => false
  end.

(** The target of the refresh, from the controller row and the
    controller IP of the domain. *)
Definition target (k : t) (controller : Controller.t) (controllerIP : string)
  : string * Z :=
  if bool_decide (Controller.PodIP controller = ""%string)
  then (controllerIP, listenNodePort k)
  else (Controller.PodIP controller, listenPort k).

(** The effects of a refresh request to [host:port]. *)
Definition refresh_request (org : Z) (host : string) (port : Z)
    (domainLcuuid subDomainLcuuid : string) (version : Z) : list Effect :=
  [Log Debug "trigger cloud (%s) kubernetes (%s) refresh version (%d)" (Some org);
   HttpGet (refresh_url host port) 30 (refresh_query domainLcuuid subDomainLcuuid version)].

(** The rows of [sub_domain] with this cluster id. *)
Definition sub_domains_of (d : MySQL.DB) (clusterID : string) : list SubDomain.t :=
  filter (fun sd => SubDomain.ClusterID sd = clusterID) (MySQL.sub_domain d).

(** The process once [Stop] has been called. *)
Definition stopped (p : Process) : Process :=
  mkProcess (on_self Stop (world p)) (run_live p).

End KubernetesStorageSpec.

Module DescriptionSpec.

Import Description.

(** The descriptions registered for a table, if the table is
    registered. *)
Definition descriptions (g : Globals) (db table : string)
  : option (list TagDescription.t) :=
  TAG_DESCRIPTIONS g !! db ≫= (fun tables => tables !! table).

Definition string_at (tag : list any) (i : nat) : option string :=
  tag !! i ≫= as_string.

(** The description a row of eight strings stands for. *)
Definition parse_tag (tag : list any) : option TagDescription.t :=
  a0 ← string_at tag 0; a1 ← string_at tag 1; a2 ← string_at tag 2;
  a3 ← string_at tag 3; a4 ← string_at tag 4; a5 ← string_at tag 5;
  a6 ← string_at tag 6; a7 ← string_at tag 7;
  Some (NewTagDescription a0 a1 a2 a3 a4 a5 a6 a7).

(** The enum a row of two values stands for. *)
Definition parse_enum (enumValue : list any) : option TagEnum :=
  v0 ← enumValue !! 0%nat; v1 ← enumValue !! 1%nat; Some (NewTagEnum v0 v1).

(** The rows that [tagData] holds for a table, and for the enum of a
    tag. *)
Definition rows_of (tagData : gmap string any) (db table : string) : list (list any) :=
  match tagData !! db with
  | Some (Obj m) => match m !! table with Some (Rows rows) => rows | _ => [] end
  | _ => []
  end.

Definition enum_rows (tagData : gmap string any) (tag : string)
  : option (list (list any)) :=
  match tagData !! "enum"%string with
  | Some (Obj m) => m !! tag ≫= as_rows
  | _ => None
  end.

(** What [tagData] must hold for a registered table: an object for the
    database, and for the table, if anything, rows of eight strings. *)
Definition table_ok (tagData : gmap string any) (db table : string) : Prop :=
  forall v, tagData !! db = Some v ->
    exists m, v = Obj m /\
      forall tv, m !! table = Some tv ->
        exists rows, tv = Rows rows /\ Forall (fun tag => is_Some (parse_tag tag)) rows.

(** What [tagData] must hold under ["enum"], if anything: an object of
    rows of two values at least. *)
Definition enums_ok (tagData : gmap string any) : Prop :=
  forall v, tagData !! "enum"%string = Some v ->
    exists m, v = Obj m /\
      forall tag ev, m !! tag = Some ev ->
        exists rows, ev = Rows rows /\ Forall (fun row => is_Some (parse_enum row)) rows.

Definition well_typed (g : Globals) (tagData : gmap string any) : Prop :=
  (forall db table, is_Some (descriptions g db table) -> table_ok tagData db table)
  /\ enums_ok tagData.

(** The row of a description and of an enum in a response. *)
Definition description_row (tag : TagDescription.t) : any :=
  Arr [Str (TagDescription.Name tag); Str (TagDescription.ClientName tag);
       Str (TagDescription.ServerName tag); Str (TagDescription.DisplayName tag);
       Str (TagDescription.Type_ tag); Str (TagDescription.Category tag);
       Str (TagDescription.Operators tag)].

Definition enum_row (e : TagEnum) : any := Arr [Value e; DisplayName e].

Definition description_columns : list any :=
  [Str "name"; Str "client_name"; Str "server_name"; Str "display_name"; Str "type";
   Str "category"; Str "operators"].

Definition enum_columns : list any := [Str "value"; Str "display_name"].

(** The response with these columns and values. *)
Definition response (columns values : list any) : gmap string (list any) :=
  <["columns"%string := columns]> (<["values"%string := values]> ∅).

(** The descriptions that the rows of [tagData] add to a table. *)
Definition new_rows (tagData : gmap string any) (db table : string)
  : list TagDescription.t :=
  omap parse_tag (rows_of tagData db table).

(** The enums that rows stand for. *)
Definition parse_enums (rows : list (list any)) : list TagEnum := omap parse_enum rows.

(** The package variables with [ds] appended to a table, and with the
    enums of a tag replaced. *)
Definition add_rows (db table : string) (ds : list TagDescription.t) (g : Globals) : Globals :=
  {| TAG_DESCRIPTIONS := alter (alter (fun old => old ++ ds) table) db (TAG_DESCRIPTIONS g);
     TAG_ENUMS := TAG_ENUMS g |}.

Definition set_enums (tag : string) (es : list TagEnum) (g : Globals) : Globals :=
  {| TAG_DESCRIPTIONS := TAG_DESCRIPTIONS g; TAG_ENUMS := <[tag := es]> (TAG_ENUMS g) |}.

(** The descriptions that [load_table] appends, when it returns. *)
Definition table_rows (tableData : any) (table : string) : option (list TagDescription.t) :=
  m ← as_obj tableData;
  match m !! table with
  | None => Some []
  | Some tableTagData => rows ← as_rows tableTagData; mapM parse_tag rows
  end.

(** Every table of [g0] has grown by [ex] in [g]; no table has come or
    gone, and the enums are as they were. *)
Definition grown (g0 g : Globals) (ex : string -> string -> list TagDescription.t) : Prop :=
  (forall db table, descriptions g db table
                    = (fun old => old ++ ex db table) <$> descriptions g0 db table)
  /\ TAG_ENUMS g = TAG_ENUMS g0.

(** The two loops of [LoadTagDescriptions]. *)
Definition load_databases (tagData : gmap string any)
    (descriptions : gmap string (gmap string (list TagDescription.t))) : M Globals unit :=
  for_range (map_to_list descriptions) (fun db_tables =>
    match tagData !! db_tables.1 with
    | None => ret tt
    | Some tableData =>
        for_range (map_to_list db_tables.2) (fun table_tags =>
          load_table db_tables.1 tableData table_tags.1)
    end).

Definition load_tag_enums (m : gmap string any) : M Globals unit :=
  for_range (map_to_list m) (fun tagName_enumData =>
    rows <- must (as_rows tagName_enumData.2) ;;
    tagEnums <- load_enums rows [] ;;
    modify (fun g =>
      {| TAG_DESCRIPTIONS := TAG_DESCRIPTIONS g;
         TAG_ENUMS := <[tagName_enumData.1 := tagEnums]> (TAG_ENUMS g) |})).

End DescriptionSpec.

Module SyncLoopSpec.

Import GenesisSyncDataOperation SyncStorage SyncStorageSpec.

(** The rows that the store holds for a family of the default
    organisation; none without a session. *)
Definition stored_rows (m : MySQL.t) (f : Family.t) : list Op.Item :=
  match MySQL.GetDB m DEFAULT_ORG_ID with
  | Some d => default [] (MySQL.genesis d !! Family.table f)
  | None => []
  end.

(** The operation that the load installs for a family: the rows of the
    store that are not older than [ageTime]. *)
Definition load_of (m : MySQL.t) (now ageTime : Z) (f : Family.t) : Op.Operation :=
  Op.Load (NewPlatformDataOperation f DEFAULT_ORG_ID []) (stored_rows m f) now ageTime.

(** The aggregate is as it was and the trace has grown, by no send. *)
Definition quiet (w w' : World) : Prop :=
  info w' = info w
  /\ exists new, trace w' = trace w ++ new /\ forall snap, Send snap ∉ new.

(** The aging time that a tick of [run] passes to a family. *)
Definition ttl_of (w : World) (f : Family.t) : Z :=
  match f with
  | Family.Vinterfaces => GoTime.seconds (VinterfaceAgingTime (cfg (self w)))
  | _ => GoTime.seconds (AgingTime (cfg (self w)))
  end.

(** The families in the [Age] chain of [run], in its order. *)
Definition aged_families : list Family.t :=
  [Family.VIPs; Family.VMs; Family.VPCs; Family.Lldps; Family.Ports; Family.Networks;
   Family.IPlastseens; Family.Processes; Family.Vinterfaces].

(** Whether the family's [Age] at [now] reports a change. *)
Definition expires (now : Z) (w : World) (f : Family.t) : bool :=
  match slot f (info w) with
  | Some o => (Op.Age o now (ttl_of w f)).2
  | None => false
  end.

(** [d'] is [d] with some ownership rows removed, none of a registered
    agent, none with the key zero and, where [vtap_id] is a key of the
    table, none of another node. *)
Definition pruned (nodeIP : string) (d d' : MySQL.DB) : Prop :=
  MySQL.vtap d' = MySQL.vtap d
  /\ MySQL.read_only d' = MySQL.read_only d
  /\ MySQL.sub_domain d' = MySQL.sub_domain d
  /\ MySQL.domain d' = MySQL.domain d
  /\ MySQL.controller d' = MySQL.controller d
  /\ MySQL.genesis d' = MySQL.genesis d
  /\ MySQL.genesis_storage d' `sublist_of` MySQL.genesis_storage d
  /\ (forall r, r ∈ MySQL.genesis_storage d ->
        GenesisStorage.VtapID r ∈ MySQL.vtap d -> r ∈ MySQL.genesis_storage d')
  /\ (forall r, r ∈ MySQL.genesis_storage d ->
        GenesisStorage.VtapID r = 0 -> r ∈ MySQL.genesis_storage d')
  /\ (NoDup (GenesisStorage.VtapID <$> MySQL.genesis_storage d) ->
      forall r, r ∈ MySQL.genesis_storage d ->
        GenesisStorage.NodeIP r <> nodeIP -> r ∈ MySQL.genesis_storage d').

(** Every row that this node owns is the row of a registered agent, or
    has the key zero, which no delete statement names. *)
Definition clean (nodeIP : string) (d : MySQL.DB) : Prop :=
  forall r, r ∈ MySQL.genesis_storage d -> GenesisStorage.NodeIP r = nodeIP ->
    GenesisStorage.VtapID r ∈ MySQL.vtap d \/ GenesisStorage.VtapID r = 0.

(** The store is as it was, and every delete statement that the trace
    has grown by has failed: its session refuses writes, or none of its
    rows has a key other than zero. *)
Definition settled (w w' : World) : Prop :=
  mysql w' = mysql w /\ NODE_IP w' = NODE_IP w
  /\ exists new, trace w' = trace w ++ new
       /\ forall org rows, Delete org rows ∈ new ->
            exists d, MySQL.GetDB (mysql w) org = Some d
                      /\ MySQL.delete_fails d rows = true.

(** The configuration is as it was. *)
Definition same_cfg (w w' : World) : Prop := cfg (self w') = cfg (self w).

(** The families in the order of [storeToDatabase]. *)
Definition store_order : list Family.t :=
  [Family.VIPs; Family.VMs; Family.VPCs; Family.Hosts; Family.Ports; Family.Lldps;
   Family.IPlastseens; Family.Networks; Family.Vinterfaces; Family.Processes].

(** The statement that [Save] issues for an operation: none without a
    session of its organisation. *)
Definition save_statement (m : MySQL.t) (o : Op.Operation) : list Effect :=
  match MySQL.GetDB m (Op.orgID o) with
  | Some _ => [SaveRows (Op.orgID o) (Op.table o) (Op.Fetch o)]
  | None => []
  end.

(** The statements of [storeToDatabase] for an aggregate. *)
Definition save_statements (g : GenesisSyncDataOperation.t) (m : MySQL.t) : list Effect :=
  store_order ≫= (fun f => match slot f g with
                           | Some o => save_statement m o
                           | None => []
                           end).

(** The store after the statement of [Save] for an operation. *)
Definition save_store (o : Op.Operation) (m : MySQL.t) : MySQL.t :=
  match MySQL.GetDB m (Op.orgID o) with
  | Some d =>
      if MySQL.read_only d then m
      else MySQL.put_db (Op.orgID o)
             (MySQL.with_genesis d (<[Op.table o := Op.Fetch o]> (MySQL.genesis d))) m
  | None => m
  end.

(** The operations of the families [fs], in their order, whose table is
    [t] of organisation [org]. *)
Definition writers (g : GenesisSyncDataOperation.t) (fs : list Family.t) (org : Z)
    (t : string) : list Op.Operation :=
  omap (fun f => o ← slot f g;
                 if bool_decide (Op.orgID o = org /\ Op.table o = t) then Some o else None)
       fs.

(** Two databases that differ in the family tables at most. *)
Definition same_but_genesis (d d' : MySQL.DB) : Prop :=
  MySQL.vtap d' = MySQL.vtap d
  /\ MySQL.genesis_storage d' = MySQL.genesis_storage d
  /\ MySQL.sub_domain d' = MySQL.sub_domain d
  /\ MySQL.domain d' = MySQL.domain d
  /\ MySQL.controller d' = MySQL.controller d
  /\ MySQL.read_only d' = MySQL.read_only d.

(** [m'] is [m] after the families [fs] of [g] have been saved: the
    sessions are those of [m]; in a session that takes writes, a family
    table holds the records of the last family that writes it, and is
    as it was when none does; a session that refuses writes is as it
    was. *)
Definition saved_by (g : GenesisSyncDataOperation.t) (fs : list Family.t)
    (m m' : MySQL.t) : Prop :=
  MySQL.org_ids m' = MySQL.org_ids m
  /\ forall org,
       match MySQL.GetDB m org with
       | None => MySQL.GetDB m' org = None
       | Some d =>
           exists d', MySQL.GetDB m' org = Some d'
             /\ same_but_genesis d d'
             /\ forall t,
                  MySQL.genesis d' !! t
                  = if MySQL.read_only d then MySQL.genesis d !! t
                    else match last (writers g fs org t) with
                         | Some o => Some (Op.Fetch o)
                         | None => MySQL.genesis d !! t
                         end
       end.

Definition saved (g : GenesisSyncDataOperation.t) (m m' : MySQL.t) : Prop :=
  saved_by g store_order m m'.

End SyncLoopSpec.

(** * Facts *)

Section MonadFacts.

Context {S : Type}.

Lemma bind_Some {A B} (m : M S A) (k : A -> M S B) s a s' :
  m s = Some (a, s') -> bind m k s = k a s'.
Proof. intros H. unfold bind. by rewrite H. Qed.

Lemma bind_inv {A B} (m : M S A) (k : A -> M S B) s b s2 :
  bind m k s = Some (b, s2) ->
  exists a s1, m s = Some (a, s1) /\ k a s1 = Some (b, s2).
Proof.
  unfold bind. destruct (m s) as [[a s1]|] eqn:E; [|done]. eauto.
Qed.

Lemma exec_Some {A} (m : M S A) s a s' : m s = Some (a, s') -> exec m s = Some s'.
Proof. intros H. unfold exec. by rewrite H. Qed.

Lemma exec_inv {A} (m : M S A) s s' : exec m s = Some s' -> exists a, m s = Some (a, s').
Proof.
  unfold exec. destruct (m s) as [[a s1]|]; simpl; [|done].
  intros [= ->]. eauto.
Qed.

Section Preserves.

Variable R : S -> S -> Prop.
Hypothesis R_refl : forall s, R s s.
Hypothesis R_trans : forall s1 s2 s3, R s1 s2 -> R s2 s3 -> R s1 s3.

Lemma preserves_ret {A} (a : A) : preserves R (ret a).
Proof using R_refl. intros s a' s' [= _ <-]. apply R_refl. Qed.

Lemma preserves_gets {A} (f : S -> A) : preserves R (gets f).
Proof using R_refl. intros s a' s' [= _ <-]. apply R_refl. Qed.

Lemma preserves_bind {A B} (m : M S A) (k : A -> M S B) :
  preserves R m -> (forall a, preserves R (k a)) -> preserves R (bind m k).
Proof using R_trans.
  intros Hm Hk s b s2 (a & s1 & H1 & H2)%bind_inv.
  eapply R_trans; [by eapply Hm | by eapply Hk].
Qed.

Lemma preserves_for_range {A} (xs : list A) (body : A -> M S unit) :
  (forall x, preserves R (body x)) -> preserves R (for_range xs body).
Proof using R_refl R_trans.
  intros Hb. induction xs as [|x xs IH]; simpl.
  - apply preserves_ret.
  - apply preserves_bind; auto.
Qed.

Lemma preserves_if {A} (b : bool) (m1 m2 : M S A) :
  preserves R m1 -> preserves R m2 -> preserves R (if b then m1 else m2).
Proof. by destruct b. Qed.

Lemma preserves_match_option {A B} (o : option B) (m : M S A) (k : B -> M S A) :
  preserves R m -> (forall b, preserves R (k b)) ->
  preserves R (match o with Some b => k b | None => m end).
Proof. intros Hm Hk. by destruct o. Qed.

Lemma preserves_orelse (a : bool) (b : M S bool) :
  preserves R b -> preserves R (orelse a b).
Proof using R_refl.
  intros Hb. destruct a; simpl; [apply preserves_ret | done].
Qed.

End Preserves.

Section Commutes.

Variable phi : S -> S.

Lemma commutes_ret {A} (a : A) : commutes phi (ret a).
Proof. by intros s. Qed.

Lemma commutes_gets {A} (f : S -> A) :
  (forall s, f (phi s) = f s) -> commutes phi (gets f).
Proof. intros H s. unfold gets. simpl. by rewrite H. Qed.

Lemma commutes_modify (g : S -> S) :
  (forall s, g (phi s) = phi (g s)) -> commutes phi (modify g).
Proof. intros H s. unfold modify. simpl. by rewrite H. Qed.

Lemma commutes_bind {A B} (m : M S A) (k : A -> M S B) :
  commutes phi m -> (forall a, commutes phi (k a)) -> commutes phi (bind m k).
Proof.
  intros Hm Hk s. unfold bind. rewrite Hm.
  destruct (m s) as [[a s1]|]; simpl; [apply Hk | done].
Qed.

Lemma commutes_for_range {A} (xs : list A) (body : A -> M S unit) :
  (forall x, commutes phi (body x)) -> commutes phi (for_range xs body).
Proof.
  intros Hb. induction xs as [|x xs IH]; simpl.
  - apply commutes_ret.
  - apply commutes_bind; auto.
Qed.

Lemma commutes_orelse (a : bool) (b : M S bool) :
  commutes phi b -> commutes phi (orelse a b).
Proof. intros Hb. destruct a; simpl; [apply commutes_ret | done]. Qed.

Lemma commutes_match_option {A B} (o : option B) (m : M S A) (k : B -> M S A) :
  commutes phi m -> (forall b, commutes phi (k b)) ->
  commutes phi (match o with Some b => k b | None => m end).
Proof. intros Hm Hk. by destruct o. Qed.

Lemma commutes_if {A} (b : bool) (m1 m2 : M S A) :
  commutes phi m1 -> commutes phi m2 -> commutes phi (if b then m1 else m2).
Proof. by destruct b. Qed.

Lemma commutes_exec {A} (m : M S A) s :
  commutes phi m -> exec m (phi s) = phi <$> exec m s.
Proof.
  intros Hm. unfold exec. rewrite Hm. by destruct (m s) as [[a s1]|].
Qed.

End Commutes.

Section Runs.

Variable I : S -> Prop.

Lemma runs_ret {A} (a : A) : runs I (ret a).
Proof. intros s Hs. by exists a, s. Qed.

Lemma runs_gets {A} (f : S -> A) : runs I (gets f).
Proof. intros s Hs. by exists (f s), s. Qed.

Lemma runs_modify (g : S -> S) : (forall s, I s -> I (g s)) -> runs I (modify g).
Proof. intros Hg s Hs. exists tt, (g s). split; [done | by apply Hg]. Qed.

Lemma runs_bind {A B} (m : M S A) (k : A -> M S B) :
  runs I m -> (forall a, runs I (k a)) -> runs I (bind m k).
Proof.
  intros Hm Hk s Hs. destruct (Hm s Hs) as (a & s1 & E1 & H1).
  destruct (Hk a s1 H1) as (b & s2 & E2 & H2).
  exists b, s2. split; [|done]. by rewrite (bind_Some _ _ _ _ _ E1).
Qed.

Lemma runs_for_range {A} (xs : list A) (body : A -> M S unit) :
  (forall x, runs I (body x)) -> runs I (for_range xs body).
Proof.
  intros Hb. induction xs as [|x xs IH]; simpl.
  - apply runs_ret.
  - apply runs_bind; auto.
Qed.

Lemma runs_orelse (a : bool) (b : M S bool) : runs I b -> runs I (orelse a b).
Proof. intros Hb. destruct a; simpl; [apply runs_ret | done]. Qed.

Lemma runs_if {A} (b : bool) (m1 m2 : M S A) :
  runs I m1 -> runs I m2 -> runs I (if b then m1 else m2).
Proof. by destruct b. Qed.

Lemma runs_match_option {A B} (o : option B) (m : M S A) (k : B -> M S A) :
  runs I m -> (forall b, runs I (k b)) ->
  runs I (match o with Some b => k b | None => m end).
Proof. intros Hm Hk. by destruct o. Qed.

Lemma runs_exec {A} (m : M S A) s : runs I m -> I s -> is_Some (exec m s).
Proof.
  intros Hm Hs. destruct (Hm s Hs) as (a & s' & E & _).
  exists s'. by apply exec_Some in E.
Qed.

End Runs.

End MonadFacts.

Module SyncStorageFacts.

Import GenesisSyncDataOperation SyncStorage SyncStorageSpec.

(** *** Slots *)

Lemma slot_set_slot f v g : slot f (set_slot f v g) = v.
Proof. by destruct f. Qed.

Lemma slot_set_slot_ne f f' v g : f <> f' -> slot f' (set_slot f v g) = slot f' g.
Proof. intros Hne. by destruct f, f'. Qed.

Lemma set_slot_id f g o : slot f g = o -> set_slot f o g = g.
Proof. intros <-. by destruct g, f. Qed.

Lemma slot_map_slots h f g : slot f (map_slots h g) = h f <$> slot f g.
Proof. by destruct f. Qed.

Lemma loaded_mk g :
  loaded g ->
  exists o1 o2 o3 o4 o5 o6 o7 o8 o9 o10,
    g = GenesisSyncDataOperation.mk (Some o1) (Some o2) (Some o3) (Some o4) (Some o5)
          (Some o6) (Some o7) (Some o8) (Some o9) (Some o10).
Proof.
  intros H. destruct g as [s1 s2 s3 s4 s5 s6 s7 s8 s9 s10].
  destruct (H Family.IPlastseens) as [o1 E1], (H Family.VIPs) as [o2 E2],
    (H Family.VMs) as [o3 E3], (H Family.VPCs) as [o4 E4], (H Family.Hosts) as [o5 E5],
    (H Family.Lldps) as [o6 E6], (H Family.Ports) as [o7 E7],
    (H Family.Networks) as [o8 E8], (H Family.Vinterfaces) as [o9 E9],
    (H Family.Processes) as [o10 E10].
  simpl in *. subst. by exists o1, o2, o3, o4, o5, o6, o7, o8, o9, o10.
Qed.

Lemma loaded_set_slot f o g : loaded g -> loaded (set_slot f (Some o) g).
Proof.
  intros H f'. destruct (decide (f = f')) as [<-|Hne].
  - rewrite slot_set_slot. eauto.
  - rewrite slot_set_slot_ne by done. apply H.
Qed.

Lemma loaded_map_slots h g : loaded g -> loaded (map_slots h g).
Proof. intros H f. rewrite slot_map_slots. destruct (H f) as [o ->]. simpl. eauto. Qed.

Lemma on_self_info_id w : on_self (with_info (info w)) w = w.
Proof. by destruct w as [[]]. Qed.

(** *** The steps of Renew and Update on a set slot *)

Lemma receiver_eq f w o : slot f (info w) = Some o -> receiver f w = Some (o, w).
Proof. unfold receiver, bind, gets, info. by intros ->. Qed.

Lemma Renew_family_eq f data now w o :
  slot f (info w) = Some o ->
  Renew_family f data now w
  = Some (tt, on_self (with_info (set_slot f (Some (renewed data now f o)) (info w))) w).
Proof.
  intros Ho. unfold Renew_family, renewed. destruct (slot f data) as [d|].
  - by rewrite (bind_Some _ _ _ _ _ (receiver_eq _ _ _ Ho)).
  - by rewrite (set_slot_id _ _ _ Ho), on_self_info_id.
Qed.

Lemma Update_family_eq f data now flag w o :
  slot f (info w) = Some o ->
  Update_family f data now flag w
  = Some (flag || bool_decide (is_Some (slot f data)),
          on_self (with_info (set_slot f (Some (updated data now f o)) (info w))) w).
Proof.
  intros Ho. unfold Update_family, updated. destruct (slot f data) as [d|].
  - rewrite (bind_Some _ _ _ _ _ (receiver_eq _ _ _ Ho)).
    rewrite bool_decide_true by eauto. by rewrite orb_true_r.
  - rewrite bool_decide_false by (by intros [? ?]).
    by rewrite (set_slot_id _ _ _ Ho), on_self_info_id, orb_false_r.
Qed.

Ltac by_loaded H :=
  match type of H with
  | loaded (info ?w) =>
      destruct w as [[? ? ? ? ?g] ? ? ?];
      apply loaded_mk in H as (?&?&?&?&?&?&?&?&?&?&H);
      unfold info in H; simpl in H; subst g
  end.

Lemma Renew_loaded data now w :
  loaded (info w) ->
  Renew data now w
  = Some (tt, on_self (with_info (map_slots (renewed data now) (info w))) w).
Proof.
  intros H. by_loaded H. unfold Renew.
  do 9 (erewrite bind_Some by (apply Renew_family_eq; reflexivity)).
  erewrite Renew_family_eq by reflexivity. reflexivity.
Qed.

(** *** Renew and Update change nothing but what they say *)

Lemma only_info_refl w : only_info w w.
Proof. exists (info w). by rewrite on_self_info_id. Qed.

Lemma only_info_trans w1 w2 w3 : only_info w1 w2 -> only_info w2 w3 -> only_info w1 w3.
Proof. intros [g ->] [g' ->]. by exists g'. Qed.

Lemma preserves_receiver R f : (forall w, R w w) -> preserves R (receiver f).
Proof.
  intros HR w o w'. unfold receiver, bind, gets.
  destruct (slot f _); [|done]. intros [= _ <-]. apply HR.
Qed.

Lemma only_info_assign f o : preserves only_info (assign f o).
Proof. intros w [] w' [= <-]. by eexists. Qed.

Lemma only_info_Renew_family f data now : preserves only_info (Renew_family f data now).
Proof.
  unfold Renew_family. destruct (slot f data).
  - apply preserves_bind; [apply only_info_trans | |].
    + apply preserves_receiver, only_info_refl.
    + intros o'. apply only_info_assign.
  - apply preserves_ret, only_info_refl.
Qed.

Lemma only_info_Renew data now : preserves only_info (Renew data now).
Proof.
  unfold Renew.
  repeat (apply preserves_bind; [apply only_info_trans | | intros _]);
    apply only_info_Renew_family.
Qed.

(** *** Update, in a loaded engine *)

Lemma fetch_loaded w :
  loaded (info w) ->
  exists snap, snapshot_of (info w) = Some snap
               /\ fetch w = Some (tt, emitted (Send snap) w).
Proof. intros H. by_loaded H. eexists. split; reflexivity. Qed.

Lemma flag_any_present data :
  false
  || bool_decide (is_Some (slot Family.VIPs data))
  || bool_decide (is_Some (slot Family.VMs data))
  || bool_decide (is_Some (slot Family.VPCs data))
  || bool_decide (is_Some (slot Family.Hosts data))
  || bool_decide (is_Some (slot Family.Lldps data))
  || bool_decide (is_Some (slot Family.Ports data))
  || bool_decide (is_Some (slot Family.Networks data))
  || bool_decide (is_Some (slot Family.IPlastseens data))
  || bool_decide (is_Some (slot Family.Vinterfaces data))
  || bool_decide (is_Some (slot Family.Processes data))
  = any_present data.
Proof.
  unfold any_present, Family.all, existsb.
  by rewrite orb_false_r, !orb_assoc.
Qed.

Lemma any_present_true data :
  any_present data = true <-> exists f, is_Some (slot f data).
Proof.
  unfold any_present. rewrite existsb_exists. split.
  - intros (f & _ & Hf). exists f. by apply bool_decide_eq_true in Hf.
  - intros [f Hf]. exists f. split.
    + apply list_elem_of_In. unfold Family.all. destruct f; set_solver.
    + by apply bool_decide_eq_true.
Qed.

Ltac update_prefix :=
  unfold Update;
  do 10 (erewrite bind_Some by (apply Update_family_eq; reflexivity));
  rewrite flag_any_present.

(** No family present, or no agent: the flag is set, nothing else. *)
Lemma Update_quiet data vif now w :
  loaded (info w) ->
  any_present data && negb (vtapID vif =? 0)%Z = false ->
  Update data vif now w
  = Some (tt, on_self (with_dirty true) (families_updated data now w)).
Proof.
  intros H Hc. by_loaded H. update_prefix. rewrite Hc. reflexivity.
Qed.

(** A family present, an agent, and a session for its organisation. *)
Lemma Update_push_upsert data vif now w d :
  loaded (info w) ->
  any_present data && negb (vtapID vif =? 0)%Z = true ->
  MySQL.GetDB (mysql w) (orgID vif) = Some d ->
  exists snap,
    snapshot_of (map_slots (updated data now) (info w)) = Some snap /\
    Update data vif now w
    = Some (tt,
        on_self (with_dirty true)
          ((if MySQL.read_only d then id
            else on_mysql (MySQL.put_db (orgID vif)
                   (MySQL.with_genesis_storage d
                      (MySQL.upsert (GenesisStorage.mk (vtapID vif) (NODE_IP w))
                         (MySQL.genesis_storage d)))))
             (emitted (Create (orgID vif) (GenesisStorage.mk (vtapID vif) (NODE_IP w)))
                (emitted (Send snap) (families_updated data now w))))).
Proof.
  intros H Hc Hd. by_loaded H. update_prefix. rewrite Hc.
  eexists. split; [reflexivity|].
  unfold bind at 1. unfold bind at 1. simpl fetch.
  unfold bind at 1, GetDB, gets. simpl in Hd |- *. rewrite Hd.
  unfold Create_GenesisStorage, bind, gets, emit, modify. simpl.
  by destruct (MySQL.read_only d).
Qed.

(** A family present, an agent, and no session: the early return. *)
Lemma Update_push_no_session data vif now w :
  loaded (info w) ->
  any_present data && negb (vtapID vif =? 0)%Z = true ->
  MySQL.GetDB (mysql w) (orgID vif) = None ->
  exists snap,
    snapshot_of (map_slots (updated data now) (info w)) = Some snap /\
    Update data vif now w
    = Some (tt,
        emitted (Log Error "get mysql session failed" (Some (orgID vif)))
          (emitted (Send snap) (families_updated data now w))).
Proof.
  intros H Hc Hd. by_loaded H. update_prefix. rewrite Hc.
  eexists. split; [reflexivity|].
  unfold bind at 1. unfold bind at 1. simpl fetch.
  unfold bind at 1, GetDB, gets. simpl in Hd |- *. by rewrite Hd.
Qed.

(** *** Every method returns in a loaded engine *)

Lemma runs_receiver f : runs Loaded (receiver f).
Proof.
  intros w Hw. destruct (Hw f) as [o Ho]. exists o, w.
  split; [by apply receiver_eq | done].
Qed.

Lemma runs_assign f o : runs Loaded (assign f o).
Proof. apply runs_modify. intros w Hw. by apply loaded_set_slot. Qed.

Lemma runs_emit e : runs Loaded (emit e).
Proof. by apply runs_modify. Qed.

Lemma runs_set_dirty b : runs Loaded (set_dirty b).
Proof. by apply runs_modify. Qed.

Lemma runs_on_mysql h : runs Loaded (modify (on_mysql h)).
Proof. by apply runs_modify. Qed.

Ltac runs_step :=
  first
    [ apply runs_receiver
    | apply runs_bind; [|intros ?]
    | apply runs_ret | apply runs_gets | apply runs_assign
    | apply runs_emit | apply runs_set_dirty | apply runs_on_mysql
    | apply runs_orelse | apply runs_if | apply runs_match_option; [|intros ?]
    | apply runs_for_range; intros ? ].

Lemma runs_Age f now ttl : runs Loaded (Age f now ttl).
Proof. unfold Age. repeat runs_step. Qed.

Lemma runs_Save f : runs Loaded (Save f).
Proof. unfold Save. repeat runs_step. Qed.

Lemma runs_fetch : runs Loaded fetch.
Proof. unfold fetch. repeat runs_step. Qed.

Lemma runs_storeToDatabase : runs Loaded storeToDatabase.
Proof. unfold storeToDatabase. repeat (apply runs_bind; [|intros _]); apply runs_Save. Qed.

Lemma runs_run_tick now : runs Loaded (run_tick now).
Proof.
  unfold run_tick.
  repeat first [ apply runs_Age | apply runs_storeToDatabase | apply runs_fetch
               | runs_step ].
Qed.


(** *** The persistence loop leaves Hosts alone *)

Lemma hosts_kept_refl w : hosts_kept w w.
Proof. split; [done|]. exists []. split; [by rewrite app_nil_r | set_solver]. Qed.

Lemma hosts_kept_trans w1 w2 w3 : hosts_kept w1 w2 -> hosts_kept w2 w3 -> hosts_kept w1 w3.
Proof.
  intros [E1 (n1 & T1 & H1)] [E2 (n2 & T2 & H2)]. split; [congruence|].
  exists (n1 ++ n2). split; [by rewrite T2, T1, app_assoc|].
  intros snap [Hin|Hin]%elem_of_app; [auto|]. rewrite <- E1. auto.
Qed.

Lemma hosts_kept_quiet w w' :
  slot Family.Hosts (info w') = slot Family.Hosts (info w) ->
  (forall snap, exists new, trace w' = trace w ++ new /\ Send snap ∉ new) ->
  hosts_kept w w'.
Proof.
  intros E H. split; [done|].
  destruct (H (GenesisSyncData.mk [] [] [] [] [] [] [] [] [] [])) as (new & T & _).
  exists new. split; [done|]. intros snap Hin.
  destruct (H snap) as (new' & T' & Hnot). rewrite T in T'.
  apply app_inv_head in T'. by subst.
Qed.

Ltac hosts_step :=
  first
    [ apply preserves_receiver; apply hosts_kept_refl
    | apply preserves_bind; [apply hosts_kept_trans | | intros ?]
    | apply preserves_ret; apply hosts_kept_refl
    | apply preserves_gets; apply hosts_kept_refl
    | apply preserves_orelse; [apply hosts_kept_refl|]
    | apply preserves_if
    | apply preserves_match_option; [|intros ?] ].

Lemma hosts_kept_assign f o : f <> Family.Hosts -> preserves hosts_kept (assign f o).
Proof.
  intros Hne w [] w' [= <-]. apply hosts_kept_quiet.
  - exact (slot_set_slot_ne _ _ _ _ Hne).
  - intros snap. exists []. split; [by rewrite app_nil_r | set_solver].
Qed.

Lemma hosts_kept_set_dirty b : preserves hosts_kept (set_dirty b).
Proof.
  intros w [] w' [= <-]. apply hosts_kept_quiet; [done|].
  intros snap. exists []. split; [by rewrite app_nil_r | set_solver].
Qed.

Lemma hosts_kept_on_mysql h : preserves hosts_kept (modify (on_mysql h)).
Proof.
  intros w [] w' [= <-]. apply hosts_kept_quiet; [done|].
  intros snap. exists []. split; [by rewrite app_nil_r | set_solver].
Qed.

Lemma hosts_kept_emit e :
  (forall snap, e <> Send snap) -> preserves hosts_kept (emit e).
Proof.
  intros He w [] w' [= <-]. apply hosts_kept_quiet; [done|].
  intros snap. exists [e]. split; [done|].
  intros Hin%list_elem_of_singleton. by apply (He snap).
Qed.

Lemma hosts_kept_Age f now ttl :
  f <> Family.Hosts -> preserves hosts_kept (Age f now ttl).
Proof.
  intros Hne. unfold Age. repeat first [ by apply hosts_kept_assign | hosts_step ].
Qed.

Lemma hosts_kept_Save f : preserves hosts_kept (Save f).
Proof.
  unfold Save, GetDB.
  repeat first [ by apply hosts_kept_emit | apply hosts_kept_on_mysql | hosts_step ].
Qed.

Lemma hosts_kept_storeToDatabase : preserves hosts_kept storeToDatabase.
Proof.
  unfold storeToDatabase.
  repeat (apply preserves_bind; [apply hosts_kept_trans | | intros _]);
    apply hosts_kept_Save.
Qed.

Lemma fetch_inv w u w' :
  fetch w = Some (u, w') ->
  exists snap, snapshot_of (info w) = Some snap /\ w' = emitted (Send snap) w.
Proof.
  unfold fetch, receiver, bind, gets, snapshot_of, info.
  destruct w as [[c ctx cancel d [s1 s2 s3 s4 s5 s6 s7 s8 s9 s10]] my ip tr]. simpl.
  destruct s2, s3, s4, s5, s7, s6, s1, s8, s9, s10; simpl; try done.
  intros [= _ <-]. by eexists.
Qed.

Lemma hosts_kept_fetch : preserves hosts_kept fetch.
Proof.
  intros w u w' (snap & Hsnap & ->)%fetch_inv. split; [done|].
  exists [Send snap]. split; [done|].
  intros snap' [= <-]%list_elem_of_singleton.
  unfold snapshot_of in Hsnap. unfold info in *.
  destruct (genesisSyncInfo (self w)) as [s1 s2 s3 s4 s5 s6 s7 s8 s9 s10]. simpl in *.
  destruct s2, s3, s4, s5, s7, s6, s1, s8, s9, s10; simpl in *; try done.
  by injection Hsnap as <-.
Qed.

Lemma hosts_kept_run_tick now : preserves hosts_kept (run_tick now).
Proof.
  unfold run_tick.
  repeat first [ by apply hosts_kept_Age | apply hosts_kept_set_dirty
               | apply hosts_kept_storeToDatabase | apply hosts_kept_fetch
               | hosts_step ].
Qed.

(** *** No method reads the scope that Stop cancels *)

Ltac scope_blind :=
  let w := fresh "w" in
  intros w; destruct w as [[? ? [] ? ?] ? ? ?]; reflexivity.

Lemma commutes_receiver f : commutes (on_self Stop) (receiver f).
Proof.
  intros w. unfold receiver, bind, gets.
  replace (slot f (genesisSyncInfo (self (on_self Stop w))))
    with (slot f (genesisSyncInfo (self w))) by (revert w; scope_blind).
  by destruct (slot f _).
Qed.

Ltac commutes_step :=
  first
    [ apply commutes_receiver
    | apply commutes_bind; [|intros ?]
    | apply commutes_ret
    | apply commutes_gets; scope_blind
    | apply commutes_modify; scope_blind
    | apply commutes_orelse
    | apply commutes_if
    | apply commutes_match_option; [|intros ?]
    | apply commutes_for_range; intros ? ].

Lemma commutes_Renew data now : commutes (on_self Stop) (Renew data now).
Proof. unfold Renew, Renew_family, assign. repeat commutes_step. Qed.

Lemma commutes_fetch : commutes (on_self Stop) fetch.
Proof. unfold fetch, emit. repeat commutes_step. Qed.

Lemma commutes_Update data vif now : commutes (on_self Stop) (Update data vif now).
Proof.
  unfold Update, Update_family, Create_GenesisStorage, GetDB, assign, emit, set_dirty.
  repeat first [ apply commutes_fetch | commutes_step ].
Qed.

Lemma commutes_loadFromDatabase ageTime now :
  commutes (on_self Stop) (loadFromDatabase ageTime now).
Proof.
  unfold loadFromDatabase, load_family, Load, GetDB, assign.
  repeat first [ apply commutes_fetch | commutes_step ].
Qed.

Lemma commutes_storeToDatabase : commutes (on_self Stop) storeToDatabase.
Proof. unfold storeToDatabase, Save, GetDB, emit. repeat commutes_step. Qed.

Lemma commutes_run_tick now : commutes (on_self Stop) (run_tick now).
Proof.
  unfold run_tick, Age, assign, set_dirty.
  repeat first [ apply commutes_fetch | apply commutes_storeToDatabase | commutes_step ].
Qed.

Lemma commutes_refreshDatabase_tick : commutes (on_self Stop) refreshDatabase_tick.
Proof.
  unfold refreshDatabase_tick, refreshDatabase_org, GetDB, emit, set_dirty.
  repeat commutes_step.
Qed.

Lemma commutes_NewTicker d : commutes (on_self Stop) (NewTicker d).
Proof. intros w. unfold NewTicker. by case_bool_decide. Qed.

Lemma Stop_Stop s : Stop (Stop s) = Stop s.
Proof. by destruct s as [? ? [] ? ?]. Qed.

Lemma step_stopped p e : step (stopped p) e = stopped <$> step p e.
Proof.
  destruct p as [w rl dl].
  destruct e; unfold stopped, step; cbn [world run_live refreshDatabase_live].
  - rewrite commutes_exec by apply commutes_Renew. by destruct (exec _ w).
  - rewrite commutes_exec by apply commutes_Update. by destruct (exec _ w).
  - replace (cfg (self (on_self Stop w))) with (cfg (self w))
      by (revert w; scope_blind).
    rewrite commutes_exec
      by (apply commutes_bind; [apply commutes_NewTicker|intros _];
          apply commutes_loadFromDatabase).
    by destruct (exec _ w).
  - done.
  - destruct rl; [|done].
    rewrite commutes_exec by apply commutes_run_tick. by destruct (exec _ w).
  - destruct dl; [|done].
    rewrite commutes_refreshDatabase_tick. by destruct (refreshDatabase_tick w) as [[]|].
  - done.
Qed.

(** *** The loops end only where they return *)

Lemma step_run_live p e p' :
  step p e = Some p' ->
  run_live p' = match e with CallStart _ => true | _ => run_live p end.
Proof.
  destruct p as [w rl dl]. destruct e; unfold step; cbn [world run_live refreshDatabase_live].
  - destruct (exec _ w); simpl; [|done]. by intros [= <-].
  - destruct (exec _ w); simpl; [|done]. by intros [= <-].
  - destruct (exec _ w); simpl; [|done]. by intros [= <-].
  - by intros [= <-].
  - destruct rl; [|by intros [= <-]].
    destruct (exec _ w); simpl; [|done]. by intros [= <-].
  - destruct dl; [|by intros [= <-]].
    destruct (refreshDatabase_tick w); simpl; [|done]. by intros [= <-].
  - by intros [= <-].
Qed.

End SyncStorageFacts.

Module KubernetesStorageFacts.

Import KubernetesInfo KubernetesStorage KubernetesStorageSpec.

Lemma appended_nil w : appended [] w = w.
Proof. destruct w. unfold appended. simpl. by rewrite app_nil_r. Qed.

Lemma appended_appended es es' w : appended es' (appended es w) = appended (es ++ es') w.
Proof. unfold appended. simpl. by rewrite app_assoc. Qed.

Lemma emit_eq e w : emit e w = Some (tt, appended [e] w).
Proof. done. Qed.

Lemma for_range_emit {A} (h : A -> Effect) xs w :
  for_range xs (fun x => emit (h x)) w = Some (tt, appended (h <$> xs) w).
Proof.
  revert w. induction xs as [|x xs IH]; intros w; simpl.
  - by rewrite appended_nil.
  - rewrite (bind_Some _ _ _ _ _ (emit_eq _ _)), IH. by rewrite appended_appended.
Qed.

Lemma for_range_nested (l : list (Z * gmap string KubernetesInfo.t)) w :
  for_range l (fun k8sDatas =>
    for_range (map_to_list k8sDatas.2) (fun kData => emit (Send kData.2))) w
  = Some (tt, appended (Send <$> (l ≫= fun kv => (map_to_list kv.2).*2)) w).
Proof.
  revert w. induction l as [|kv l IH]; intros w; simpl.
  - by rewrite appended_nil.
  - rewrite (bind_Some _ _ _ _ _ (for_range_emit (fun kData => Send kData.2) _ _)).
    rewrite IH, appended_appended.
    by rewrite fmap_app, <- list_fmap_compose.
Qed.

Lemma fetch_eq w :
  fetch w = Some (tt, appended (Send <$> snapshot (kubernetesData (self w))) w).
Proof. unfold fetch, bind, gets. apply for_range_nested. Qed.

Lemma sends_app tr tr' : sends (tr ++ tr') = sends tr ++ sends tr'.
Proof. apply omap_app. Qed.

Lemma sends_Send l : sends (Send <$> l) = l.
Proof. induction l as [|x l IH]; [done|]. unfold sends in *. simpl. by f_equal. Qed.

Lemma length_snapshot data : length (snapshot data) = total_entries data.
Proof.
  unfold snapshot, total_entries.
  induction (map_to_list data) as [|kv l IH]; [done|].
  by rewrite bind_cons, !fmap_cons, length_app, length_fmap, length_map_to_list, IH.
Qed.

Lemma elem_of_snapshot data org kd cid kData :
  data !! org = Some kd -> kd !! cid = Some kData -> kData ∈ snapshot data.
Proof.
  intros Ho Hc. unfold snapshot. apply list_elem_of_bind.
  exists (org, kd). split; [|by apply elem_of_map_to_list].
  apply list_elem_of_fmap. exists (cid, kData). split; [done|].
  by apply elem_of_map_to_list.
Qed.

Lemma snapshot_stored data kData :
  kData ∈ snapshot data -> exists org cid, stored data org cid = Some kData.
Proof.
  unfold snapshot. intros ([org kd] & Hin & Ho)%list_elem_of_bind.
  apply list_elem_of_fmap in Hin as ([cid k] & -> & Hc).
  apply elem_of_map_to_list in Ho, Hc. exists org, cid.
  unfold stored. by rewrite Ho.
Qed.

Section Constants.

Variables (KUBERNETES CONTROLLER_STATE_EXCEPTION : Z).

Local Abbreviation triggerCloudRrefresh :=
  (triggerCloudRrefresh KUBERNETES CONTROLLER_STATE_EXCEPTION).
Local Abbreviation resolve := (resolve KUBERNETES).
Local Abbreviation Add := (Add KUBERNETES CONTROLLER_STATE_EXCEPTION).
Local Abbreviation step := (step KUBERNETES CONTROLLER_STATE_EXCEPTION).

(** *** The four ways out of the trigger *)

Lemma trigger_no_session org cid v w :
  MySQL.GetDB (mysql w) org = None ->
  triggerCloudRrefresh org cid v w
  = Some (Some ErrSession,
          appended [Log Error "get mysql session failed" (Some org)] w).
Proof.
  intros Hd. unfold KubernetesStorage.triggerCloudRrefresh, bind, gets.
  by rewrite Hd.
Qed.

Lemma trigger_unresolved org cid v w d err :
  MySQL.GetDB (mysql w) org = Some d ->
  resolve d cid (sub_domains_of d cid) = inl err ->
  triggerCloudRrefresh org cid v w = Some (Some err, w).
Proof.
  intros Hd Hr. unfold KubernetesStorage.triggerCloudRrefresh, bind, gets.
  rewrite Hd. unfold sub_domains_of in Hr. by rewrite Hr.
Qed.

Lemma trigger_no_controller org cid v w d controllerIP dl sl :
  MySQL.GetDB (mysql w) org = Some d ->
  resolve d cid (sub_domains_of d cid) = inr (controllerIP, dl, sl) ->
  MySQL.First (fun c => Controller.IP c = controllerIP
                        /\ Controller.State c <> CONTROLLER_STATE_EXCEPTION)
              (MySQL.controller d) = None ->
  triggerCloudRrefresh org cid v w = Some (Some ErrRecordNotFound, w).
Proof.
  intros Hd Hr Hc. unfold KubernetesStorage.triggerCloudRrefresh, bind, gets.
  rewrite Hd. unfold sub_domains_of in Hr. rewrite Hr. by rewrite Hc.
Qed.

Lemma trigger_request org cid v w d controllerIP dl sl controller :
  MySQL.GetDB (mysql w) org = Some d ->
  resolve d cid (sub_domains_of d cid) = inr (controllerIP, dl, sl) ->
  MySQL.First (fun c => Controller.IP c = controllerIP
                        /\ Controller.State c <> CONTROLLER_STATE_EXCEPTION)
              (MySQL.controller d) = Some controller ->
  triggerCloudRrefresh org cid v w
  = Some (ErrRequest <$> peer w,
          appended (refresh_request org (target (self w) controller controllerIP).1
                      (target (self w) controller controllerIP).2 dl sl v) w).
Proof.
  intros Hd Hr Hc. unfold KubernetesStorage.triggerCloudRrefresh, bind, gets.
  rewrite Hd. unfold sub_domains_of in Hr. rewrite Hr. rewrite Hc.
  unfold target, refresh_request, appended, RequestGet, bind, emit, modify, gets. simpl.
  destruct (decide (Controller.PodIP controller = ""%string)) as [E|E].
  - rewrite bool_decide_false by (intros HH; by apply HH).
    rewrite bool_decide_true by done.
    simpl. by rewrite <- app_assoc.
  - rewrite bool_decide_true by done. rewrite bool_decide_false by done.
    simpl. by rewrite <- app_assoc.
Qed.

(** The trigger always returns, sends nothing on the channel, and
    leaves the engine and the store as they are. *)
Lemma trigger_returns org cid v w :
  exists err new,
    triggerCloudRrefresh org cid v w = Some (err, appended new w)
    /\ sends new = []
    /\ (err = None -> new <> []).
Proof.
  destruct (MySQL.GetDB (mysql w) org) as [d|] eqn:Hd.
  - destruct (resolve d cid (sub_domains_of d cid)) as [err|[[cip dl] sl]] eqn:Hr.
    + exists (Some err), []. rewrite appended_nil.
      split; [by eapply trigger_unresolved|done].
    + destruct (MySQL.First (fun c => Controller.IP c = cip
                              /\ Controller.State c <> CONTROLLER_STATE_EXCEPTION)
                  (MySQL.controller d)) as [c|] eqn:Hc.
      * eexists _, _. split; [by eapply trigger_request|]. done.
      * exists (Some ErrRecordNotFound), []. rewrite appended_nil.
        split; [by eapply trigger_no_controller|done].
  - eexists _, _. split; [by apply trigger_no_session|]. done.
Qed.

(** *** Add and the aging tick *)

(** The mutation of [Add], then what follows it. *)
Lemma Add_eq org newInfo w :
  Add org newInfo w
  = (if unchanged org newInfo (kubernetesData (self w)) then ret tt
     else
       err <- triggerCloudRrefresh org (ClusterID newInfo) (Version newInfo) ;;
       match err with
       | Some _ =>
           emit (Log Warning "trigger cloud kubernetes refresh failed: (%s)" (Some org))
       | None => ret tt
       end)
      (appended (Send <$> snapshot (added org newInfo (kubernetesData (self w))))
         (on_self (with_data (added org newInfo (kubernetesData (self w)))) w)).
Proof.
  unfold KubernetesStorage.Add, unchanged, stored, added.
  unfold bind at 1. unfold gets at 1.
  destruct (kubernetesData (self w) !! org) as [kd|]; simpl;
    [destruct (kd !! ClusterID newInfo) as [oldInfo|]; simpl;
     [destruct (bool_decide (Version oldInfo = Version newInfo))|]|].
  all: erewrite bind_Some
         by (erewrite bind_Some by (unfold put, modify; reflexivity); reflexivity).
  all: by rewrite (bind_Some _ _ _ _ _ (fetch_eq _)).
Qed.

Lemma Add_returns org newInfo w :
  exists new,
    Add org newInfo w
    = Some (tt, appended ((Send <$> snapshot (added org newInfo (kubernetesData (self w))))
                          ++ new)
                  (on_self (with_data (added org newInfo (kubernetesData (self w)))) w))
    /\ sends new = []
    /\ (unchanged org newInfo (kubernetesData (self w)) = true -> new = [])
    /\ (unchanged org newInfo (kubernetesData (self w)) = false -> new <> []).
Proof.
  rewrite Add_eq.
  set (w1 := appended _ _).
  destruct (unchanged org newInfo (kubernetesData (self w))).
  - exists []. rewrite app_nil_r. done.
  - destruct (trigger_returns org (ClusterID newInfo) (Version newInfo) w1)
      as (err & new & E & Hs & Hn).
    rewrite (bind_Some _ _ _ _ _ E). destruct err as [e|].
    + eexists (new ++ [_]). rewrite emit_eq. unfold w1.
      rewrite !appended_appended. split; [done|].
      rewrite sends_app, Hs. split; [done|]. split; [done|].
      intros _. by destruct new.
    + exists new. unfold w1. rewrite appended_appended.
      split; [done|]. split; [done|]. split; [done|]. intros _. by apply Hn.
Qed.

Lemma run_tick_eq now w :
  run_tick now w
  = Some (tt,
      appended
        (Send <$> snapshot (aged now (GoTime.seconds (AgingTime (cfg (self w))))
                              (kubernetesData (self w))))
        (on_self (with_data (aged now (GoTime.seconds (AgingTime (cfg (self w))))
                               (kubernetesData (self w)))) w)).
Proof.
  unfold run_tick. unfold bind at 1. unfold modify at 1.
  by rewrite fetch_eq.
Qed.

(** *** The switch of the trigger *)

Lemma resolve_nil d cid :
  resolve d cid []
  = match MySQL.First (fun dom => Domain.ClusterID dom = cid
                                  /\ Domain.Type_ dom = KUBERNETES) (MySQL.domain d) with
    | Some domain =>
        inr (Domain.ControllerIP domain, Domain.Lcuuid domain, Domain.Lcuuid domain)
    | None => inl ErrRecordNotFound
    end.
Proof. unfold KubernetesStorage.resolve. by destruct (MySQL.First _ _). Qed.

Lemma resolve_one d cid subDomain :
  resolve d cid [subDomain]
  = match MySQL.First (fun dom => Domain.Lcuuid dom = SubDomain.Domain subDomain
                                  /\ Domain.Type_ dom = KUBERNETES) (MySQL.domain d) with
    | Some domain =>
        inr (Domain.ControllerIP domain, Domain.Lcuuid domain,
             SubDomain.Lcuuid subDomain)
    | None => inl ErrRecordNotFound
    end.
Proof. unfold KubernetesStorage.resolve. by destruct (MySQL.First _ _). Qed.

Lemma resolve_many d cid subDomains :
  (1 < length subDomains)%nat -> resolve d cid subDomains = inl (ErrNotUnique cid).
Proof. destruct subDomains as [|sd1 [|sd2 l]]; simpl; [lia | lia | done]. Qed.

(** *** No method reads the scope that Stop cancels *)

Ltac kscope_blind :=
  let w := fresh "w" in
  intros w; destruct w as [[? ? ? ? [] ?] ? ? ?]; reflexivity.

Ltac kcommutes_step :=
  first
    [ apply commutes_bind; [|intros ?]
    | apply commutes_ret
    | apply commutes_gets; kscope_blind
    | apply commutes_modify; kscope_blind
    | apply commutes_if
    | apply commutes_match_option; [|intros ?]
    | apply commutes_for_range; intros ? ].

Lemma commutes_kfetch : commutes (on_self Stop) fetch.
Proof. unfold fetch, emit. repeat kcommutes_step. Qed.

Lemma commutes_trigger org cid v :
  commutes (on_self Stop) (triggerCloudRrefresh org cid v).
Proof.
  unfold KubernetesStorage.triggerCloudRrefresh, RequestGet, emit.
  kcommutes_step; [kcommutes_step|]. kcommutes_step; [repeat kcommutes_step|].
  destruct (KubernetesStorage.resolve _ _ _ _) as [err|[[cip dl] sl]];
    [kcommutes_step|].
  kcommutes_step; [kcommutes_step|].
  intros w. unfold bind, gets, modify.
  destruct (bool_decide _); by destruct w as [[? ? ? ? [] ?] ? ? ?].
Qed.

Lemma commutes_Add org newInfo : commutes (on_self Stop) (Add org newInfo).
Proof.
  unfold KubernetesStorage.Add, put, emit.
  kcommutes_step; [kcommutes_step|].
  kcommutes_step.
  - repeat first [ kcommutes_step | destruct (bool_decide _) ].
  - kcommutes_step; [apply commutes_kfetch|].
    repeat first [ apply commutes_trigger | kcommutes_step ].
Qed.

Lemma commutes_aging_tick now : commutes (on_self Stop) (run_tick now).
Proof.
  unfold run_tick. kcommutes_step; [|apply commutes_kfetch].
  apply commutes_modify. kscope_blind.
Qed.

Lemma kstep_stopped p e : step (stopped p) e = stopped <$> step p e.
Proof.
  destruct p as [w rl].
  destruct e; unfold stopped, KubernetesStorage.step; cbn [world run_live].
  - rewrite commutes_exec by apply commutes_Add. by destruct (exec _ w).
  - by destruct w as [[? ? ? ? [] ?] ? ? ?].
  - done.
  - by destruct w as [[? ? ? ? [] ?] ? ? ?].
  - destruct rl; [|done].
    rewrite commutes_exec by apply commutes_aging_tick. by destruct (exec _ w).
  - done.
Qed.

End Constants.

End KubernetesStorageFacts.

(** * Renew and Update *)

Section RenewUpdate.

Import GenesisSyncDataOperation SyncStorage SyncStorageSpec SyncStorageFacts.

(** C7. Renew, whatever families its argument holds: whenever it
    returns, the dirty flag, the trace of effects (channel sends and
    database writes) and the store are as before; and in a loaded
    engine it returns, leaving in every slot what the family's Renew
    makes of the slot with the records of the argument and [now], and
    the slot itself where the argument has no such family. *)
Theorem Renew_only_forwards (w : World) (data : GenesisSyncDataOperation.t) (now : Z) :
  (forall w', exec (Renew data now) w = Some w' ->
     dirty (self w') = dirty (self w) /\ trace w' = trace w /\ mysql w' = mysql w)
  /\ (Loaded w ->
      exists w', exec (Renew data now) w = Some w' /\
        forall f, slot f (info w')
                  = (fun o => match slot f data with
                              | Some d => Op.Renew o (Op.Fetch d) now
                              | None => o
                              end) <$> slot f (info w)).
Proof.
  split.
  - intros w' [[] Hrun]%exec_inv.
    by destruct (only_info_Renew data now _ _ _ Hrun) as [g ->].
  - intros Hw. eexists. split.
    + apply (exec_Some _ _ tt), Renew_loaded, Hw.
    + intros f. unfold info at 1. simpl. by rewrite slot_map_slots.
Qed.

Lemma Loaded_sync_world vips vms hosts m :
  Loaded (Examples.sync_world (Examples.aggregate vips vms hosts) m).
Proof. intros f. destruct f; simpl; eauto. Defined.

(** A heartbeat for a VM that is not stored: the VMs stay empty, nothing
    is sent, nothing is written. *)
Lemma Renew_only_forwards_witness :
  Loaded Examples.idle /\
  exists w', exec (Renew (Examples.only_VMs [Examples.vm_a]) 200) Examples.idle = Some w'
    /\ (dirty (self w') = false /\ trace w' = [] /\ mysql w' = Examples.store)
    /\ (Op.Fetch <$> slot Family.VMs (info w')) = Some [].
Proof.
  split; [apply Loaded_sync_world|].
  destruct (Renew_only_forwards Examples.idle (Examples.only_VMs [Examples.vm_a]) 200)
    as [Hframe Hrun].
  destruct (Hrun (Loaded_sync_world [] [] [] Examples.store)) as (w' & Hw' & Hslots).
  exists w'. split; [done|]. split; [exact (Hframe w' Hw')|].
  rewrite (Hslots Family.VMs). vm_compute. reflexivity.
Defined.

(** C2, amended. Update sets the dirty flag on every call that reaches
    its last statement, whether or not a family is present: in a loaded
    engine, when no family is present, or the agent id is zero, or the
    session of the organisation is obtained, Update returns with the
    flag set. *)
Theorem Update_sets_dirty (w : World) (data : GenesisSyncDataOperation.t)
    (vif : VIFRPCMessage) (now : Z) :
  Loaded w ->
  (any_present data && negb (vtapID vif =? 0)%Z = true ->
   is_Some (MySQL.GetDB (mysql w) (orgID vif))) ->
  exists w', exec (Update data vif now) w = Some w' /\ dirty (self w') = true.
Proof.
  intros Hw Hdb.
  destruct (any_present data && negb (vtapID vif =? 0)%Z) eqn:Hc.
  - destruct (Hdb eq_refl) as [d Hd].
    destruct (Update_push_upsert data vif now w d Hw Hc Hd) as (snap & _ & E).
    eexists. split; [by apply (exec_Some _ _ tt)|]. done.
  - eexists. split; [apply (exec_Some _ _ tt); by apply Update_quiet|]. done.
Qed.

Lemma Update_sets_dirty_witness :
  Loaded Examples.idle /\
  (any_present (Examples.only_VMs [Examples.vm_a]) && negb (7 =? 0)%Z = true ->
   is_Some (MySQL.GetDB Examples.store 1)) /\
  exists w', exec (Update (Examples.only_VMs [Examples.vm_a]) (mkVIF 1 7) 200)
               Examples.idle = Some w'
             /\ dirty (self w') = true.
Proof.
  split; [apply Loaded_sync_world|]. split; [intros _; vm_compute; eauto|].
  apply (Update_sets_dirty Examples.idle (Examples.only_VMs [Examples.vm_a]) (mkVIF 1 7) 200).
  - apply Loaded_sync_world.
  - intros _. vm_compute. eauto.
Defined.

(** C2 as stated fails: a call of Update without any family, in an
    engine that is not dirty, leaves the engine dirty. *)
Lemma Update_without_family_sets_dirty :
  any_present zero = false /\
  dirty (self Examples.idle) = false /\
  exists w', exec (Update zero (mkVIF 1 7) 200) Examples.idle = Some w'
             /\ dirty (self w') = true.
Proof.
  split; [reflexivity|]. split; [reflexivity|].
  eexists. split; [vm_compute; reflexivity|]. reflexivity.
Qed.

(** C8, amended. Update in a loaded engine returns, every slot updated
    by its family's Update where the argument has the family.  If a
    family is present and the agent id is not zero, exactly one snapshot
    of the ten families as updated is pushed;
    then, if the session of the organisation is obtained, the upsert of
    [(vtap_id, node_ip)] is issued for that organisation (and, unless
    the session refuses writes, the row with this [vtap_id] takes the
    node ip or the row is inserted), and if the session is not obtained
    the failure is logged and Update returns without upsert.  If no
    family is present or the agent id is zero, nothing is pushed and
    nothing is written. *)
Theorem Update_pushes_then_upserts (w : World) (data : GenesisSyncDataOperation.t)
    (vif : VIFRPCMessage) (now : Z) :
  Loaded w ->
  exists w' snap,
    exec (Update data vif now) w = Some w'
    /\ info w' = map_slots (updated data now) (info w)
    /\ snapshot_of (info w') = Some snap
    /\ let row := GenesisStorage.mk (vtapID vif) (NODE_IP w) in
       if any_present data && negb (vtapID vif =? 0)%Z then
         match MySQL.GetDB (mysql w) (orgID vif) with
         | Some d =>
             trace w' = trace w ++ [Send snap; Create (orgID vif) row]
             /\ mysql w'
                = (if MySQL.read_only d then mysql w
                   else MySQL.put_db (orgID vif)
                          (MySQL.with_genesis_storage d
                             (MySQL.upsert row (MySQL.genesis_storage d))) (mysql w))
         | None =>
             trace w' = trace w ++ [Send snap;
                                    Log Error "get mysql session failed" (Some (orgID vif))]
             /\ mysql w' = mysql w
         end
       else trace w' = trace w /\ mysql w' = mysql w.
Proof.
  intros Hw.
  destruct (fetch_loaded (families_updated data now w)) as (snap & Hsnap & _).
  { by apply loaded_map_slots. }
  destruct (any_present data && negb (vtapID vif =? 0)%Z) eqn:Hc.
  - destruct (MySQL.GetDB (mysql w) (orgID vif)) as [d|] eqn:Hd.
    + destruct (Update_push_upsert data vif now w d Hw Hc Hd) as (snap' & Hsnap' & E).
      eexists _, snap'. split; [by apply (exec_Some _ _ tt)|].
      destruct (MySQL.read_only d); simpl; by rewrite <- app_assoc.
    + destruct (Update_push_no_session data vif now w Hw Hc Hd) as (snap' & Hsnap' & E).
      eexists _, snap'. split; [by apply (exec_Some _ _ tt)|].
      simpl. by rewrite <- app_assoc.
  - eexists _, snap. split; [apply (exec_Some _ _ tt); by apply Update_quiet|]. done.
Qed.

(** Scenario 1: two VMs from agent 7 of organisation 1. *)
Lemma Update_pushes_then_upserts_witness :
  Loaded Examples.idle /\
  exists w' snap,
    exec (Update (Examples.only_VMs [Examples.vm_a; Examples.vm_b]) (mkVIF 1 7) 200)
      Examples.idle = Some w'
    /\ length (GenesisSyncData.VMs snap) = 2%nat
    /\ trace w' = [Send snap; Create 1 (GenesisStorage.mk 7 "N")].
Proof.
  split; [apply Loaded_sync_world|].
  destruct (Update_pushes_then_upserts Examples.idle
              (Examples.only_VMs [Examples.vm_a; Examples.vm_b]) (mkVIF 1 7) 200
              (Loaded_sync_world [] [] [] Examples.store))
    as (w' & snap & Hrun & Hinfo & Hsnap & Htrace).
  exists w', snap. split; [done|].
  rewrite Hinfo in Hsnap. vm_compute in Hsnap. injection Hsnap as <-.
  split; [reflexivity|]. exact (proj1 Htrace).
Defined.

(** C8 as stated fails: a family is present and the agent id is 7, but
    organisation 5 has no session; the snapshot is pushed and no upsert
    follows. *)
Lemma Update_pushes_without_upsert :
  any_present (Examples.only_VMs [Examples.vm_a]) && negb (7 =? 0)%Z = true /\
  exists w' snap,
    exec (Update (Examples.only_VMs [Examples.vm_a]) (mkVIF 5 7) 200) Examples.idle
    = Some w'
    /\ trace w' = [Send snap; Log Error "get mysql session failed" (Some 5)]
    /\ mysql w' = mysql Examples.idle.
Proof.
  split; [reflexivity|].
  eexists _, _. split; [vm_compute; reflexivity|]. split; reflexivity.
Qed.

End RenewUpdate.

(** * The loops of SyncStorage *)

Section SyncLoops.

Import GenesisSyncDataOperation SyncStorage SyncStorageSpec SyncStorageFacts.

Lemma Age_eq f now ttl w o :
  slot f (info w) = Some o ->
  Age f now ttl w
  = Some ((Op.Age o now ttl).2,
          on_self (with_info (set_slot f (Some (Op.Age o now ttl).1) (info w))) w).
Proof.
  intros Ho. unfold Age. by rewrite (bind_Some _ _ _ _ _ (receiver_eq _ _ _ Ho)).
Qed.

Lemma same_info_refl w : same_info w w.
Proof. done. Qed.

Lemma same_info_trans w1 w2 w3 : same_info w1 w2 -> same_info w2 w3 -> same_info w1 w3.
Proof. unfold same_info. congruence. Qed.

Lemma same_info_modify h :
  (forall w, info (h w) = info w) -> preserves same_info (modify h).
Proof. intros Hh w [] w' [= <-]. apply Hh. Qed.

Ltac same_info_step :=
  first
    [ apply preserves_receiver; apply same_info_refl
    | apply preserves_bind; [apply same_info_trans | | intros ?]
    | apply preserves_ret; apply same_info_refl
    | apply preserves_gets; apply same_info_refl
    | apply same_info_modify; intros ?; reflexivity
    | apply preserves_if
    | apply preserves_match_option; [|intros ?] ].

Lemma same_info_tail : preserves same_info (set_dirty false ;; storeToDatabase ;; fetch).
Proof.
  unfold storeToDatabase, Save, fetch, GetDB, set_dirty, emit.
  repeat same_info_step.
Qed.

Lemma runs_tail : runs Loaded (set_dirty false ;; storeToDatabase ;; fetch).
Proof.
  apply runs_bind; [apply runs_set_dirty|intros _].
  apply runs_bind; [apply runs_storeToDatabase|intros _]. apply runs_fetch.
Qed.

(** Once the VIPs have reported a change, the tick ages no other
    family: every other slot is after the tick what it was before. *)
Lemma run_tick_after_VIPs_change now w vips :
  Loaded w ->
  slot Family.VIPs (info w) = Some vips ->
  (Op.Age vips now (GoTime.seconds (AgingTime (cfg (self w))))).2 = true ->
  exists w', exec (run_tick now) w = Some w'
             /\ forall f, f <> Family.VIPs -> slot f (info w') = slot f (info w).
Proof.
  intros Hw Hv Hch.
  set (ttl := GoTime.seconds (AgingTime (cfg (self w)))) in *.
  set (w1 := on_self (with_info (set_slot Family.VIPs (Some (Op.Age vips now ttl).1)
                                   (info w))) w).
  assert (run_tick now w = (set_dirty false ;; storeToDatabase ;; fetch) w1) as E.
  { unfold run_tick. unfold bind at 1, gets at 1. fold ttl. unfold orelse at 1.
    rewrite (bind_Some _ _ _ _ _ (Age_eq _ now ttl _ _ Hv)), Hch. reflexivity. }
  destruct (runs_tail w1) as ([] & w' & E' & _).
  { by apply loaded_set_slot. }
  exists w'. split; [apply (exec_Some _ _ tt); by rewrite E|].
  intros f Hf. rewrite (same_info_tail _ _ _ E').
  unfold w1, info at 1. simpl. by apply slot_set_slot_ne.
Qed.

(** C1, at an input where the code departs from it.  A VIP and a VM
    were both last seen at 100 s; the aging time is 60 s; the tick runs
    at 161 s.  The VIP is removed; the VM, 61 s old, is still stored
    after the tick. *)
Theorem run_tick_skips_VMs :
  exists w' vips vms,
    exec (run_tick (161 * Examples.sec)) Examples.seen_at_100 = Some w'
    /\ slot Family.VIPs (info w') = Some vips
    /\ Op.dataDict vips !! "vip-a"%string = None
    /\ slot Family.VMs (info w') = Some vms
    /\ Op.dataDict vms !! "vm-a"%string = Some Examples.vm_a
    /\ ~ Op.fresh (161 * Examples.sec) (GoTime.seconds 60) Examples.vm_a.
Proof.
  eexists _, _, _. split; [vm_compute; reflexivity|].
  split; [reflexivity|]. split; [reflexivity|]. split; [reflexivity|].
  split; [reflexivity|]. vm_compute. by intros H.
Qed.

Lemma steps_run_keeps_Hosts nows p p' :
  steps p (WakeRun <$> nows) = Some p' ->
  slot Family.Hosts (info (world p')) = slot Family.Hosts (info (world p)).
Proof.
  revert p. induction nows as [|now nows IH]; intros p.
  - by intros [= <-].
  - rewrite fmap_cons. cbn [steps step].
    destruct (run_live p) eqn:Hlive.
    + destruct (exec (run_tick now) (world p)) as [w1|] eqn:E; [|done].
      intros H. etrans; [apply (IH _ H)|]. cbn [world].
      apply exec_inv in E as [[] E]. by apply (hosts_kept_run_tick now) in E as [? _].
    + apply IH.
Qed.

(** C9. The tick of the persistence loop, whenever it returns, leaves
    the Hosts slot as it was, whatever the age of its records (and in a
    loaded engine it returns); so does any number of ticks.  Every
    snapshot a tick sends carries the records of the Hosts slot, and so
    does the snapshot of every [fetch], which is the only place that
    sends. *)
Theorem Hosts_kept_and_sent (w : World) (now : Z) :
  (forall w', exec (run_tick now) w = Some w' ->
     slot Family.Hosts (info w') = slot Family.Hosts (info w)
     /\ exists new, trace w' = trace w ++ new
          /\ forall snap, Send snap ∈ new ->
               Some (GenesisSyncData.Hosts snap)
               = Op.Fetch <$> slot Family.Hosts (info w'))
  /\ (Loaded w -> is_Some (exec (run_tick now) w))
  /\ (forall p nows p', steps p (WakeRun <$> nows) = Some p' ->
        slot Family.Hosts (info (world p')) = slot Family.Hosts (info (world p)))
  /\ (forall w', exec fetch w = Some w' ->
        exists snap, trace w' = trace w ++ [Send snap]
          /\ self w' = self w
          /\ Some (GenesisSyncData.Hosts snap)
             = Op.Fetch <$> slot Family.Hosts (info w)).
Proof.
  split; [|split; [|split]].
  - intros w' [[] Hrun]%exec_inv.
    destruct (hosts_kept_run_tick now _ _ _ Hrun) as [E (new & T & H)].
    split; [done|]. exists new. split; [done|]. intros snap Hin. rewrite E. auto.
  - intros Hw. by apply runs_exec with (I := Loaded); [apply runs_run_tick|].
  - intros p nows p'. apply steps_run_keeps_Hosts.
  - intros w' [[] Hrun]%exec_inv.
    destruct (hosts_kept_fetch _ _ _ Hrun) as [_ (new & T & H)].
    apply fetch_inv in Hrun as (snap & _ & ->).
    exists snap. split; [done|]. split; [done|].
    apply H. simpl in T. apply app_inv_head in T as <-. set_solver.
Qed.

(** A host last seen at 100 s is still stored after the tick at
    1000000 s, which sends a snapshot with it. *)
Lemma Hosts_kept_and_sent_witness :
  Loaded Examples.seen_at_100 /\
  exists w', exec (run_tick (1000000 * Examples.sec)) Examples.seen_at_100 = Some w'
    /\ (Op.Fetch <$> slot Family.Hosts (info w')) = Some [Examples.host_a]
    /\ exists snap, Send snap ∈ trace w'
                    /\ GenesisSyncData.Hosts snap = [Examples.host_a].
Proof.
  split; [apply Loaded_sync_world|].
  destruct (Hosts_kept_and_sent Examples.seen_at_100 (1000000 * Examples.sec))
    as (Hkept & Hruns & _ & _).
  destruct (Hruns (Loaded_sync_world _ _ _ _)) as [w' Hw'].
  exists w'. split; [done|].
  destruct (Hkept w' Hw') as [E _]. rewrite E.
  split; [vm_compute; reflexivity|].
  vm_compute in Hw'. injection Hw' as <-.
  eexists. split;
    [apply list_elem_of_In; cbn [trace In]; repeat first [ left; reflexivity | right ]
    |reflexivity].
Defined.

End SyncLoops.

(** * KubernetesStorage *)

Section Kubernetes.

Import KubernetesInfo KubernetesStorage KubernetesStorageSpec KubernetesStorageFacts.

Variables (KUBERNETES CONTROLLER_STATE_EXCEPTION : Z).

Local Abbreviation Add := (Add KUBERNETES CONTROLLER_STATE_EXCEPTION).
Local Abbreviation triggerCloudRrefresh :=
  (triggerCloudRrefresh KUBERNETES CONTROLLER_STATE_EXCEPTION).

Lemma stored_insert data org kd cid kData org' cid' :
  data !! org = Some kd ->
  stored (<[org := <[cid := kData]> kd]> data) org' cid'
  = if decide ((org, cid) = (org', cid')) then Some kData else stored data org' cid'.
Proof.
  intros Hkd. unfold stored.
  destruct (decide (org = org')) as [<-|Ho].
  - rewrite lookup_insert_eq, Hkd. simpl.
    destruct (decide (cid = cid')) as [<-|Hc].
    + rewrite lookup_insert_eq. by rewrite decide_True.
    + rewrite lookup_insert_ne by done. rewrite decide_False by congruence. done.
  - rewrite lookup_insert_ne by done. by rewrite decide_False by congruence.
Qed.

(** C3. The store holds an entry for (orgID, ClusterID) with the
    version of the report.  Add returns; the stored entry has the Epoch
    and ErrorMSG of the report and the Entries, Version, ORGID and
    ClusterID it had; every other entry is as before; the store of the
    database is as before; and the trace grows by the channel sends of
    the fetch alone: no log line and no HTTP request, so the refresh
    trigger, which leaves one or the other, was not invoked. *)
Theorem Add_same_version (w : World) (org : Z) (newInfo oldInfo : KubernetesInfo.t)
    (kd : gmap string KubernetesInfo.t) :
  kubernetesData (self w) !! org = Some kd ->
  kd !! ClusterID newInfo = Some oldInfo ->
  Version oldInfo = Version newInfo ->
  exists w' kept,
    exec (Add org newInfo) w = Some w'
    /\ stored (kubernetesData (self w')) org (ClusterID newInfo) = Some kept
    /\ Epoch kept = Epoch newInfo /\ ErrorMSG kept = ErrorMSG newInfo
    /\ Entries kept = Entries oldInfo /\ Version kept = Version oldInfo
    /\ ORGID kept = ORGID oldInfo /\ ClusterID kept = ClusterID oldInfo
    /\ (forall org' cid', (org, ClusterID newInfo) <> (org', cid') ->
          stored (kubernetesData (self w')) org' cid'
          = stored (kubernetesData (self w)) org' cid')
    /\ trace w' = trace w ++ (Send <$> snapshot (kubernetesData (self w')))
    /\ mysql w' = mysql w.
Proof.
  intros Hkd Hold Hv.
  assert (unchanged org newInfo (kubernetesData (self w)) = true) as Hu.
  { unfold unchanged, stored. rewrite Hkd. simpl. rewrite Hold.
    by apply bool_decide_eq_true. }
  assert (added org newInfo (kubernetesData (self w))
          = <[org := <[ClusterID newInfo := refreshed oldInfo newInfo]> kd]>
              (kubernetesData (self w))) as Ha.
  { unfold added. rewrite Hkd, Hold. by rewrite bool_decide_true. }
  exists (appended (Send <$> snapshot (added org newInfo (kubernetesData (self w))))
            (on_self (with_data (added org newInfo (kubernetesData (self w)))) w)),
    (refreshed oldInfo newInfo).
  split; [apply (exec_Some _ _ tt); by rewrite Add_eq, Hu|].
  simpl. rewrite Ha. split.
  { rewrite (stored_insert _ _ _ _ _ _ _ Hkd). by rewrite decide_True. }
  do 6 (split; [done|]). split; [|done].
  intros org' cid' Hne. rewrite (stored_insert _ _ _ _ _ _ _ Hkd).
  by rewrite decide_False.
Qed.

(** C10. Add and the aging tick always return, and the records they
    send on the channel are the whole store as it is after the mutation:
    the sends of the trace grow by the snapshot of the store, which has
    one message for every stored (orgID, clusterID) entry, so as many
    messages as there are entries, whichever record changed. *)
Theorem fetch_rebroadcasts_the_store (w : World) :
  (forall org newInfo,
     exists w', exec (Add org newInfo) w = Some w'
       /\ kubernetesData (self w') = added org newInfo (kubernetesData (self w))
       /\ sends (trace w') = sends (trace w) ++ snapshot (kubernetesData (self w'))
       /\ length (sends (trace w'))
          = (length (sends (trace w)) + total_entries (kubernetesData (self w')))%nat)
  /\ (forall now,
     exists w', exec (run_tick now) w = Some w'
       /\ kubernetesData (self w')
          = aged now (GoTime.seconds (AgingTime (cfg (self w)))) (kubernetesData (self w))
       /\ sends (trace w') = sends (trace w) ++ snapshot (kubernetesData (self w'))
       /\ length (sends (trace w'))
          = (length (sends (trace w)) + total_entries (kubernetesData (self w')))%nat)
  /\ (forall data,
       length (snapshot data) = total_entries data
       /\ (forall org kd cid kData,
             data !! org = Some kd -> kd !! cid = Some kData -> kData ∈ snapshot data)
       /\ (forall kData, kData ∈ snapshot data ->
             exists org cid, stored data org cid = Some kData)).
Proof.
  split; [|split].
  - intros org newInfo.
    destruct (Add_returns KUBERNETES CONTROLLER_STATE_EXCEPTION org newInfo w)
      as (new & E & Hs & _).
    eexists. split; [by apply (exec_Some _ _ tt)|]. split; [done|].
    simpl. rewrite !sends_app, sends_Send, Hs, app_nil_r.
    split; [done|]. by rewrite length_app, length_snapshot.
  - intros now. eexists. split; [apply (exec_Some _ _ tt), run_tick_eq|].
    split; [done|]. simpl. rewrite sends_app, sends_Send.
    split; [done|]. by rewrite length_app, length_snapshot.
  - intros data. split; [apply length_snapshot|]. split.
    + apply elem_of_snapshot.
    + apply snapshot_stored.
Qed.

(** C6. With a session [d] for the organisation, and [subDomains] the
    rows of [sub_domain] with the cluster id:
    - without such a row, the trigger takes the first KUBERNETES domain
      with this cluster id and sends the request with both lcuuid
      parameters set to the lcuuid of the domain;
    - with one row, it takes the first KUBERNETES domain whose lcuuid is
      the row's domain, and sends the domain's lcuuid and the row's
      lcuuid;
    - with more rows, it returns the not-unique error and the world is
      untouched: no request is issued;
    - the request goes to the controller found for the domain's
      controller IP: to its pod IP and the listen port when the pod IP
      is not empty, else to the controller IP and the node port. *)
Theorem triggerCloudRrefresh_target (w : World) (org : Z) (clusterID : string)
    (version : Z) (d : MySQL.DB) :
  MySQL.GetDB (mysql w) org = Some d ->
  let controller_of (controllerIP : string) :=
    MySQL.First (fun c => Controller.IP c = controllerIP
                          /\ Controller.State c <> CONTROLLER_STATE_EXCEPTION)
      (MySQL.controller d) in
  (sub_domains_of d clusterID = [] ->
   forall domain controller,
     MySQL.First (fun dom => Domain.ClusterID dom = clusterID
                             /\ Domain.Type_ dom = KUBERNETES) (MySQL.domain d)
     = Some domain ->
     controller_of (Domain.ControllerIP domain) = Some controller ->
     triggerCloudRrefresh org clusterID version w
     = Some (ErrRequest <$> peer w,
             appended
               (refresh_request org
                  (target (self w) controller (Domain.ControllerIP domain)).1
                  (target (self w) controller (Domain.ControllerIP domain)).2
                  (Domain.Lcuuid domain) (Domain.Lcuuid domain) version) w))
  /\ (forall subDomain, sub_domains_of d clusterID = [subDomain] ->
      forall domain controller,
        MySQL.First (fun dom => Domain.Lcuuid dom = SubDomain.Domain subDomain
                                /\ Domain.Type_ dom = KUBERNETES) (MySQL.domain d)
        = Some domain ->
        controller_of (Domain.ControllerIP domain) = Some controller ->
        triggerCloudRrefresh org clusterID version w
        = Some (ErrRequest <$> peer w,
                appended
                  (refresh_request org
                     (target (self w) controller (Domain.ControllerIP domain)).1
                     (target (self w) controller (Domain.ControllerIP domain)).2
                     (Domain.Lcuuid domain) (SubDomain.Lcuuid subDomain) version) w))
  /\ ((1 < length (sub_domains_of d clusterID))%nat ->
      triggerCloudRrefresh org clusterID version w
      = Some (Some (ErrNotUnique clusterID), w))
  /\ (forall controller controllerIP,
        (Controller.PodIP controller <> ""%string ->
         target (self w) controller controllerIP
         = (Controller.PodIP controller, listenPort (self w)))
        /\ (Controller.PodIP controller = ""%string ->
            target (self w) controller controllerIP
            = (controllerIP, listenNodePort (self w)))).
Proof.
  intros Hd controller_of. split; [|split; [|split]].
  - intros Hnil domain controller Hdom Hc.
    eapply trigger_request; [done| |done].
    by rewrite Hnil, resolve_nil, Hdom.
  - intros subDomain Hone domain controller Hdom Hc.
    eapply trigger_request; [done| |done].
    by rewrite Hone, resolve_one, Hdom.
  - intros Hmany. eapply trigger_unresolved; [done|]. by apply resolve_many.
  - intros controller controllerIP. unfold target. split; intros Hp.
    + by rewrite bool_decide_false.
    + by rewrite bool_decide_true.
Qed.

End Kubernetes.

(** Scenario 4: cluster ["c1"] is stored with version 5 and a report of
    version 5 arrives. *)
Lemma Add_same_version_witness :
  KubernetesStorage.kubernetesData (KubernetesStorage.self Examples.one_cluster) !! 1
  = Some (<["c1"%string := Examples.c1_v5]> ∅)
  /\ (<["c1"%string := Examples.c1_v5]> ∅ : gmap string KubernetesInfo.t)
       !! KubernetesInfo.ClusterID Examples.c1_v5_again = Some Examples.c1_v5
  /\ KubernetesInfo.Version Examples.c1_v5 = KubernetesInfo.Version Examples.c1_v5_again
  /\ exists w' kept,
       exec (KubernetesStorage.Add Examples.KUBERNETES Examples.CONTROLLER_STATE_EXCEPTION
               1 Examples.c1_v5_again) Examples.one_cluster = Some w'
       /\ KubernetesStorageSpec.stored
            (KubernetesStorage.kubernetesData (KubernetesStorage.self w')) 1 "c1" = Some kept
       /\ KubernetesInfo.Epoch kept = 130 * Examples.sec
       /\ KubernetesInfo.ErrorMSG kept = "x"%string
       /\ KubernetesInfo.Entries kept = ["entry"%string]
       /\ KubernetesInfo.Version kept = 5
       /\ KubernetesStorage.trace w' = [KubernetesStorage.Send kept].
Proof.
  split; [reflexivity|]. split; [reflexivity|]. split; [reflexivity|].
  destruct (Add_same_version Examples.KUBERNETES Examples.CONTROLLER_STATE_EXCEPTION
              Examples.one_cluster 1 Examples.c1_v5_again Examples.c1_v5
              (<["c1"%string := Examples.c1_v5]> ∅) eq_refl eq_refl eq_refl)
    as (w' & kept & Hrun & Hkept & He & Hm & Hen & Hv & _ & _ & _ & Ht & _).
  exists w', kept. split; [done|]. split; [done|].
  do 4 (split; [done|]).
  vm_compute in Hrun. injection Hrun as <-.
  vm_compute in Hkept. injection Hkept as <-. reflexivity.
Defined.

(** Cluster ["c1"] has one sub-domain row: the request goes to the pod of
    the controller of its domain, with the lcuuids of the domain and of
    the sub-domain. *)
Lemma triggerCloudRrefresh_target_witness :
  MySQL.GetDB (KubernetesStorage.mysql Examples.one_cluster) 1 = Some Examples.org1_k8s
  /\ KubernetesStorageSpec.sub_domains_of Examples.org1_k8s "c1"
     = [SubDomain.mk "sd-1" "d-1" "c1"]
  /\ KubernetesStorage.triggerCloudRrefresh Examples.KUBERNETES
       Examples.CONTROLLER_STATE_EXCEPTION 1 "c1" 6 Examples.one_cluster
     = Some (None,
             KubernetesStorageSpec.appended
               (KubernetesStorageSpec.refresh_request 1 "172.16.0.9" 20417 "d-1" "sd-1" 6)
               Examples.one_cluster).
Proof.
  split; [reflexivity|]. split; [reflexivity|].
  destruct (triggerCloudRrefresh_target Examples.KUBERNETES
              Examples.CONTROLLER_STATE_EXCEPTION Examples.one_cluster 1 "c1" 6
              Examples.org1_k8s eq_refl) as (_ & Hone & _ & _).
  exact (Hone (SubDomain.mk "sd-1" "d-1" "c1") eq_refl
           (Domain.mk "d-1" "" Examples.KUBERNETES "10.1.1.1")
           (Controller.mk "10.1.1.1" "172.16.0.9" 2) eq_refl eq_refl).
Defined.

(** * Stop and the loops *)

Section Lifecycle.

Variables (KUBERNETES CONTROLLER_STATE_EXCEPTION : Z).

(** C4, amended. Stop cancels the scope of the engine and does nothing
    else; no loop reads the scope.  For both engines: the step of Stop
    gives the stopped process; in it the scope is cancelled wherever the
    cancel function is set, as the constructor sets it, while the
    configuration, the cancel function, the stored data, the dirty
    flag, the store and the trace are what they were; the goroutines
    that were alive are alive; and every later event (a wake-up of the
    persistence loop, a tick of the reconciler, a wake-up of the aging
    loop, a call) does in the stopped process exactly what it does in
    the process that was not stopped. *)
Theorem Stop_cancels_only_the_scope :
  (forall p,
     let s := SyncStorage.self (SyncStorage.world p) in
     let s' := SyncStorage.self (SyncStorage.world (SyncStorageSpec.stopped p)) in
     SyncStorage.step p SyncStorage.CallStop = Some (SyncStorageSpec.stopped p)
     /\ SyncStorage.vCtx s' = SyncStorage.vCancel s || SyncStorage.vCtx s
     /\ SyncStorage.cfg s' = SyncStorage.cfg s
     /\ SyncStorage.vCancel s' = SyncStorage.vCancel s
     /\ SyncStorage.dirty s' = SyncStorage.dirty s
     /\ SyncStorage.genesisSyncInfo s' = SyncStorage.genesisSyncInfo s
     /\ SyncStorage.mysql (SyncStorage.world (SyncStorageSpec.stopped p))
        = SyncStorage.mysql (SyncStorage.world p)
     /\ SyncStorage.NODE_IP (SyncStorage.world (SyncStorageSpec.stopped p))
        = SyncStorage.NODE_IP (SyncStorage.world p)
     /\ SyncStorage.trace (SyncStorage.world (SyncStorageSpec.stopped p))
        = SyncStorage.trace (SyncStorage.world p)
     /\ SyncStorage.run_live (SyncStorageSpec.stopped p) = SyncStorage.run_live p
     /\ SyncStorage.refreshDatabase_live (SyncStorageSpec.stopped p)
        = SyncStorage.refreshDatabase_live p
     /\ forall e, SyncStorage.step (SyncStorageSpec.stopped p) e
                  = SyncStorageSpec.stopped <$> SyncStorage.step p e)
  /\ (forall p,
     let k := KubernetesStorage.self (KubernetesStorage.world p) in
     let k' := KubernetesStorage.self
                 (KubernetesStorage.world (KubernetesStorageSpec.stopped p)) in
     KubernetesStorage.step KUBERNETES CONTROLLER_STATE_EXCEPTION p
       KubernetesStorage.CallStop = Some (KubernetesStorageSpec.stopped p)
     /\ KubernetesStorage.kCtx k' = KubernetesStorage.kCancel k || KubernetesStorage.kCtx k
     /\ KubernetesStorage.listenPort k' = KubernetesStorage.listenPort k
     /\ KubernetesStorage.listenNodePort k' = KubernetesStorage.listenNodePort k
     /\ KubernetesStorage.cfg k' = KubernetesStorage.cfg k
     /\ KubernetesStorage.kCancel k' = KubernetesStorage.kCancel k
     /\ KubernetesStorage.kubernetesData k' = KubernetesStorage.kubernetesData k
     /\ KubernetesStorage.mysql (KubernetesStorage.world (KubernetesStorageSpec.stopped p))
        = KubernetesStorage.mysql (KubernetesStorage.world p)
     /\ KubernetesStorage.peer (KubernetesStorage.world (KubernetesStorageSpec.stopped p))
        = KubernetesStorage.peer (KubernetesStorage.world p)
     /\ KubernetesStorage.trace (KubernetesStorage.world (KubernetesStorageSpec.stopped p))
        = KubernetesStorage.trace (KubernetesStorage.world p)
     /\ KubernetesStorage.run_live (KubernetesStorageSpec.stopped p)
        = KubernetesStorage.run_live p
     /\ forall e,
          KubernetesStorage.step KUBERNETES CONTROLLER_STATE_EXCEPTION
            (KubernetesStorageSpec.stopped p) e
          = KubernetesStorageSpec.stopped
              <$> KubernetesStorage.step KUBERNETES CONTROLLER_STATE_EXCEPTION p e)
  /\ (forall c ctx,
        SyncStorage.vCtx (SyncStorage.Stop (SyncStorage.NewSyncStorage c ctx)) = true)
  /\ (forall port nPort c ctx,
        KubernetesStorage.kCtx
          (KubernetesStorage.Stop (KubernetesStorage.NewKubernetesStorage port nPort c ctx))
        = true).
Proof.
  split; [|split; [|split]].
  - intros [[[c ctx [] d g] m ip tr] rl dl]; cbn zeta;
      (split; [reflexivity|]); (do 10 (split; [reflexivity|]));
      apply SyncStorageFacts.step_stopped.
  - intros [[[lp lnp c ctx [] data] m pr tr] rl]; cbn zeta;
      (split; [reflexivity|]); (do 10 (split; [reflexivity|]));
      apply KubernetesStorageFacts.kstep_stopped.
  - reflexivity.
  - reflexivity.
Qed.

End Lifecycle.

(** C4 as stated fails.  SyncStorage: a VIP last seen at 100 s, aging time
    60 s; Stop is called, the persistence loop wakes at 161 s and the
    ticker of the reconciler fires.  Both goroutines are still alive, the
    VIP was aged and the reconciler deleted the row of agent 99: both
    ticks ran after Stop.  KubernetesStorage: the cluster reported at
    100 s is deleted by the aging tick at 161 s, after Stop. *)
Lemma loops_tick_after_Stop :
  (exists p' vips,
     SyncStorage.steps (Examples.sync_running Examples.seen_at_100)
       [SyncStorage.CallStop; SyncStorage.WakeRun (161 * Examples.sec); SyncStorage.Tick]
     = Some p'
     /\ SyncStorage.vCtx (SyncStorage.self (SyncStorage.world p')) = true
     /\ SyncStorage.run_live p' = true
     /\ SyncStorage.refreshDatabase_live p' = true
     /\ GenesisSyncDataOperation.VIPs
          (SyncStorage.genesisSyncInfo (SyncStorage.self (SyncStorage.world p')))
        = Some vips
     /\ Op.dataDict vips = ∅
     /\ last (SyncStorage.trace (SyncStorage.world p'))
        = Some (SyncStorage.Log Info
                  "node (%s) clean genesis storage invalid data success" (Some 1)))
  /\ (exists p',
     KubernetesStorage.steps Examples.KUBERNETES Examples.CONTROLLER_STATE_EXCEPTION
       (KubernetesStorage.mkProcess Examples.one_cluster true)
       [KubernetesStorage.CallStop; KubernetesStorage.WakeRun (161 * Examples.sec)]
     = Some p'
     /\ KubernetesStorage.kCtx (KubernetesStorage.self (KubernetesStorage.world p')) = true
     /\ KubernetesStorage.run_live p' = true
     /\ KubernetesStorageSpec.stored
          (KubernetesStorage.kubernetesData (KubernetesStorage.self Examples.one_cluster))
          1 "c1" = Some Examples.c1_v5
     /\ KubernetesStorageSpec.stored
          (KubernetesStorage.kubernetesData
             (KubernetesStorage.self (KubernetesStorage.world p'))) 1 "c1" = None).
Proof.
  split.
  - eexists _, _. split; [vm_compute; reflexivity|].
    repeat split; reflexivity.
  - eexists. split; [vm_compute; reflexivity|].
    repeat split; reflexivity.
Qed.

(** C5, at an input where the code departs from it.  The enumeration of
    organisations fails at one tick of the reconciler: the error is
    logged and [refreshDatabase] returns.  The store recovers and the
    ticker fires again: nothing runs any more, the row of the unknown
    agent 99 stays, the engine is not marked dirty. *)
Theorem refreshDatabase_returns_on_GetORGIDs_error :
  exists p',
    SyncStorage.steps
      (Examples.sync_running
         (Examples.sync_world (Examples.aggregate [] [] []) Examples.store_down))
      [SyncStorage.Tick; SyncStorage.Outside Examples.store; SyncStorage.Tick]
    = Some p'
    /\ SyncStorage.refreshDatabase_live p' = false
    /\ SyncStorage.trace (SyncStorage.world p')
       = [SyncStorage.Log Error "get org ids failed" None]
    /\ SyncStorage.dirty (SyncStorage.self (SyncStorage.world p')) = false
    /\ MySQL.genesis_storage <$> MySQL.GetDB (SyncStorage.mysql (SyncStorage.world p')) 1
       = Some [GenesisStorage.mk 1 "N"; GenesisStorage.mk 2 "N"; GenesisStorage.mk 99 "N"].
Proof.
  eexists. split; [vm_compute; reflexivity|]. repeat split; reflexivity.
Qed.

(** The sibling path: a failing session of organisation 5 is logged and
    the loop goes on with organisation 1, whose stale row it deletes; the
    goroutine stays alive and the engine is marked dirty. *)
Lemma refreshDatabase_continues_on_GetDB_error :
  exists p',
    SyncStorage.steps
      (Examples.sync_running
         (Examples.sync_world (Examples.aggregate [] [] []) Examples.store_two))
      [SyncStorage.Tick]
    = Some p'
    /\ SyncStorage.refreshDatabase_live p' = true
    /\ SyncStorage.trace (SyncStorage.world p')
       = [SyncStorage.Log Error "get mysql session failed" (Some 5);
          SyncStorage.Delete 1 [GenesisStorage.mk 99 "N"];
          SyncStorage.Log Info "node (%s) clean genesis storage invalid data success"
            (Some 1)]
    /\ SyncStorage.dirty (SyncStorage.self (SyncStorage.world p')) = true
    /\ MySQL.genesis_storage <$> MySQL.GetDB (SyncStorage.mysql (SyncStorage.world p')) 1
       = Some [GenesisStorage.mk 1 "N"; GenesisStorage.mk 2 "N"].
Proof.
  eexists. split; [vm_compute; reflexivity|]. repeat split; reflexivity.
Qed.

(** Whatever the engine, a failing enumeration ends the reconciler, and a
    reconciler that has returned does nothing at later ticks. *)
Lemma refreshDatabase_ends (p : SyncStorage.Process) :
  (SyncStorage.refreshDatabase_live p = true ->
   MySQL.GetORGIDs (SyncStorage.mysql (SyncStorage.world p)) = None ->
   exists p', SyncStorage.step p SyncStorage.Tick = Some p'
              /\ SyncStorage.refreshDatabase_live p' = false
              /\ SyncStorage.self (SyncStorage.world p') = SyncStorage.self (SyncStorage.world p))
  /\ (SyncStorage.refreshDatabase_live p = false ->
      SyncStorage.step p SyncStorage.Tick = Some p).
Proof.
  split.
  - intros Hlive Hdown. unfold SyncStorage.step. rewrite Hlive.
    unfold SyncStorage.refreshDatabase_tick, bind, gets. rewrite Hdown. simpl.
    eexists. split; [reflexivity|]. done.
  - intros Hdead. unfold SyncStorage.step. by rewrite Hdead.
Qed.

(** The same on the loop itself: however many ticks are still to come,
    [refreshDatabase] is over after the tick of the failing
    enumeration. *)
Lemma refreshDatabase_returns (ticks : nat) (w : SyncStorage.World) :
  MySQL.GetORGIDs (SyncStorage.mysql w) = None ->
  SyncStorage.refreshDatabase (S ticks) w
  = Some (tt, SyncStorageSpec.emitted (SyncStorage.Log Error "get org ids failed" None) w).
Proof.
  intros Hdown. cbn [SyncStorage.refreshDatabase].
  unfold SyncStorage.refreshDatabase_tick, bind, gets. by rewrite Hdown.
Qed.

(** [run] leaves Hosts as the load installed it, whatever the
    wake-ups. *)
Lemma run_keeps_Hosts (wakes : list Z) :
  preserves SyncStorageSpec.hosts_kept (for_range wakes SyncStorage.run_tick).
Proof.
  apply preserves_for_range.
  - apply SyncStorageFacts.hosts_kept_refl.
  - apply SyncStorageFacts.hosts_kept_trans.
  - apply SyncStorageFacts.hosts_kept_run_tick.
Qed.

(** * Loops over lists *)

(** A loop over a list, by an invariant on the elements done. *)
Lemma for_range_inv {S A} (I : list A -> S -> Prop) (xs : list A) (body : A -> M S unit)
    (s s' : S) :
  I [] s ->
  (forall done x rest s1 s2,
     xs = done ++ x :: rest -> I done s1 -> body x s1 = Some (tt, s2) ->
     I (done ++ [x]) s2) ->
  for_range xs body s = Some (tt, s') ->
  I xs s'.
Proof.
  intros H0 Hstep.
  assert (forall rest done s1, xs = done ++ rest -> I done s1 ->
            for_range rest body s1 = Some (tt, s') -> I xs s') as Hgen.
  { induction rest as [|x rest IH]; intros done s1 Hxs Hd Hrun.
    - injection Hrun as <-. by rewrite Hxs, app_nil_r.
    - simpl in Hrun. apply bind_inv in Hrun as ([] & s2 & Hb & Hrest).
      apply (IH (done ++ [x]) s2); [by rewrite <- app_assoc| |done].
      by eapply Hstep. }
  by apply (Hgen xs [] s).
Qed.

(** The same loop returns when every body returns under an invariant it
    keeps. *)
Lemma for_range_runs {S A} (J : S -> Prop) (xs : list A) (body : A -> M S unit) (s : S) :
  J s ->
  (forall x s1, x ∈ xs -> J s1 -> exists s2, body x s1 = Some (tt, s2) /\ J s2) ->
  exists s', for_range xs body s = Some (tt, s') /\ J s'.
Proof.
  revert s. induction xs as [|x xs IH]; intros s Hs Hstep; simpl.
  - by exists s.
  - destruct (Hstep x s) as (s2 & Hb & H2); [set_solver|done|].
    destruct (IH s2 H2) as (s' & Hr & H'); [intros; apply Hstep; set_solver|].
    exists s'. split; [|done]. by rewrite (bind_Some _ _ _ _ _ Hb).
Qed.

(** * The tag description catalog *)

Section Catalog.

Import Description DescriptionSpec.

Lemma must_eq {S A} (o : option A) (s : S) : must o s = (fun a => (a, s)) <$> o.
Proof. by destruct o. Qed.

Lemma field_eq tag i g : field tag i g = (fun a => (a, g)) <$> string_at tag i.
Proof.
  unfold field, string_at, bind. rewrite must_eq.
  destruct (tag !! i) as [v|]; simpl; [|done]. by rewrite must_eq.
Qed.

Lemma load_tag_eq db table tag g :
  is_Some (descriptions g db table) ->
  load_tag db table tag g = (fun d => (tt, add_rows db table [d] g)) <$> parse_tag tag.
Proof.
  intros [old Hold]. unfold descriptions in Hold.
  destruct (TAG_DESCRIPTIONS g !! db) as [tables|] eqn:Hdb; [|done]. simpl in Hold.
  unfold load_tag, parse_tag, bind.
  do 8 (rewrite field_eq;
        match goal with |- context [string_at tag ?i] =>
          destruct (string_at tag i); simpl; [|done] end).
  unfold gets. rewrite Hdb. simpl. unfold modify, add_rows. do 3 f_equal.
  apply map_eq. intros k. destruct (decide (k = db)) as [->|Hne].
  - rewrite lookup_insert_eq, lookup_alter_eq, Hdb. simpl. f_equal.
    apply map_eq. intros t. destruct (decide (t = table)) as [->|Hnt].
    + by rewrite lookup_insert_eq, lookup_alter_eq, Hold.
    + by rewrite lookup_insert_ne, lookup_alter_ne.
  - by rewrite lookup_insert_ne, lookup_alter_ne.
Qed.

Lemma descriptions_add_rows db table ds g db' table' :
  descriptions (add_rows db table ds g) db' table'
  = if decide ((db', table') = (db, table))
    then (fun old => old ++ ds) <$> descriptions g db' table'
    else descriptions g db' table'.
Proof.
  unfold descriptions, add_rows. simpl.
  destruct (decide (db' = db)) as [->|Hdb].
  - rewrite lookup_alter_eq. destruct (TAG_DESCRIPTIONS g !! db) as [tables|]; simpl.
    + destruct (decide (table' = table)) as [->|Ht].
      * rewrite decide_True by done. by rewrite lookup_alter_eq.
      * rewrite decide_False by congruence. by rewrite lookup_alter_ne.
    + by destruct (decide _).
  - rewrite lookup_alter_ne by done. by rewrite decide_False by congruence.
Qed.

Lemma add_rows_nil db table g : add_rows db table [] g = g.
Proof.
  destruct g as [d e]. unfold add_rows. simpl. f_equal.
  apply alter_id. intros tables _. apply alter_id. intros old _. apply app_nil_r.
Qed.

Lemma add_rows_add_rows db table ds ds' g :
  add_rows db table ds' (add_rows db table ds g) = add_rows db table (ds ++ ds') g.
Proof.
  destruct g as [d e]. unfold add_rows. simpl. f_equal.
  rewrite alter_alter_eq. apply alter_ext. intros tables _. simpl.
  rewrite alter_alter_eq. apply alter_ext. intros old _. simpl.
  by rewrite app_assoc.
Qed.

(** The loop over the rows of a table. *)
Lemma load_rows_eq db table rows g :
  is_Some (descriptions g db table) ->
  for_range rows (load_tag db table) g
  = (fun ds => (tt, add_rows db table ds g)) <$> mapM parse_tag rows.
Proof.
  revert g. induction rows as [|tag rows IH]; intros g Hg; simpl.
  - by rewrite add_rows_nil.
  - unfold bind at 1. rewrite load_tag_eq by done.
    destruct (parse_tag tag) as [d|]; simpl; [|done].
    rewrite IH.
    + destruct (mapM parse_tag rows) as [ds|]; simpl; [|done].
      by rewrite add_rows_add_rows.
    + rewrite descriptions_add_rows, decide_True by done.
      destruct Hg as [old ->]. simpl. eauto.
Qed.

Lemma mapM_omap {A B} (f : A -> option B) l k : mapM f l = Some k -> omap f l = k.
Proof.
  intros H%mapM_Some_1. induction H as [|x y l k Hx _ IH]; [done|].
  cbn [omap list_omap]. rewrite Hx. by f_equal.
Qed.

Lemma load_table_eq db tableData table g :
  is_Some (descriptions g db table) ->
  load_table db tableData table g
  = (fun ds => (tt, add_rows db table ds g)) <$> table_rows tableData table.
Proof.
  intros Hg. unfold load_table, table_rows, bind. rewrite must_eq.
  destruct (as_obj tableData) as [m|]; simpl; [|done].
  destruct (m !! table) as [tv|]; simpl.
  - rewrite must_eq. destruct (as_rows tv) as [rows|]; simpl; [|done].
    by apply load_rows_eq.
  - by rewrite add_rows_nil.
Qed.

Lemma table_rows_Some tagData db tableData table ds :
  tagData !! db = Some tableData ->
  table_rows tableData table = Some ds ->
  table_ok tagData db table /\ ds = omap parse_tag (rows_of tagData db table).
Proof.
  intros Hdb. unfold table_rows, table_ok, rows_of. rewrite Hdb.
  destruct tableData as [| | |m| |]; simpl; try done.
  destruct (m !! table) as [tv|] eqn:Hm; simpl.
  - destruct tv as [| | | | |rows]; simpl; try done. intros Hrows. split.
    + intros v [= <-]. exists m. split; [done|]. intros tv. rewrite Hm. intros [= <-].
      exists rows. split; [done|]. apply mapM_is_Some_1. eauto.
    + symmetry. by apply mapM_omap.
  - intros [= <-]. split; [|done].
    intros v [= <-]. exists m. split; [done|]. intros tv. by rewrite Hm.
Qed.

Lemma table_rows_ok tagData db tableData table :
  tagData !! db = Some tableData ->
  table_ok tagData db table ->
  is_Some (table_rows tableData table).
Proof.
  intros Hdb Hok. destruct (Hok _ Hdb) as (m & -> & Hm).
  unfold table_rows. simpl. destruct (m !! table) as [tv|]; [|by eauto].
  destruct (Hm tv eq_refl) as (rows & -> & Hrows). simpl.
  by apply mapM_is_Some_2.
Qed.

Lemma rows_of_None tagData db table : tagData !! db = None -> rows_of tagData db table = [].
Proof. unfold rows_of. by intros ->. Qed.

Lemma grown_refl g : grown g g (fun _ _ => []).
Proof.
  split; [|done]. intros db table. destruct (descriptions g db table); simpl; [|done].
  by rewrite app_nil_r.
Qed.

Lemma grown_ext g0 g ex ex' :
  (forall db table, is_Some (descriptions g0 db table) -> ex db table = ex' db table) ->
  grown g0 g ex -> grown g0 g ex'.
Proof.
  intros Hex [Hd He]. split; [|done]. intros db table. rewrite Hd.
  destruct (descriptions g0 db table) eqn:E; simpl; [|done].
  rewrite Hex; [done|]. rewrite E. eauto.
Qed.

Lemma grown_add_rows g0 g ex db table ds :
  grown g0 g ex ->
  grown g0 (add_rows db table ds g)
    (fun db' table' => if decide ((db', table') = (db, table))
                       then ex db' table' ++ ds else ex db' table').
Proof.
  intros [Hd He]. split; [|done]. intros db' table'.
  rewrite descriptions_add_rows, Hd.
  destruct (decide _); [|done].
  destruct (descriptions g0 db' table'); simpl; [|done]. by rewrite app_assoc.
Qed.

Lemma grown_is_Some g0 g ex db table :
  grown g0 g ex -> is_Some (descriptions g db table) <-> is_Some (descriptions g0 db table).
Proof. intros [Hd _]. rewrite Hd. by rewrite fmap_is_Some. Qed.

Lemma elem_of_fst_map_to_list {A} (m : gmap string A) k :
  k ∈ (map_to_list m).*1 <-> is_Some (m !! k).
Proof.
  rewrite list_elem_of_fmap. split.
  - intros ([k' v] & -> & Hin). apply elem_of_map_to_list in Hin. simpl. eauto.
  - intros [v Hv]. exists (k, v). split; [done|]. by apply elem_of_map_to_list.
Qed.

(** The loop over the tables of one database. *)
Lemma load_db_inv tagData db tableData (tables : gmap string (list TagDescription.t))
    g0 g g' ex :
  tagData !! db = Some tableData ->
  grown g0 g ex ->
  (forall table, ex db table = []) ->
  (forall table, is_Some (tables !! table) -> is_Some (descriptions g0 db table)) ->
  for_range (map_to_list tables) (fun table_tags => load_table db tableData table_tags.1) g
  = Some (tt, g') ->
  grown g0 g'
    (fun db' table' => if decide (db' = db /\ is_Some (tables !! table'))
                       then new_rows tagData db table' else ex db' table')
  /\ (forall table, is_Some (tables !! table) -> table_ok tagData db table).
Proof.
  intros Hdata Hg Hex Hreg Hrun.
  pose (I := fun (done : list (string * list TagDescription.t)) gc =>
    grown g0 gc (fun db' table' => if decide (db' = db /\ table' ∈ done.*1)
                                   then new_rows tagData db table' else ex db' table')
    /\ forall table, table ∈ done.*1 -> table_ok tagData db table).
  assert (I (map_to_list tables) g') as [HI1 HI2].
  { eapply (for_range_inv I); [| |exact Hrun].
    - split; [|by intros table Hin; apply elem_of_nil in Hin].
      eapply grown_ext; [|exact Hg].
      intros db' table' _. rewrite decide_False; [done|].
      intros [_ Hin]. by apply elem_of_nil in Hin.
    - intros done [table tags] rest g1 g2 Hxs [H1 H2] Hbody. simpl in Hbody.
      assert (table ∉ done.*1) as Hfresh.
      { pose proof (NoDup_fst_map_to_list tables) as Hnd.
        rewrite Hxs, fmap_app, fmap_cons in Hnd.
        apply NoDup_app in Hnd as (_ & Hnd & _). intros Hin.
        apply (Hnd _ Hin). apply list_elem_of_here. }
      assert (is_Some (descriptions g1 db table)) as Hsome.
      { apply (grown_is_Some _ _ _ _ _ H1), Hreg, elem_of_fst_map_to_list.
        rewrite Hxs, fmap_app, fmap_cons. apply elem_of_app. right.
        apply list_elem_of_here. }
      rewrite load_table_eq in Hbody by done.
      destruct (table_rows tableData table) as [ds|] eqn:Hds; [|done].
      injection Hbody as <-.
      destruct (table_rows_Some _ _ _ _ _ Hdata Hds) as [Hok ->].
      split.
      + eapply grown_ext; [|by apply grown_add_rows].
        intros db' table' _. simpl. rewrite fmap_app. simpl.
        destruct (decide ((db', table') = (db, table))) as [[= -> ->]|Hne].
        * rewrite decide_False by (intros [_ ?]; done).
          rewrite decide_True
            by (split; [done|]; apply elem_of_app; right; apply list_elem_of_here).
          by rewrite Hex.
        * destruct (decide (db' = db /\ table' ∈ done.*1)) as [[-> Hin]|Hn].
          -- rewrite decide_True by (split; [done|]; apply elem_of_app; by left). done.
          -- rewrite decide_False; [done|]. intros [-> Hin].
             apply elem_of_app in Hin as [Hin|Hin]; [by apply Hn|].
             apply list_elem_of_singleton in Hin. congruence.
      + intros table'. rewrite fmap_app. simpl.
        intros [Hin|Hin%list_elem_of_singleton]%elem_of_app; [by apply H2|by subst]. }
  split.
  - eapply grown_ext; [|exact HI1]. intros db' table' _. simpl.
    destruct (decide (db' = db /\ table' ∈ (map_to_list tables).*1)) as [[-> Hin]|Hn].
    + rewrite decide_True; [done|]. split; [done|]. by apply elem_of_fst_map_to_list.
    + rewrite decide_False; [done|]. intros [-> Hin]. apply Hn. split; [done|].
      by apply elem_of_fst_map_to_list.
  - intros table Ht. by apply HI2, elem_of_fst_map_to_list.
Qed.

Lemma load_databases_inv tagData g0 g' :
  load_databases tagData (TAG_DESCRIPTIONS g0) g0 = Some (tt, g') ->
  grown g0 g' (new_rows tagData)
  /\ (forall db table, is_Some (descriptions g0 db table) -> table_ok tagData db table).
Proof.
  intros Hrun.
  pose (I := fun (done : list (string * gmap string (list TagDescription.t))) gc =>
    grown g0 gc (fun db' table' => if decide (db' ∈ done.*1)
                                   then new_rows tagData db' table' else [])
    /\ forall db', db' ∈ done.*1 -> forall table,
         is_Some (descriptions g0 db' table) -> table_ok tagData db' table).
  assert (I (map_to_list (TAG_DESCRIPTIONS g0)) g') as [HI1 HI2].
  { eapply (for_range_inv I); [| |exact Hrun].
    - split; [|by intros db' Hin; apply elem_of_nil in Hin].
      eapply grown_ext; [|apply grown_refl].
      intros db' table' _. rewrite decide_False; [done|]. apply not_elem_of_nil.
    - intros done [db tables] rest g1 g2 Hxs [H1 H2] Hbody. simpl in Hbody.
      assert (db ∉ done.*1) as Hfresh.
      { pose proof (NoDup_fst_map_to_list (TAG_DESCRIPTIONS g0)) as Hnd.
        rewrite Hxs, fmap_app, fmap_cons in Hnd.
        apply NoDup_app in Hnd as (_ & Hnd & _). intros Hin.
        apply (Hnd _ Hin). apply list_elem_of_here. }
      assert (TAG_DESCRIPTIONS g0 !! db = Some tables) as Hdb.
      { apply elem_of_map_to_list. rewrite Hxs. apply elem_of_app. right.
        apply list_elem_of_here. }
      assert (forall table, is_Some (descriptions g0 db table) <-> is_Some (tables !! table))
        as Hreg.
      { intros table. unfold descriptions. by rewrite Hdb. }
      unfold I. rewrite fmap_app. cbn [fmap list_fmap fst].
      destruct (tagData !! db) as [tableData|] eqn:Hdata.
      + destruct (load_db_inv tagData db tableData tables g0 g1 g2 _ Hdata H1)
          as [Hg Hok]; [|by intros table; apply Hreg|exact Hbody|].
        { intros table. by rewrite decide_False. }
        split.
        * eapply grown_ext; [|exact Hg]. intros db' table' Hsome. simpl.
          destruct (decide (db' = db)) as [->|Hne].
          -- rewrite decide_True by (split; [done|]; by apply Hreg).
             rewrite decide_True; [done|]. apply elem_of_app. right.
             apply list_elem_of_here.
          -- rewrite decide_False by (by intros [? _]).
             destruct (decide (db' ∈ done.*1)) as [Hin|Hn].
             ++ rewrite decide_True; [done|]. apply elem_of_app. by left.
             ++ rewrite decide_False; [done|].
                intros [?|?%list_elem_of_singleton]%elem_of_app; done.
        * intros db' [Hin|Hin%list_elem_of_singleton]%elem_of_app table Hsome.
          -- by apply H2.
          -- subst. by apply Hok, Hreg.
      + injection Hbody as <-. split.
        * eapply grown_ext; [|exact H1]. intros db' table' _. simpl.
          destruct (decide (db' = db)) as [->|Hne].
          -- rewrite decide_False by done.
             rewrite decide_True
               by (apply elem_of_app; right; apply list_elem_of_here).
             unfold new_rows. by rewrite rows_of_None.
          -- destruct (decide (db' ∈ done.*1)) as [Hin|Hn].
             ++ rewrite decide_True; [done|]. apply elem_of_app. by left.
             ++ rewrite decide_False; [done|].
                intros [?|?%list_elem_of_singleton]%elem_of_app; done.
        * intros db' [Hin|Hin%list_elem_of_singleton]%elem_of_app table Hsome.
          -- by apply H2.
          -- subst. intros v Hv. congruence. }
  split.
  - eapply grown_ext; [|exact HI1]. intros db table [old Hold]. simpl.
    rewrite decide_True; [done|]. apply elem_of_fst_map_to_list.
    unfold descriptions in Hold. destruct (TAG_DESCRIPTIONS g0 !! db); [eauto|done].
  - intros db table Hsome. apply HI2; [|done]. apply elem_of_fst_map_to_list.
    destruct Hsome as [old Hold]. unfold descriptions in Hold.
    destruct (TAG_DESCRIPTIONS g0 !! db); [eauto|done].
Qed.

(** *** Enums *)

Lemma load_enums_eq rows acc g :
  load_enums rows acc g = (fun es => (acc ++ es, g)) <$> mapM parse_enum rows.
Proof.
  revert acc. induction rows as [|row rows IH]; intros acc; simpl.
  - by rewrite app_nil_r.
  - unfold bind, parse_enum. rewrite must_eq.
    destruct (row !! 0%nat) as [v0|]; simpl; [|done]. rewrite must_eq.
    destruct (row !! 1%nat) as [v1|]; simpl; [|done]. rewrite IH.
    destruct (mapM _ rows) as [es|]; simpl; [|done]. by rewrite <- app_assoc.
Qed.

Lemma load_tag_enum_eq tag ev g :
  (rows <- must (as_rows ev) ;;
   tagEnums <- load_enums rows [] ;;
   modify (fun g => {| TAG_DESCRIPTIONS := TAG_DESCRIPTIONS g;
                       TAG_ENUMS := <[tag := tagEnums]> (TAG_ENUMS g) |})) g
  = (fun es => (tt, set_enums tag es g)) <$> (as_rows ev ≫= mapM parse_enum).
Proof.
  unfold bind. rewrite must_eq. destruct (as_rows ev) as [rows|]; simpl; [|done].
  rewrite load_enums_eq. by destruct (mapM _ rows).
Qed.

Lemma load_tag_enums_inv (m : gmap string any) g1 g' :
  load_tag_enums m g1 = Some (tt, g') ->
  TAG_DESCRIPTIONS g' = TAG_DESCRIPTIONS g1
  /\ (forall tag, TAG_ENUMS g' !! tag
                  = match m !! tag with
                    | Some ev => parse_enums <$> as_rows ev
                    | None => TAG_ENUMS g1 !! tag
                    end)
  /\ (forall tag ev, m !! tag = Some ev ->
        exists rows, ev = Rows rows /\ Forall (fun row => is_Some (parse_enum row)) rows).
Proof.
  intros Hrun.
  pose (I := fun (done : list (string * any)) gc =>
    TAG_DESCRIPTIONS gc = TAG_DESCRIPTIONS g1
    /\ (forall tag, TAG_ENUMS gc !! tag
                    = if decide (tag ∈ done.*1)
                      then m !! tag ≫= fun ev => parse_enums <$> as_rows ev
                      else TAG_ENUMS g1 !! tag)
    /\ (forall tag ev, tag ∈ done.*1 -> m !! tag = Some ev ->
          exists rows, ev = Rows rows
                       /\ Forall (fun row => is_Some (parse_enum row)) rows)).
  assert (I (map_to_list m) g') as (HI1 & HI2 & HI3).
  { eapply (for_range_inv I); [| |exact Hrun].
    - split; [done|]. split.
      + intros tag. rewrite decide_False; [done|]. apply not_elem_of_nil.
      + intros tag ev Hin. by apply elem_of_nil in Hin.
    - intros done [tag ev] rest gc g2 Hxs (H1 & H2 & H3) Hbody.
      cbn [fst snd] in Hbody. rewrite load_tag_enum_eq in Hbody.
      assert (tag ∉ done.*1) as Hfresh.
      { pose proof (NoDup_fst_map_to_list m) as Hnd.
        rewrite Hxs, fmap_app, fmap_cons in Hnd.
        apply NoDup_app in Hnd as (_ & Hnd & _). intros Hin.
        apply (Hnd _ Hin). apply list_elem_of_here. }
      assert (m !! tag = Some ev) as Hm.
      { apply elem_of_map_to_list. rewrite Hxs. apply elem_of_app. right.
        apply list_elem_of_here. }
      destruct ev as [| | | | |rows]; simpl in Hbody; try done.
      destruct (mapM parse_enum rows) as [es|] eqn:Hes; simpl in Hbody; [|done].
      injection Hbody as <-. unfold I. rewrite fmap_app. cbn [fmap list_fmap fst].
      split; [done|]. split.
      + intros tag'. simpl. destruct (decide (tag' = tag)) as [->|Hne].
        * rewrite lookup_insert_eq.
          rewrite decide_True by (apply elem_of_app; right; apply list_elem_of_here).
          rewrite Hm. simpl. unfold parse_enums. by rewrite (mapM_omap _ _ _ Hes).
        * rewrite lookup_insert_ne by done. rewrite H2.
          destruct (decide (tag' ∈ done.*1)) as [Hin|Hn].
          -- rewrite decide_True; [done|]. apply elem_of_app. by left.
          -- rewrite decide_False; [done|].
             intros [?|?%list_elem_of_singleton]%elem_of_app; done.
      + intros tag' ev' [Hin|Hin%list_elem_of_singleton]%elem_of_app Hev.
        * by eapply H3.
        * subst. rewrite Hm in Hev. injection Hev as <-. exists rows.
          split; [done|]. apply mapM_is_Some_1. eauto. }
  split; [done|]. split.
  - intros tag. rewrite HI2. destruct (m !! tag) as [ev|] eqn:Hm.
    + rewrite decide_True; [done|]. apply elem_of_fst_map_to_list. eauto.
    + rewrite decide_False; [done|]. rewrite elem_of_fst_map_to_list, Hm.
      by intros [? ?].
  - intros tag ev Hm. eapply HI3; [|done]. apply elem_of_fst_map_to_list. eauto.
Qed.

(** *** The whole load *)

Lemma LoadTagDescriptions_eq tagData g :
  LoadTagDescriptions tagData g
  = (load_databases tagData (TAG_DESCRIPTIONS g) ;;
     match tagData !! "enum"%string with
     | Some tagEnumData => m <- must (as_obj tagEnumData) ;; load_tag_enums m
     | None => ret tt
     end) g.
Proof. reflexivity. Qed.

Lemma enum_rows_Obj tagData m tag :
  tagData !! "enum"%string = Some (Obj m) -> enum_rows tagData tag = m !! tag ≫= as_rows.
Proof. unfold enum_rows. by intros ->. Qed.

Lemma Load_inv tagData g g' :
  LoadTagDescriptions tagData g = Some (tt, g') ->
  well_typed g tagData
  /\ (forall db table,
        descriptions g' db table
        = (fun old => old ++ new_rows tagData db table) <$> descriptions g db table)
  /\ (forall tag,
        TAG_ENUMS g' !! tag
        = match enum_rows tagData tag with
          | Some rows => Some (parse_enums rows)
          | None => TAG_ENUMS g !! tag
          end).
Proof.
  rewrite LoadTagDescriptions_eq. intros ([] & g1 & H1 & H2)%bind_inv.
  apply load_databases_inv in H1 as [[Hd He] Hok].
  destruct (tagData !! "enum"%string) as [v|] eqn:Hv.
  - apply bind_inv in H2 as (m & g2 & Hm & H2). rewrite must_eq in Hm.
    destruct v as [| | |m'| |]; simpl in Hm; try done. injection Hm as <- <-.
    apply load_tag_enums_inv in H2 as (Hd' & He' & Hok').
    split; [split|split].
    + done.
    + intros v. rewrite Hv. intros [= <-]. exists m'. split; [done|]. exact Hok'.
    + intros db table. unfold descriptions in *. rewrite Hd'. apply Hd.
    + intros tag. rewrite He', (enum_rows_Obj _ _ _ Hv).
      destruct (m' !! tag) as [ev|] eqn:Hev; simpl.
      * destruct (Hok' _ _ Hev) as (rows & -> & _). done.
      * by rewrite He.
  - injection H2 as <-. split; [split|split].
    + done.
    + intros v. by rewrite Hv.
    + apply Hd.
    + intros tag. unfold enum_rows. by rewrite Hv, He.
Qed.

Lemma Load_total tagData g :
  well_typed g tagData -> exists g', LoadTagDescriptions tagData g = Some (tt, g').
Proof.
  intros [Hok Hen]. rewrite LoadTagDescriptions_eq.
  pose (J := fun gc : Globals =>
    forall db table, is_Some (descriptions gc db table) <-> is_Some (descriptions g db table)).
  assert (exists g1, load_databases tagData (TAG_DESCRIPTIONS g) g = Some (tt, g1) /\ J g1)
    as (g1 & H1 & _).
  { apply for_range_runs; [done|].
    intros [db tables] gc Hin%elem_of_map_to_list HJ. simpl.
    destruct (tagData !! db) as [tableData|] eqn:Hdata; [|by exists gc].
    apply for_range_runs; [done|].
    intros [table tags] gc' Hin'%elem_of_map_to_list HJ'. simpl.
    assert (is_Some (descriptions g db table)) as Hreg.
    { unfold descriptions. rewrite Hin. simpl. eauto. }
    rewrite load_table_eq by (by apply HJ').
    destruct (table_rows_ok _ _ _ _ Hdata (Hok _ _ Hreg)) as [ds ->]. simpl.
    eexists. split; [done|]. intros db' table'.
    rewrite descriptions_add_rows. destruct (decide _); [|by apply HJ'].
    rewrite fmap_is_Some. apply HJ'. }
  rewrite (bind_Some _ _ _ _ _ H1).
  destruct (tagData !! "enum"%string) as [v|] eqn:Hv; [|by eexists].
  destruct (Hen _ Hv) as (m & -> & Hm). unfold bind at 1. simpl.
  destruct (for_range_runs (fun _ => True) (map_to_list m)
              (fun tagName_enumData =>
                 rows <- must (as_rows tagName_enumData.2) ;;
                 tagEnums <- load_enums rows [] ;;
                 modify (fun g =>
                   {| TAG_DESCRIPTIONS := TAG_DESCRIPTIONS g;
                      TAG_ENUMS := <[tagName_enumData.1 := tagEnums]> (TAG_ENUMS g) |}))
              g1 I) as (g' & H2 & _); [|by exists g'].
  intros [tag ev] gc Hin%elem_of_map_to_list _. cbn [fst snd].
  rewrite load_tag_enum_eq. destruct (Hm _ _ Hin) as (rows & -> & Hrows). simpl.
  destruct (mapM_is_Some_2 parse_enum rows Hrows) as [es ->]. simpl. eauto.
Qed.

(** *** The two queries *)

Lemma response_values columns values : response columns values !! "values"%string = Some values.
Proof. unfold response. by rewrite lookup_insert_ne, lookup_insert_eq. Qed.

Lemma response_columns columns values :
  response columns values !! "columns"%string = Some columns.
Proof. unfold response. by rewrite lookup_insert_eq. Qed.

Lemma response_append columns values v :
  <["values"%string := default [] (response columns values !! "values"%string) ++ [v]]>
    (response columns values)
  = response columns (values ++ [v]).
Proof.
  rewrite response_values. unfold response. simpl.
  rewrite insert_insert_ne by done. by rewrite insert_insert_eq.
Qed.

Lemma response_fold {A} (row : A -> any) columns values (l : list A) :
  foldl (fun resp x =>
           <["values"%string := default [] (resp !! "values"%string) ++ [row x]]> resp)
    (response columns values) l
  = response columns (values ++ (row <$> l)).
Proof.
  revert values. induction l as [|x l IH]; intros values; simpl.
  - by rewrite app_nil_r.
  - rewrite response_append, IH. by rewrite <- app_assoc.
Qed.

Lemma GetTagDescriptions_eq db table g :
  GetTagDescriptions db table g
  = match descriptions g db table with
    | Some ds => Ok (response description_columns (description_row <$> ds))
    | None => Err ("no tag in " +:+ db +:+ "." +:+ table)
    end.
Proof.
  unfold GetTagDescriptions, descriptions.
  destruct (TAG_DESCRIPTIONS g !! db) as [tables|]; simpl; [|done].
  destruct (tables !! table) as [ds|]; [|done]. f_equal.
  exact (response_fold description_row description_columns [] ds).
Qed.

Lemma GetTagValues_eq db table tag g :
  GetTagValues db table tag g
  = match TAG_ENUMS g !! tag with
    | Some es => Ok (response enum_columns (enum_row <$> es))
    | None => Err ("tag (" +:+ tag +:+ ") not found")
    end.
Proof.
  unfold GetTagValues. destruct (TAG_ENUMS g !! tag) as [es|]; [|done]. f_equal.
  exact (response_fold enum_row enum_columns [] es).
Qed.

Lemma omap_Forall2 {A B} (f : A -> option B) l :
  Forall (fun x => is_Some (f x)) l -> Forall2 (fun x y => f x = Some y) l (omap f l).
Proof.
  induction 1 as [|x l [y Hy] _ IH]; [constructor|].
  cbn [omap list_omap]. rewrite Hy. by constructor.
Qed.

Lemma table_ok_rows tagData db table :
  table_ok tagData db table ->
  Forall (fun tag => is_Some (parse_tag tag)) (rows_of tagData db table).
Proof.
  intros Hok. unfold rows_of. destruct (tagData !! db) as [v|] eqn:Hv; [|constructor].
  destruct (Hok v Hv) as (m & -> & Hm).
  destruct (m !! table) as [tv|] eqn:Htv; [|constructor].
  by destruct (Hm tv eq_refl) as (rows & -> & Hrows).
Qed.

Lemma string_at_None_parse tag i :
  (i < 8)%nat -> string_at tag i = None -> parse_tag tag = None.
Proof.
  intros Hi Hn. unfold parse_tag.
  do 8 (destruct i as [|i]; [by rewrite Hn; repeat (destruct (string_at tag _); simpl; try done)|]).
  lia.
Qed.

(** *** What a user of the catalog sees *)

(** X1. [LoadTagDescriptions] returns exactly when, for every
    registered table, [tagData] holds under the database either nothing
    or an object whose entry for the table, if any, is rows of eight
    strings, and holds under ["enum"] either nothing or an object of
    rows of two values at least; on any other input it panics. *)
Theorem LoadTagDescriptions_returns_iff_well_typed (tagData : gmap string any)
    (g : Globals) :
  is_Some (exec (LoadTagDescriptions tagData) g) <-> well_typed g tagData.
Proof.
  split.
  - intros [g' [[] Hrun]%exec_inv]. by destruct (Load_inv _ _ _ Hrun) as (Hwt & _).
  - intros Hwt. destruct (Load_total _ _ Hwt) as [g' E]. exists g'.
    by apply (exec_Some _ _ tt).
Qed.

(** X2. After a load, [GetTagDescriptions] answers for a registered
    table with the seven columns and one row for each description the
    table had, followed by one row for each row of [tagData], in its
    order; each new description is the row's eight strings, of which
    the response leaves out the enum file. *)
Theorem GetTagDescriptions_after_load (tagData : gmap string any) (g g' : Globals)
    (db table : string) (old : list TagDescription.t) :
  exec (LoadTagDescriptions tagData) g = Some g' ->
  descriptions g db table = Some old ->
  GetTagDescriptions db table g'
  = Ok (response description_columns
          (description_row <$> (old ++ new_rows tagData db table)))
  /\ Forall2 (fun tag d => parse_tag tag = Some d)
       (rows_of tagData db table) (new_rows tagData db table).
Proof.
  intros [[] Hrun]%exec_inv Hold.
  destruct (Load_inv _ _ _ Hrun) as ([Hok _] & Hd & _). split.
  - by rewrite GetTagDescriptions_eq, Hd, Hold.
  - apply omap_Forall2, table_ok_rows, Hok. rewrite Hold. eauto.
Qed.

Lemma GetTagDescriptions_after_load_witness :
  exec (LoadTagDescriptions Examples.tag_data) initial = Some Examples.loaded_once
  /\ descriptions initial "flow_log" "l4_flow_log" = Some []
  /\ GetTagDescriptions "flow_log" "l4_flow_log" Examples.loaded_once
     = Ok (response description_columns
             [Arr [Str "ip"; Str "ip_0"; Str "ip_1"; Str "IP"; Str "ip";
                   Str "Network Layer"; Str "=, !="]]).
Proof.
  assert (exec (LoadTagDescriptions Examples.tag_data) initial
          = Some Examples.loaded_once) as E by (vm_compute; reflexivity).
  assert (descriptions initial "flow_log" "l4_flow_log" = Some []) as Hold
    by (vm_compute; reflexivity).
  split; [exact E|]. split; [exact Hold|].
  destruct (GetTagDescriptions_after_load Examples.tag_data initial
              Examples.loaded_once "flow_log" "l4_flow_log" [] E Hold) as [H _].
  rewrite H. vm_compute. reflexivity.
Defined.

(** X3. A table that is not registered is answered by the error, and
    no load registers it, whatever [tagData] holds for it. *)
Theorem GetTagDescriptions_unregistered (tagData : gmap string any) (g g' : Globals)
    (db table : string) :
  descriptions g db table = None ->
  exec (LoadTagDescriptions tagData) g = Some g' ->
  GetTagDescriptions db table g = Err ("no tag in " +:+ db +:+ "." +:+ table)
  /\ GetTagDescriptions db table g' = Err ("no tag in " +:+ db +:+ "." +:+ table).
Proof.
  intros Hnone [[] Hrun]%exec_inv. destruct (Load_inv _ _ _ Hrun) as (_ & Hd & _).
  by rewrite !GetTagDescriptions_eq, Hd, Hnone.
Qed.

Lemma GetTagDescriptions_unregistered_witness :
  descriptions initial "flow_metrics" "network" = None
  /\ Examples.tag_data !! "flow_metrics"%string
     = Some (Obj (<["network"%string := Rows [Examples.tag_ip]]> ∅))
  /\ GetTagDescriptions "flow_metrics" "network" Examples.loaded_once
     = Err "no tag in flow_metrics.network".
Proof.
  assert (descriptions initial "flow_metrics" "network" = None) as Hnone
    by (vm_compute; reflexivity).
  split; [exact Hnone|]. split; [vm_compute; reflexivity|].
  assert (exec (LoadTagDescriptions Examples.tag_data) initial
          = Some Examples.loaded_once) as E by (vm_compute; reflexivity).
  destruct (GetTagDescriptions_unregistered Examples.tag_data initial
              Examples.loaded_once "flow_metrics" "network" Hnone E) as [_ H].
  rewrite H. vm_compute. reflexivity.
Defined.

(** X4. A second load of the same data appends the rows once more to
    every registered table, and leaves the enums as the first load set
    them. *)
Theorem LoadTagDescriptions_twice (tagData : gmap string any) (g g1 g2 : Globals) :
  exec (LoadTagDescriptions tagData) g = Some g1 ->
  exec (LoadTagDescriptions tagData) g1 = Some g2 ->
  (forall db table,
     descriptions g2 db table
     = (fun old => old ++ new_rows tagData db table ++ new_rows tagData db table)
         <$> descriptions g db table)
  /\ TAG_ENUMS g2 = TAG_ENUMS g1.
Proof.
  intros [[] H1]%exec_inv [[] H2]%exec_inv.
  destruct (Load_inv _ _ _ H1) as (_ & Hd1 & He1).
  destruct (Load_inv _ _ _ H2) as (_ & Hd2 & He2). split.
  - intros db table. rewrite Hd2, Hd1.
    destruct (descriptions g db table); simpl; [|done]. by rewrite app_assoc.
  - apply map_eq. intros tag. rewrite He2, He1.
    by destruct (enum_rows tagData tag).
Qed.

Lemma LoadTagDescriptions_twice_witness :
  exec (LoadTagDescriptions Examples.tag_data) initial = Some Examples.loaded_once
  /\ exec (LoadTagDescriptions Examples.tag_data) Examples.loaded_once
     = Some Examples.loaded_twice
  /\ length <$> descriptions Examples.loaded_twice "flow_log" "l4_flow_log" = Some 2%nat
  /\ TAG_ENUMS Examples.loaded_twice = TAG_ENUMS Examples.loaded_once.
Proof.
  assert (exec (LoadTagDescriptions Examples.tag_data) initial
          = Some Examples.loaded_once) as E1 by (vm_compute; reflexivity).
  assert (exec (LoadTagDescriptions Examples.tag_data) Examples.loaded_once
          = Some Examples.loaded_twice) as E2 by (vm_compute; reflexivity).
  split; [exact E1|]. split; [exact E2|].
  destruct (LoadTagDescriptions_twice Examples.tag_data initial Examples.loaded_once
              Examples.loaded_twice E1 E2) as [Hd He].
  split; [|exact He]. rewrite (Hd "flow_log"%string "l4_flow_log"%string).
  vm_compute. reflexivity.
Defined.

(** X5. A row of a registered table with fewer than eight elements, or
    with an element among the first eight that is not a string, makes
    the load panic. *)
Theorem LoadTagDescriptions_panics_on_bad_row (tagData : gmap string any) (g : Globals)
    (db table : string) (m : gmap string any) (rows : list (list any)) (tag : list any) :
  is_Some (descriptions g db table) ->
  tagData !! db = Some (Obj m) ->
  m !! table = Some (Rows rows) ->
  tag ∈ rows ->
  (length tag < 8)%nat
  \/ (exists i v, (i < 8)%nat /\ tag !! i = Some v /\ as_string v = None) ->
  exec (LoadTagDescriptions tagData) g = None.
Proof.
  intros Hreg Hdb Hm Hin Hbad.
  assert (parse_tag tag = None) as Hparse.
  { destruct Hbad as [Hlen|(i & v & Hi & Hv & Hs)].
    - apply (string_at_None_parse tag (length tag) Hlen).
      unfold string_at. by rewrite lookup_ge_None_2.
    - apply (string_at_None_parse tag i Hi). unfold string_at. by rewrite Hv. }
  destruct (exec (LoadTagDescriptions tagData) g) as [g'|] eqn:Hrun; [|done].
  apply exec_inv in Hrun as [[] Hrun].
  destruct (Load_inv _ _ _ Hrun) as ([Hok _] & _).
  destruct (Hok _ _ Hreg _ Hdb) as (m' & [= <-] & Hm').
  destruct (Hm' _ Hm) as (rows' & [= <-] & Hrows).
  rewrite Forall_forall in Hrows. destruct (Hrows _ Hin) as [d Hd]. congruence.
Qed.

Lemma LoadTagDescriptions_panics_on_bad_row_witness :
  is_Some (descriptions initial "flow_log" "l4_flow_log")
  /\ exec (LoadTagDescriptions Examples.tag_data_short) initial = None.
Proof.
  assert (is_Some (descriptions initial "flow_log" "l4_flow_log")) as Hreg
    by (exists []; vm_compute; reflexivity).
  split; [exact Hreg|].
  apply (LoadTagDescriptions_panics_on_bad_row Examples.tag_data_short initial
           "flow_log" "l4_flow_log"
           (<["l4_flow_log"%string := Rows [Examples.tag_short]]> ∅)
           [Examples.tag_short] Examples.tag_short Hreg).
  - vm_compute. reflexivity.
  - vm_compute. reflexivity.
  - apply list_elem_of_here.
  - left. simpl. lia.
Defined.

(** X6. After a load, [GetTagValues] answers for a tag that [tagData]
    holds under ["enum"] with the two columns and one row for each row
    of the tag, its first two values as they are; the enums the tag had
    before are gone.  For any other tag the answer is what it was
    before the load; the database and the table play no part. *)
Theorem GetTagValues_after_load (tagData : gmap string any) (g g' : Globals)
    (db table tag : string) :
  exec (LoadTagDescriptions tagData) g = Some g' ->
  GetTagValues db table tag g'
  = match enum_rows tagData tag with
    | Some rows => Ok (response enum_columns (enum_row <$> parse_enums rows))
    | None => GetTagValues db table tag g
    end
  /\ match enum_rows tagData tag with
     | Some rows => Forall2 (fun row e => parse_enum row = Some e) rows (parse_enums rows)
     | None => True
     end.
Proof.
  intros [[] Hrun]%exec_inv.
  destruct (Load_inv _ _ _ Hrun) as ([_ Hen] & _ & He). split.
  - rewrite !GetTagValues_eq, He. by destruct (enum_rows tagData tag).
  - unfold enum_rows. destruct (tagData !! "enum"%string) as [v|] eqn:Hv; [|done].
    destruct (Hen _ Hv) as (m & -> & Hm).
    destruct (m !! tag) as [ev|] eqn:Hev; simpl; [|done].
    destruct (Hm _ _ Hev) as (rows & -> & Hrows). simpl.
    by apply omap_Forall2.
Qed.

Lemma GetTagValues_after_load_witness :
  exec (LoadTagDescriptions Examples.tag_data) initial = Some Examples.loaded_once
  /\ GetTagValues "any" "any" "protocol" Examples.loaded_once
     = Ok (response enum_columns [Arr [Num 6; Str "TCP"]])
  /\ GetTagValues "any" "any" "l7_protocol" Examples.loaded_once
     = Err "tag (l7_protocol) not found".
Proof.
  assert (exec (LoadTagDescriptions Examples.tag_data) initial
          = Some Examples.loaded_once) as E by (vm_compute; reflexivity).
  split; [exact E|]. split.
  - destruct (GetTagValues_after_load Examples.tag_data initial Examples.loaded_once
                "any" "any" "protocol" E) as [H _].
    rewrite H. vm_compute. reflexivity.
  - destruct (GetTagValues_after_load Examples.tag_data initial Examples.loaded_once
                "any" "any" "l7_protocol" E) as [H _].
    rewrite H. vm_compute. reflexivity.
Defined.

End Catalog.

(** * The loops of SyncStorage, continued *)

Section SyncLoopsMore.

Import GenesisSyncDataOperation SyncStorage SyncStorageSpec SyncStorageFacts SyncLoopSpec.

Lemma loadFromDatabase_eq ageTime now w :
  exists g,
    loaded g
    /\ (forall f, slot f g = Some (load_of (mysql w) now ageTime f))
    /\ exists snap, snapshot_of g = Some snap
    /\ loadFromDatabase ageTime now w
       = Some (tt, emitted (Send snap) (on_self (with_info g) w)).
Proof.
  destruct w as [[c ctx cancel d g0] my ip tr].
  eexists. split; [|split; [|eexists; split]]; cycle 3.
  - unfold loadFromDatabase, load_family, Load, assign, GetDB, fetch, receiver, emit.
    unfold bind, gets, modify, ret. simpl. reflexivity.
  - intros f. destruct f; simpl; eauto.
  - intros f. unfold load_of, stored_rows. simpl. destruct f; reflexivity.
  - reflexivity.
Qed.



(** *** No method writes the configuration *)

Lemma same_cfg_refl w : same_cfg w w.
Proof. done. Qed.

Lemma same_cfg_trans w1 w2 w3 : same_cfg w1 w2 -> same_cfg w2 w3 -> same_cfg w1 w3.
Proof. unfold same_cfg. congruence. Qed.

Lemma same_cfg_modify h :
  (forall w, cfg (self (h w)) = cfg (self w)) -> preserves same_cfg (modify h).
Proof. intros Hh w [] w' [= <-]. apply Hh. Qed.

Ltac same_cfg_step :=
  first
    [ apply preserves_receiver; apply same_cfg_refl
    | apply preserves_bind; [apply same_cfg_trans | | intros ?]
    | apply preserves_for_range; [apply same_cfg_refl | apply same_cfg_trans | intros ?]
    | apply preserves_ret; apply same_cfg_refl
    | apply preserves_gets; apply same_cfg_refl
    | apply same_cfg_modify; intros ?; reflexivity
    | apply preserves_orelse; [apply same_cfg_refl|]
    | apply preserves_if
    | apply preserves_match_option; [|intros ?] ].

Lemma same_cfg_fetch : preserves same_cfg fetch.
Proof. unfold fetch, emit. repeat same_cfg_step. Qed.



Lemma same_cfg_loadFromDatabase ageTime now :
  preserves same_cfg (loadFromDatabase ageTime now).
Proof.
  unfold loadFromDatabase, load_family, Load, GetDB, assign.
  repeat first [ apply same_cfg_fetch | same_cfg_step ].
Qed.




Lemma NewTicker_panics d w : d <= 0 -> NewTicker d w = None.
Proof. intros Hd. unfold NewTicker. rewrite bool_decide_false by lia. done. Qed.


(** *** What [storeToDatabase] writes *)

Lemma Save_eq f w o :
  slot f (info w) = Some o ->
  Save f w
  = Some (tt, mkWorld (self w) (save_store o (mysql w)) (NODE_IP w)
                (trace w ++ save_statement (mysql w) o)).
Proof.
  intros Ho. unfold Save. rewrite (bind_Some _ _ _ _ _ (receiver_eq _ _ _ Ho)).
  unfold bind, GetDB, gets, save_store, save_statement.
  destruct (MySQL.GetDB (mysql w) (Op.orgID o)) as [d|].
  - unfold emit, modify. simpl. by destruct (MySQL.read_only d).
  - unfold ret. rewrite app_nil_r. by destruct w.
Qed.

Lemma storeToDatabase_for_range w : storeToDatabase w = for_range store_order Save w.
Proof.
  unfold storeToDatabase, store_order, for_range, bind.
  repeat match goal with
         | |- context [Save ?f ?w0] =>
             destruct (Save f w0) as [[[] ?]|]; [|reflexivity]
         end.
  reflexivity.
Qed.

Lemma saved_by_nil g m : saved_by g [] m m.
Proof.
  split; [done|]. intros org. destruct (MySQL.GetDB m org) as [d|]; [|done].
  exists d. split; [done|]. split; [by repeat split|].
  intros t. simpl. by destruct (MySQL.read_only d).
Qed.

Lemma writers_snoc g fs f o org t :
  slot f g = Some o ->
  writers g (fs ++ [f]) org t
  = writers g fs org t
    ++ (if bool_decide (Op.orgID o = org /\ Op.table o = t) then [o] else []).
Proof.
  intros Ho. unfold writers. rewrite omap_app. f_equal. simpl. rewrite Ho. simpl.
  by case_bool_decide.
Qed.

Lemma saved_by_snoc g fs f o m m' :
  saved_by g fs m m' -> slot f g = Some o ->
  saved_by g (fs ++ [f]) m (save_store o m').
Proof.
  intros [Hids Hall] Ho. split.
  { unfold save_store. destruct (MySQL.GetDB m' (Op.orgID o)) as [d'|]; [|done].
    by destruct (MySQL.read_only d'). }
  intros org. specialize (Hall org).
  assert (forall t, last (writers g fs org t
                          ++ (if bool_decide (Op.orgID o = org /\ Op.table o = t)
                              then [o] else []))
                    = if bool_decide (Op.orgID o = org /\ Op.table o = t)
                      then Some o else last (writers g fs org t)) as Hlast.
  { intros t. case_bool_decide; [by rewrite last_snoc|by rewrite app_nil_r]. }
  destruct (decide (Op.orgID o = org)) as [<-|Hne].
  - destruct (MySQL.GetDB m (Op.orgID o)) as [d|].
    + destruct Hall as (d' & Hd' & Hs & Ht).
      pose proof Hs as (_ & _ & _ & _ & _ & Hro).
      unfold save_store. rewrite Hd'. destruct (MySQL.read_only d') eqn:Hro'.
      * exists d'. split; [done|]. split; [done|].
        intros t. rewrite (writers_snoc _ _ _ _ _ _ Ho), Hlast, Ht, <- Hro. done.
      * eexists. split.
        { unfold MySQL.GetDB, MySQL.put_db. simpl. by rewrite lookup_insert_eq. }
        split.
        { destruct Hs as (? & ? & ? & ? & ? & ?). by repeat split. }
        intros t. simpl. rewrite (writers_snoc _ _ _ _ _ _ Ho), <- Hro, Hlast.
        destruct (decide (Op.table o = t)) as [<-|Htn].
        -- rewrite lookup_insert_eq. by rewrite bool_decide_true.
        -- rewrite lookup_insert_ne by done. rewrite bool_decide_false by tauto.
           rewrite Ht. by rewrite <- Hro.
    + unfold save_store. by rewrite Hall.
  - assert (MySQL.GetDB (save_store o m') org = MySQL.GetDB m' org) as ->.
    { unfold save_store. destruct (MySQL.GetDB m' (Op.orgID o)) as [d'|]; [|done].
      destruct (MySQL.read_only d'); [done|].
      unfold MySQL.GetDB, MySQL.put_db. simpl. by rewrite lookup_insert_ne. }
    destruct (MySQL.GetDB m org) as [d|]; [|done].
    destruct Hall as (d' & Hd' & Hs & Ht). exists d'. split; [done|]. split; [done|].
    intros t. rewrite (writers_snoc _ _ _ _ _ _ Ho), Ht, Hlast.
    by rewrite bool_decide_false by tauto.
Qed.

Lemma save_statement_saved_by g fs m m' o :
  saved_by g fs m m' -> save_statement m' o = save_statement m o.
Proof.
  intros [_ Hall]. unfold save_statement. specialize (Hall (Op.orgID o)).
  destruct (MySQL.GetDB m (Op.orgID o)) as [d|].
  - by destruct Hall as (d' & -> & _).
  - by rewrite Hall.
Qed.

(** The statements of the families [fs] for an aggregate. *)
Lemma for_range_Save g m0 rest : forall done w,
  info w = g -> loaded g ->
  saved_by g done m0 (mysql w) ->
  exists w',
    for_range rest Save w = Some (tt, w')
    /\ self w' = self w /\ NODE_IP w' = NODE_IP w
    /\ trace w'
       = trace w ++ (rest ≫= fun f => match slot f g with
                                      | Some o => save_statement m0 o
                                      | None => []
                                      end)
    /\ saved_by g (done ++ rest) m0 (mysql w').
Proof.
  induction rest as [|f rest IH]; intros done w Hg Hl Hs.
  - exists w. split; [done|]. split; [done|]. split; [done|].
    split; [by rewrite !app_nil_r|]. by rewrite app_nil_r.
  - destruct (Hl f) as [o Ho].
    assert (slot f (info w) = Some o) as Ho' by (by rewrite Hg).
    pose proof (Save_eq f w o Ho') as E. set (w1 := mkWorld _ _ _ _) in E.
    destruct (IH (done ++ [f]) w1) as (w' & E' & S' & N' & T' & Hs').
    + unfold info. simpl. exact Hg.
    + done.
    + simpl. by apply saved_by_snoc.
    + exists w'. split.
      { simpl. unfold bind at 1. by rewrite E. }
      split; [done|]. split; [done|]. split.
      * rewrite T'. simpl. rewrite Ho.
        rewrite (save_statement_saved_by _ _ _ _ _ Hs). by rewrite app_assoc.
      * by rewrite <- app_assoc in Hs'.
Qed.

Lemma storeToDatabase_eq w :
  Loaded w ->
  exists w',
    storeToDatabase w = Some (tt, w')
    /\ self w' = self w /\ NODE_IP w' = NODE_IP w
    /\ trace w' = trace w ++ save_statements (info w) (mysql w)
    /\ saved (info w) (mysql w) (mysql w').
Proof.
  intros Hw. rewrite storeToDatabase_for_range.
  destruct (for_range_Save (info w) (mysql w) store_order [] w eq_refl Hw
              (saved_by_nil _ _)) as (w' & E & S & N & T & Hs).
  exists w'. split; [exact E|]. split; [exact S|]. split; [exact N|].
  split; [exact T|exact Hs].
Qed.

Lemma save_statements_no_Send g m snap : Send snap ∉ save_statements g m.
Proof.
  unfold save_statements. intros (f & Hin & _)%list_elem_of_bind.
  destruct (slot f g) as [o|]; [|by apply elem_of_nil in Hin].
  unfold save_statement in Hin. destruct (MySQL.GetDB m (Op.orgID o)).
  - by apply list_elem_of_singleton in Hin.
  - by apply elem_of_nil in Hin.
Qed.

Lemma save_statements_ext g m m' :
  (forall org, is_Some (MySQL.GetDB m' org) <-> is_Some (MySQL.GetDB m org)) ->
  save_statements g m' = save_statements g m.
Proof.
  intros Hs. unfold save_statements. apply list_bind_ext; [|done].
  intros f. destruct (slot f g) as [o|]; [|done]. unfold save_statement.
  specialize (Hs (Op.orgID o)).
  destruct (MySQL.GetDB m' (Op.orgID o)), (MySQL.GetDB m (Op.orgID o)); try done.
  - destruct Hs as [Hs _]. by destruct Hs; [eauto|].
  - destruct Hs as [_ Hs]. by destruct Hs; [eauto|].
Qed.

(** *** The tail of a tick *)

Lemma quiet_refl w : quiet w w.
Proof.
  split; [done|]. exists []. split; [by rewrite app_nil_r|].
  intros snap. apply not_elem_of_nil.
Qed.

Lemma quiet_trans w1 w2 w3 : quiet w1 w2 -> quiet w2 w3 -> quiet w1 w3.
Proof.
  intros [E1 (n1 & T1 & H1)] [E2 (n2 & T2 & H2)]. split; [congruence|].
  exists (n1 ++ n2). split; [by rewrite T2, T1, app_assoc|].
  intros snap [Hin|Hin]%elem_of_app; [by apply (H1 snap)|by apply (H2 snap)].
Qed.

Lemma quiet_emit e : (forall snap, e <> Send snap) -> preserves quiet (emit e).
Proof.
  intros He w [] w' [= <-]. split; [done|]. exists [e]. split; [done|].
  intros snap Hin%list_elem_of_singleton. by apply (He snap).
Qed.

Lemma quiet_on_mysql h : preserves quiet (modify (on_mysql h)).
Proof. intros w [] w' [= <-]. apply (quiet_refl w). Qed.

Lemma quiet_set_dirty b : preserves quiet (set_dirty b).
Proof.
  intros w [] w' [= <-]. split; [done|]. exists []. split; [simpl; by rewrite app_nil_r|].
  intros snap. apply not_elem_of_nil.
Qed.

Ltac quiet_step :=
  first
    [ apply quiet_emit; done | apply quiet_on_mysql | apply quiet_set_dirty
    | apply preserves_bind; [apply quiet_trans | | intros ?]
    | apply preserves_for_range; [apply quiet_refl | apply quiet_trans | intros ?]
    | apply preserves_ret; apply quiet_refl
    | apply preserves_gets; apply quiet_refl
    | apply preserves_if
    | apply preserves_match_option; [|intros ?] ].

Lemma quiet_refreshDatabase_tick : preserves quiet refreshDatabase_tick.
Proof.
  unfold refreshDatabase_tick, refreshDatabase_org, GetDB. repeat quiet_step.
Qed.

(** *** The chain of [Age] calls *)

Ltac chain_done :=
  eexists; split; [by eexists|split; [|reflexivity]];
  intros f; destruct f; simpl; eauto.

Ltac chain :=
  lazymatch goal with
  | |- context [orelse (Op.Age ?o ?now ?ttl).2 _] =>
      destruct (Op.Age o now ttl) as [? []];
      cbn -[Op.Age set_dirty storeToDatabase fetch];
      [ chain_done
      | first [ erewrite bind_Some by (apply Age_eq; reflexivity)
              | erewrite (bind_Some (gets _)) by reflexivity; cbn beta;
                erewrite bind_Some by (apply Age_eq; reflexivity)
              | idtac ];
        cbn -[Op.Age set_dirty storeToDatabase fetch];
        chain ]
  | |- _ => chain_done
  end.

Lemma run_tick_chain now w :
  Loaded w ->
  exists w1,
    only_info w w1 /\ Loaded w1
    /\ run_tick now w
       = (set_dirty false ;;
          if existsb (expires now w) aged_families || dirty (self w)
          then storeToDatabase ;; fetch else ret tt) w1.
Proof.
  intros Hw. unfold Loaded in Hw. by_loaded Hw.
  unfold run_tick, aged_families, expires, ttl_of, info.
  cbn -[Op.Age set_dirty storeToDatabase fetch].
  chain.
Qed.

Lemma run_tick_cases now w :
  Loaded w ->
  exists w',
    run_tick now w = Some (tt, w')
    /\ Loaded w'
    /\ dirty (self w') = false
    /\ if existsb (expires now w) aged_families || dirty (self w)
       then exists snap,
              snapshot_of (info w') = Some snap
              /\ trace w' = trace w ++ save_statements (info w') (mysql w) ++ [Send snap]
              /\ saved (info w') (mysql w) (mysql w')
       else trace w' = trace w /\ mysql w' = mysql w.
Proof.
  intros Hw. destruct (run_tick_chain now w Hw) as (w1 & [g ->] & H1 & ->).
  unfold bind at 1, set_dirty, modify.
  destruct (existsb (expires now w) aged_families || dirty (self w)).
  - destruct (storeToDatabase_eq (on_self (with_dirty false) (on_self (with_info g) w)))
      as (w2 & E2 & S2 & N2 & T2 & Hs2); [done|].
    assert (Loaded w2) as H2 by (unfold Loaded, info; by rewrite S2).
    destruct (fetch_loaded w2 H2) as (snap & Hsnap & E3).
    exists (emitted (Send snap) w2). split.
    { unfold bind. by rewrite E2. }
    split; [done|]. split; [simpl; by rewrite S2|].
    exists snap. split; [done|].
    assert (info w2 = g) as Hi by (unfold info; by rewrite S2).
    change (info (emitted (Send snap) w2)) with (info w2). rewrite Hi.
    split; [|exact Hs2].
    simpl. rewrite T2. by rewrite <- app_assoc.
  - eexists. split; [done|]. done.
Qed.

(** *** The ownership reconciler *)

Lemma pruned_refl nodeIP d : pruned nodeIP d d.
Proof. by repeat split. Qed.

Lemma pruned_trans nodeIP d1 d2 d3 :
  pruned nodeIP d1 d2 -> pruned nodeIP d2 d3 -> pruned nodeIP d1 d3.
Proof.
  intros (V1 & R1 & S1 & D1 & C1 & G1 & A1 & B1 & Z1 & K1)
         (V2 & R2 & S2 & D2 & C2 & G2 & A2 & B2 & Z2 & K2).
  repeat split; try congruence.
  - by etrans.
  - intros r Hr Hv. apply B2; [by apply B1|]. by rewrite V1.
  - intros r Hr Hz. apply Z2; [by apply Z1|done].
  - intros Hnd r Hr Hn. apply K2; [|by apply K1|done].
    eapply sublist_NoDup; [done|]. by apply fmap_sublist.
Qed.

Lemma clean_pruned nodeIP d d' : clean nodeIP d -> pruned nodeIP d d' -> clean nodeIP d'.
Proof.
  intros Hc (V & _ & _ & _ & _ & _ & A & _) r Hr Hn. rewrite V.
  apply Hc; [|done]. by eapply elem_of_sublist.
Qed.

Lemma vTapIDs_None (vTaps : list Z) (k : Z) :
  (list_to_map (map (fun v => (v, false)) vTaps) : gmap Z bool) !! k = None <-> k ∉ vTaps.
Proof.
  rewrite <- not_elem_of_list_to_map.
  replace ((map (fun v => (v, false)) vTaps).*1) with vTaps; [done|].
  induction vTaps as [|v l IH]; [done|]. simpl. by f_equal.
Qed.

Lemma NoDup_fmap_eq {A B} (f : A -> B) (l : list A) x y :
  NoDup (f <$> l) -> x ∈ l -> y ∈ l -> f x = f y -> x = y.
Proof.
  induction l as [|a l IH]; [by intros _ ?%elem_of_nil|].
  rewrite fmap_cons, NoDup_cons.
  intros [Hnot Hnd] [->|Hx]%elem_of_cons [->|Hy]%elem_of_cons Hf; try done.
  - exfalso. apply Hnot. rewrite Hf. by apply list_elem_of_fmap_2.
  - exfalso. apply Hnot. rewrite <- Hf. by apply list_elem_of_fmap_2.
  - by apply IH.
Qed.

Lemma elem_of_delete_keys gone k :
  k ∈ MySQL.delete_keys gone
  <-> k <> 0 /\ exists r, r ∈ gone /\ GenesisStorage.VtapID r = k.
Proof.
  unfold MySQL.delete_keys. rewrite list_elem_of_filter, list_elem_of_fmap.
  split; intros [Hk (r & Hr & Hin)]; (split; [done|]); exists r; by split.
Qed.

(** The rows that a tick finds invalid for an organisation. *)
Lemma elem_of_invalid nodeIP d r :
  r ∈ filter (fun s => (list_to_map (map (fun v => (v, false)) (MySQL.vtap d))
                          : gmap Z bool) !! GenesisStorage.VtapID s = None)
        (filter (fun s => GenesisStorage.NodeIP s = nodeIP) (MySQL.genesis_storage d))
  <-> r ∈ MySQL.genesis_storage d /\ GenesisStorage.NodeIP r = nodeIP
      /\ GenesisStorage.VtapID r ∉ MySQL.vtap d.
Proof. rewrite !list_elem_of_filter, vTapIDs_None. tauto. Qed.

Lemma refreshDatabase_org_spec nodeIP org w :
  exists w',
    refreshDatabase_org nodeIP org w = Some (tt, w')
    /\ self w' = self w /\ NODE_IP w' = NODE_IP w
    /\ MySQL.org_ids (mysql w') = MySQL.org_ids (mysql w)
    /\ (forall org', org' <> org ->
          MySQL.GetDB (mysql w') org' = MySQL.GetDB (mysql w) org')
    /\ match MySQL.GetDB (mysql w) org with
       | None => MySQL.GetDB (mysql w') org = None
       | Some d =>
           exists d', MySQL.GetDB (mysql w') org = Some d'
                      /\ pruned nodeIP d d'
                      /\ (MySQL.read_only d = false -> clean nodeIP d')
       end.
Proof.
  unfold refreshDatabase_org, bind, GetDB, gets.
  destruct (MySQL.GetDB (mysql w) org) as [d|] eqn:Hd.
  - pose proof (elem_of_invalid nodeIP d) as Hinv.
    set (inv := filter _ (filter _ (MySQL.genesis_storage d))) in *.
    destruct (bool_decide (0 < length inv)%nat) eqn:Hlen.
    + simpl. unfold MySQL.delete_fails.
      destruct (MySQL.read_only d) eqn:Hro; simpl.
      * eexists. split; [done|]. simpl. repeat split; try done.
        rewrite Hd. exists d. split; [done|]. split; [apply pruned_refl|done].
      * destruct (bool_decide (MySQL.delete_keys inv = [])) eqn:Hkeys; simpl.
        -- apply bool_decide_eq_true in Hkeys. eexists. split; [done|]. simpl. repeat split; try done.
           rewrite Hd. exists d. split; [done|]. split; [apply pruned_refl|].
           intros _ r Hr Hn.
           destruct (decide (GenesisStorage.VtapID r ∈ MySQL.vtap d)) as [|Hv]; [by left|].
           right. destruct (decide (GenesisStorage.VtapID r = 0)) as [|Hz]; [done|].
           exfalso.
           assert (GenesisStorage.VtapID r ∈ MySQL.delete_keys inv) as Hk.
           { apply elem_of_delete_keys. split; [done|]. exists r. split; [|done].
             by apply Hinv. }
           rewrite Hkeys in Hk. by apply elem_of_nil in Hk.
        -- eexists. split; [done|]. simpl. split; [done|]. split; [done|].
           split; [done|]. split.
           { intros org' Hne. unfold MySQL.GetDB, MySQL.put_db. simpl.
             by rewrite lookup_insert_ne. }
           eexists. split.
           { unfold MySQL.GetDB, MySQL.put_db. simpl. by rewrite lookup_insert_eq. }
           split.
           ++ repeat split; try done; simpl; unfold MySQL.delete_rows.
              ** apply sublist_filter.
              ** intros r Hr Hv. rewrite list_elem_of_filter. split; [|done].
                 intros (_ & r0 & Hr0 & Hid)%elem_of_delete_keys.
                 apply Hinv in Hr0 as (_ & _ & Hn). apply Hn. by rewrite Hid.
              ** intros r Hr Hz. rewrite list_elem_of_filter. split; [|done].
                 by intros (Hk & _)%elem_of_delete_keys.
              ** intros Hnd r Hr Hn. rewrite list_elem_of_filter. split; [|done].
                 intros (_ & r0 & Hr0 & Hid)%elem_of_delete_keys.
                 apply Hinv in Hr0 as (Hr0 & Hn0 & _).
                 apply Hn. by rewrite (NoDup_fmap_eq _ _ r r0 Hnd Hr Hr0 (eq_sym Hid)).
           ++ intros _ r. simpl. unfold MySQL.delete_rows.
              rewrite list_elem_of_filter. intros [Hnot Hr] Hn.
              destruct (decide (GenesisStorage.VtapID r ∈ MySQL.vtap d)) as [|Hv];
                [by left|].
              right. destruct (decide (GenesisStorage.VtapID r = 0)) as [|Hz]; [done|].
              exfalso. apply Hnot. apply elem_of_delete_keys. split; [done|].
              exists r. split; [|done]. by apply Hinv.
    + simpl. eexists. split; [done|]. repeat split; try done.
      rewrite Hd. exists d. split; [done|]. split; [apply pruned_refl|].
      intros _ r Hr Hn.
      destruct (decide (GenesisStorage.VtapID r ∈ MySQL.vtap d)) as [|Hv]; [by left|].
      exfalso. apply bool_decide_eq_false in Hlen.
      assert (r ∈ inv) as Hin by (by apply Hinv).
      destruct inv; [by apply elem_of_nil in Hin|]. simpl in Hlen. lia.
  - eexists. split; [done|]. simpl. repeat split; done.
Qed.

Lemma for_range_refreshDatabase_org nodeIP ids w :
  exists w',
    for_range ids (refreshDatabase_org nodeIP) w = Some (tt, w')
    /\ self w' = self w /\ NODE_IP w' = NODE_IP w
    /\ MySQL.org_ids (mysql w') = MySQL.org_ids (mysql w)
    /\ forall org,
         match MySQL.GetDB (mysql w) org with
         | None => MySQL.GetDB (mysql w') org = None
         | Some d =>
             exists d', MySQL.GetDB (mysql w') org = Some d'
                        /\ pruned nodeIP d d'
                        /\ (org ∈ ids -> MySQL.read_only d = false -> clean nodeIP d')
         end.
Proof.
  revert w. induction ids as [|org0 ids IH]; intros w.
  - exists w. split; [done|]. repeat split; try done. intros org.
    destruct (MySQL.GetDB (mysql w) org) as [d|]; [|done].
    exists d. split; [done|]. split; [apply pruned_refl|]. by intros ?%elem_of_nil.
  - destruct (refreshDatabase_org_spec nodeIP org0 w)
      as (w1 & E1 & S1 & N1 & O1 & Hne & Hat).
    destruct (IH w1) as (w2 & E2 & S2 & N2 & O2 & Hall).
    exists w2. split.
    { simpl. unfold bind at 1. by rewrite E1. }
    split; [congruence|]. split; [congruence|]. split; [congruence|].
    intros org. specialize (Hall org).
    destruct (decide (org = org0)) as [->|Hn].
    + destruct (MySQL.GetDB (mysql w) org0) as [d|].
      * destruct Hat as (d1 & G1 & P1 & C1). rewrite G1 in Hall.
        destruct Hall as (d2 & G2 & P2 & C2).
        exists d2. split; [done|]. split; [by eapply pruned_trans|].
        intros _ Hro. eapply clean_pruned; [by apply C1|done].
      * by rewrite Hat in Hall.
    + rewrite (Hne org Hn) in Hall.
      destruct (MySQL.GetDB (mysql w) org) as [d|]; [|done].
      destruct Hall as (d2 & G2 & P2 & C2).
      exists d2. split; [done|]. split; [done|].
      intros [?|Hin]%elem_of_cons; [done|]. by apply C2.
Qed.

Lemma refreshDatabase_tick_spec w ids :
  MySQL.GetORGIDs (mysql w) = Some ids ->
  exists w',
    refreshDatabase_tick w = Some (true, w')
    /\ self w' = with_dirty true (self w)
    /\ NODE_IP w' = NODE_IP w
    /\ MySQL.org_ids (mysql w') = MySQL.org_ids (mysql w)
    /\ forall org,
         match MySQL.GetDB (mysql w) org with
         | None => MySQL.GetDB (mysql w') org = None
         | Some d =>
             exists d', MySQL.GetDB (mysql w') org = Some d'
                        /\ pruned (NODE_IP w) d d'
                        /\ (org ∈ ids -> MySQL.read_only d = false
                            -> clean (NODE_IP w) d')
         end.
Proof.
  intros Hids. unfold refreshDatabase_tick, bind at 1, gets at 1. rewrite Hids.
  unfold bind at 1, gets at 1.
  destruct (for_range_refreshDatabase_org (NODE_IP w) ids w)
    as (w1 & E & S1 & N1 & O1 & Hall).
  unfold bind at 1. rewrite E. unfold set_dirty, bind, modify, ret.
  eexists. split; [done|]. simpl. by rewrite S1.
Qed.

Lemma elem_of_upsert row rows : row ∈ MySQL.upsert row rows.
Proof.
  induction rows as [|r rs IH]; simpl.
  - apply list_elem_of_here.
  - case_bool_decide as Hk.
    + rewrite Hk. destruct row. apply list_elem_of_here.
    + by apply list_elem_of_further.
Qed.

(** *** A tick on a store that a tick has cleaned *)

Lemma settled_refl w : settled w w.
Proof.
  split; [done|]. split; [done|]. exists []. split; [by rewrite app_nil_r|].
  by intros ? ? ?%elem_of_nil.
Qed.

Lemma settled_trans w1 w2 w3 : settled w1 w2 -> settled w2 w3 -> settled w1 w3.
Proof.
  intros (M1 & N1 & n1 & T1 & H1) (M2 & N2 & n2 & T2 & H2).
  split; [congruence|]. split; [congruence|].
  exists (n1 ++ n2). split; [by rewrite T2, T1, app_assoc|].
  intros org rows [Hin|Hin]%elem_of_app; [by apply (H1 org rows)|].
  rewrite <- M1. by apply (H2 org rows).
Qed.

Lemma settled_refreshDatabase_org nodeIP org w u w' :
  (forall d, MySQL.GetDB (mysql w) org = Some d ->
     MySQL.read_only d = true \/ clean nodeIP d) ->
  refreshDatabase_org nodeIP org w = Some (u, w') -> settled w w'.
Proof.
  intros Hok. unfold refreshDatabase_org, bind, GetDB, gets.
  destruct (MySQL.GetDB (mysql w) org) as [d|] eqn:Hd.
  - pose proof (elem_of_invalid nodeIP d) as Hinv.
    set (inv := filter _ (filter _ (MySQL.genesis_storage d))) in *.
    destruct (bool_decide (0 < length inv)%nat) eqn:Hlen.
    + assert (MySQL.delete_fails d inv = true) as Hfails.
      { unfold MySQL.delete_fails. destruct (Hok d eq_refl) as [->|Hcl]; [done|].
        apply orb_true_iff. right. apply bool_decide_eq_true.
        destruct (MySQL.delete_keys inv) as [|k ks] eqn:Hkeys; [done|]. exfalso.
        assert (k ∈ MySQL.delete_keys inv) as Hk
          by (rewrite Hkeys; apply list_elem_of_here).
        apply elem_of_delete_keys in Hk as (Hk & r & Hr & <-).
        apply Hinv in Hr as (Hr & Hn & Hv). by destruct (Hcl r Hr Hn). }
      rewrite Hfails. simpl. intros [= _ <-]. split; [done|]. split; [done|].
      eexists. split; [simpl; by rewrite <- app_assoc|].
      intros org' rows [Heq|Hin]%elem_of_cons.
      * injection Heq as -> ->. eauto.
      * by apply list_elem_of_singleton in Hin.
    + intros [= _ <-]. apply settled_refl.
  - intros [= _ <-]. split; [done|]. split; [done|]. eexists. split; [done|].
    intros org' rows Hin. by apply list_elem_of_singleton in Hin.
Qed.

Lemma settled_for_range nodeIP ids w u w' :
  (forall org d, org ∈ ids -> MySQL.GetDB (mysql w) org = Some d ->
     MySQL.read_only d = true \/ clean nodeIP d) ->
  for_range ids (refreshDatabase_org nodeIP) w = Some (u, w') -> settled w w'.
Proof.
  revert w. induction ids as [|org ids IH]; intros w Hok; simpl.
  - intros [= _ <-]. apply settled_refl.
  - intros ([] & w1 & H1 & H2)%bind_inv.
    assert (settled w w1) as S1.
    { eapply settled_refreshDatabase_org; [|exact H1].
      intros d Hd. apply (Hok org d); [apply list_elem_of_here|done]. }
    eapply settled_trans; [exact S1|]. apply IH; [|done].
    intros org' d Hin Hd. destruct S1 as (M1 & _). rewrite M1 in Hd.
    apply (Hok org' d); [by apply list_elem_of_further|done].
Qed.

(** *** What the loops do *)

(** X7. [loadFromDatabase] returns in every engine, also one whose
    aggregate is empty: it replaces every family by a new operation of
    the default organisation that holds the rows of the store not older
    than [ageTime] (the one aging time for all ten families, Vinterfaces
    included), whatever the engine held before; it then pushes one
    snapshot of the new aggregate and writes nothing to the store. *)
Theorem loadFromDatabase_reloads (w : World) (ageTime now : Z) :
  exists w' snap,
    exec (loadFromDatabase ageTime now) w = Some w'
    /\ (forall f, slot f (info w') = Some (load_of (mysql w) now ageTime f))
    /\ snapshot_of (info w') = Some snap
    /\ trace w' = trace w ++ [Send snap]
    /\ mysql w' = mysql w
    /\ dirty (self w') = dirty (self w).
Proof.
  destruct (loadFromDatabase_eq ageTime now w) as (g & _ & Hg & snap & Hsnap & E).
  eexists _, snap. split; [by rewrite (exec_Some _ _ _ _ E)|]. by destruct w as [[]].
Qed.

(** [Start] launches [refreshDatabase], whose ticker cannot be created
    with an interval that is not positive: the goroutine panics, and
    the process with it. *)
Lemma Start_panics_without_interval (p : Process) (now : Z) :
  GoTime.seconds (AgingTime (cfg (self (world p)))) <= 0 ->
  step p (CallStart now) = None.
Proof.
  intros Hd. unfold step, exec, bind. by rewrite (NewTicker_panics _ _ Hd).
Qed.



(** X9. A tick of [run] ends with the dirty flag cleared.  When a
    family in the chain reports a change, or the flag was set, the tick
    saves the families: it issues one statement for each of the ten
    families whose organisation has a session, in the order of
    [storeToDatabase], after which every family table of a session that
    takes writes holds the records of the family that writes it; it
    then pushes one snapshot of the aggregate, its last effect and its
    only send.  Otherwise the tick sends nothing and writes nothing. *)
Theorem run_tick_pushes_iff_changed (w : World) (now : Z) :
  Loaded w ->
  exists w',
    exec (run_tick now) w = Some w'
    /\ dirty (self w') = false
    /\ if existsb (expires now w) aged_families || dirty (self w)
       then exists new snap,
              trace w' = trace w ++ new ++ [Send snap]
              /\ (forall snap', Send snap' ∉ new)
              /\ snapshot_of (info w') = Some snap
              /\ new = save_statements (info w') (mysql w)
              /\ saved (info w') (mysql w) (mysql w')
       else trace w' = trace w /\ mysql w' = mysql w.
Proof.
  intros Hw. destruct (run_tick_cases now w Hw) as (w' & E & _ & Hd & Hc).
  exists w'. split; [by apply (exec_Some _ _ tt)|]. split; [done|].
  destruct (existsb (expires now w) aged_families || dirty (self w)); [|done].
  destruct Hc as (snap & Hsnap & Ht & Hs).
  exists (save_statements (info w') (mysql w)), snap.
  split; [done|]. split; [intros snap'; apply save_statements_no_Send|]. done.
Qed.

Lemma run_tick_pushes_iff_changed_witness :
  Loaded Examples.seen_at_100
  /\ (exists w' new snap d',
        exec (run_tick (161 * Examples.sec)) Examples.seen_at_100 = Some w'
        /\ trace w' = new ++ [Send snap]
        /\ length new = 10%nat
        /\ MySQL.GetDB (mysql w') 1 = Some d'
        /\ MySQL.genesis d' !! Family.table Family.VMs = Some [Examples.vm_a])
  /\ (exists w', exec (run_tick (150 * Examples.sec)) Examples.seen_at_100 = Some w'
                 /\ trace w' = []).
Proof.
  split; [apply Loaded_sync_world|]. split.
  - destruct (run_tick_pushes_iff_changed Examples.seen_at_100 (161 * Examples.sec)
                (Loaded_sync_world _ _ _ _)) as (w' & E & _ & Hc).
    assert (existsb (expires (161 * Examples.sec) Examples.seen_at_100) aged_families
            || dirty (self Examples.seen_at_100) = true) as C by (vm_compute; reflexivity).
    rewrite C in Hc. destruct Hc as (new & snap & Ht & _ & _ & Hnew & Hs).
    pose proof E as E0. vm_compute in E0. injection E0 as <-.
    destruct Hs as [_ Hs]. specialize (Hs 1).
    assert (MySQL.GetDB (mysql Examples.seen_at_100) 1 = Some Examples.org1) as Hd
      by reflexivity.
    rewrite Hd in Hs. destruct Hs as (d' & Hd' & _ & Htab).
    eexists _, new, snap, d'. split; [exact E|]. split; [exact Ht|].
    split; [rewrite Hnew; vm_compute; reflexivity|]. split; [exact Hd'|].
    rewrite Htab. vm_compute. reflexivity.
  - destruct (run_tick_pushes_iff_changed Examples.seen_at_100 (150 * Examples.sec)
                (Loaded_sync_world _ _ _ _)) as (w' & E & _ & Hc).
    assert (existsb (expires (150 * Examples.sec) Examples.seen_at_100) aged_families
            || dirty (self Examples.seen_at_100) = false) as C by (vm_compute; reflexivity).
    rewrite C in Hc. exists w'. split; [exact E|exact (proj1 Hc)].
Defined.

(** X10. A tick of the reconciler with a working enumeration: every
    organisation keeps its session and all its tables but
    [genesis_storage]; of that table only rows go, none of an agent
    registered in [vtap], none with the key zero (which the delete
    statement does not name) and, with [vtap_id] a key, none of another
    node; in every enumerated organisation with a writable session the
    rows of this node that are left are those of registered agents and
    those with the key zero; the aggregate is untouched and the dirty
    flag is set. *)
Theorem refreshDatabase_tick_cleans (w : World) (ids : list Z) :
  MySQL.GetORGIDs (mysql w) = Some ids ->
  exists w',
    refreshDatabase_tick w = Some (true, w')
    /\ dirty (self w') = true
    /\ info w' = info w
    /\ forall org d, MySQL.GetDB (mysql w) org = Some d ->
         exists d', MySQL.GetDB (mysql w') org = Some d'
           /\ pruned (NODE_IP w) d d'
           /\ (org ∈ ids -> MySQL.read_only d = false -> clean (NODE_IP w) d').
Proof.
  intros Hids.
  destruct (refreshDatabase_tick_spec w ids Hids) as (w' & E & S1 & _ & _ & Hall).
  exists w'. split; [done|]. unfold info. rewrite S1. split; [done|]. split; [done|].
  intros org d Hd. specialize (Hall org). by rewrite Hd in Hall.
Qed.

Lemma refreshDatabase_tick_cleans_witness :
  MySQL.GetORGIDs (mysql Examples.idle_zero) = Some [1]
  /\ MySQL.genesis_storage Examples.org1_zero
     = [GenesisStorage.mk 0 "N"; GenesisStorage.mk 99 "N"]
  /\ exists w' d',
       refreshDatabase_tick Examples.idle_zero = Some (true, w')
       /\ MySQL.GetDB (mysql w') 1 = Some d'
       /\ clean "N" d'
       /\ GenesisStorage.mk 0 "N" ∈ MySQL.genesis_storage d'
       /\ GenesisStorage.mk 99 "N" ∉ MySQL.genesis_storage d'.
Proof.
  split; [reflexivity|]. split; [reflexivity|].
  destruct (refreshDatabase_tick_cleans Examples.idle_zero [1] eq_refl)
    as (w' & E & _ & _ & Hall).
  destruct (Hall 1 Examples.org1_zero eq_refl) as (d' & Hd' & Hp & Hc).
  assert (clean "N" d') as Hclean.
  { apply Hc; [apply list_elem_of_here|reflexivity]. }
  exists w', d'. split; [exact E|]. split; [exact Hd'|]. split; [exact Hclean|].
  destruct Hp as (Hv & _ & _ & _ & _ & _ & _ & _ & Hzero & _). split.
  - apply Hzero; [apply list_elem_of_here|reflexivity].
  - intros Hin. destruct (Hclean _ Hin eq_refl) as [Hreg|Hz]; [|discriminate Hz].
    rewrite Hv in Hreg. simpl in Hreg.
    apply elem_of_cons in Hreg as [Heq|Hreg]; [discriminate Heq|].
    apply elem_of_cons in Hreg as [Heq|Hreg]; [discriminate Heq|].
    exact (proj1 (elem_of_nil _) Hreg).
Defined.

(** X11. The ownership row that [Update] writes for an agent lasts
    through the next tick of the reconciler exactly when the agent is
    registered in [vtap] of its organisation. *)
Theorem Update_row_lasts_iff_registered (w : World) (data : GenesisSyncDataOperation.t)
    (vif : VIFRPCMessage) (now : Z) (d : MySQL.DB) (ids : list Z) :
  Loaded w ->
  any_present data && negb (vtapID vif =? 0)%Z = true ->
  MySQL.GetDB (mysql w) (orgID vif) = Some d ->
  MySQL.read_only d = false ->
  MySQL.GetORGIDs (mysql w) = Some ids ->
  orgID vif ∈ ids ->
  exists w' d',
    exec (Update data vif now ;; refreshDatabase_tick) w = Some w'
    /\ MySQL.GetDB (mysql w') (orgID vif) = Some d'
    /\ (GenesisStorage.mk (vtapID vif) (NODE_IP w) ∈ MySQL.genesis_storage d'
        <-> vtapID vif ∈ MySQL.vtap d).
Proof.
  intros Hw Hc Hd Hro Hids Hin.
  assert (vtapID vif <> 0) as Hnz.
  { apply andb_true_iff in Hc as [_ Hc]. apply negb_true_iff in Hc.
    by apply Z.eqb_neq in Hc. }
  destruct (Update_push_upsert data vif now w d Hw Hc Hd) as (snap & _ & E).
  rewrite Hro in E. set (w1 := on_self _ _) in E.
  destruct (refreshDatabase_tick_spec w1 ids Hids) as (w' & E' & _ & _ & _ & Hall).
  specialize (Hall (orgID vif)).
  assert (MySQL.GetDB (mysql w1) (orgID vif)
          = Some (MySQL.with_genesis_storage d
                    (MySQL.upsert (GenesisStorage.mk (vtapID vif) (NODE_IP w))
                       (MySQL.genesis_storage d)))) as Hd1.
  { unfold w1, MySQL.GetDB. simpl. by rewrite lookup_insert_eq. }
  rewrite Hd1 in Hall. destruct Hall as (d' & Hd' & Hp & Hcl).
  exists w', d'. split.
  { unfold exec, bind. rewrite E, E'. done. }
  split; [done|]. specialize (Hcl Hin Hro).
  destruct Hp as (V & _ & _ & _ & _ & _ & _ & Hkeep & _). simpl in V, Hkeep.
  split.
  - intros Hrow. rewrite <- V. by destruct (Hcl _ Hrow eq_refl).
  - intros Hv. apply Hkeep; [apply elem_of_upsert|done].
Qed.

Lemma Update_row_lasts_iff_registered_witness :
  Loaded Examples.idle
  /\ (exists w' d',
        exec (Update (Examples.only_VMs [Examples.vm_a]) (mkVIF 1 7) 200 ;;
              refreshDatabase_tick) Examples.idle = Some w'
        /\ MySQL.GetDB (mysql w') 1 = Some d'
        /\ GenesisStorage.mk 7 "N" ∉ MySQL.genesis_storage d')
  /\ (exists w' d',
        exec (Update (Examples.only_VMs [Examples.vm_a]) (mkVIF 1 2) 200 ;;
              refreshDatabase_tick) Examples.idle = Some w'
        /\ MySQL.GetDB (mysql w') 1 = Some d'
        /\ GenesisStorage.mk 2 "N" ∈ MySQL.genesis_storage d').
Proof.
  split; [apply Loaded_sync_world|]. split.
  - destruct (Update_row_lasts_iff_registered Examples.idle
                (Examples.only_VMs [Examples.vm_a]) (mkVIF 1 7) 200 Examples.org1 [1]
                (Loaded_sync_world _ _ _ _) eq_refl eq_refl eq_refl eq_refl
                (list_elem_of_here _ _)) as (w' & d' & E & Hd' & Hiff).
    exists w', d'. split; [exact E|]. split; [exact Hd'|].
    intros Hrow. apply Hiff in Hrow. simpl in Hrow.
    apply elem_of_cons in Hrow as [Heq|Hrow]; [discriminate Heq|].
    apply elem_of_cons in Hrow as [Heq|Hrow]; [discriminate Heq|].
    exact (proj1 (elem_of_nil _) Hrow).
  - destruct (Update_row_lasts_iff_registered Examples.idle
                (Examples.only_VMs [Examples.vm_a]) (mkVIF 1 2) 200 Examples.org1 [1]
                (Loaded_sync_world _ _ _ _) eq_refl eq_refl eq_refl eq_refl
                (list_elem_of_here _ _)) as (w' & d' & E & Hd' & Hiff).
    exists w', d'. split; [exact E|]. split; [exact Hd'|].
    apply Hiff. simpl. apply list_elem_of_further, list_elem_of_here.
Defined.

(** X12. A tick of the reconciler with a working enumeration makes the
    next tick of [run] save and push, whatever has expired: after the
    statements and log lines of the reconciler, the tick of [run]
    issues the statement of every family whose organisation has a
    session, leaves in the store the records of the families, and sends
    one snapshot, the only send and the last effect of the two
    ticks. *)
Theorem reconciler_forces_push (w : World) (ids : list Z) (now : Z) :
  Loaded w ->
  MySQL.GetORGIDs (mysql w) = Some ids ->
  exists w1 w' new snap,
    refreshDatabase_tick w = Some (true, w1)
    /\ exec (refreshDatabase_tick ;; run_tick now) w = Some w'
    /\ trace w' = trace w ++ new ++ save_statements (info w') (mysql w) ++ [Send snap]
    /\ (forall snap', Send snap' ∉ new ++ save_statements (info w') (mysql w))
    /\ saved (info w') (mysql w1) (mysql w')
    /\ snapshot_of (info w') = Some snap
    /\ dirty (self w') = false.
Proof.
  intros Hw Hids.
  destruct (refreshDatabase_tick_spec w ids Hids) as (w1 & E1 & S1 & _ & _ & Hall).
  pose proof (quiet_refreshDatabase_tick _ _ _ E1) as [Hi (new1 & T1 & Q1)].
  assert (Loaded w1) as H1 by (unfold Loaded; by rewrite Hi).
  destruct (run_tick_cases now w1 H1) as (w' & E2 & _ & Hd & Hc).
  rewrite S1 in Hc. simpl in Hc. rewrite orb_true_r in Hc.
  destruct Hc as (snap & Hsnap & T2 & Hs).
  assert (save_statements (info w') (mysql w1) = save_statements (info w') (mysql w))
    as Hsame.
  { apply save_statements_ext. intros org. specialize (Hall org).
    destruct (MySQL.GetDB (mysql w) org) as [d|].
    - destruct Hall as (d' & -> & _). split; eauto.
    - rewrite Hall. done. }
  rewrite Hsame in T2.
  exists w1, w', new1, snap. split; [done|]. split.
  { unfold exec, bind. by rewrite E1, E2. }
  split; [by rewrite T2, T1, !app_assoc|]. split; [|done].
  intros snap' [Hin|Hin]%elem_of_app; [by apply (Q1 snap')|].
  by apply save_statements_no_Send in Hin.
Qed.

Lemma reconciler_forces_push_witness :
  Loaded Examples.idle
  /\ MySQL.GetORGIDs (mysql Examples.idle) = Some [1]
  /\ exists w' new snap,
       exec (refreshDatabase_tick ;; run_tick 200) Examples.idle = Some w'
       /\ trace w' = new ++ save_statements (info w') Examples.store ++ [Send snap]
       /\ dirty (self w') = false.
Proof.
  split; [apply Loaded_sync_world|]. split; [reflexivity|].
  destruct (reconciler_forces_push Examples.idle [1] 200 (Loaded_sync_world _ _ _ _)
              eq_refl) as (w1 & w' & new & snap & _ & E & Ht & _ & _ & _ & Hd).
  exists w', new, snap. split; [exact E|]. split; [exact Ht|exact Hd].
Defined.

(** X18. A second tick of the reconciler right after one with a
    working enumeration removes nothing: the store is after it what the
    first tick left, and every delete statement it issues fails, its
    session refusing writes or its rows having no key but zero. *)
Theorem reconciler_deletes_once (w : World) (ids : list Z) :
  MySQL.GetORGIDs (mysql w) = Some ids ->
  exists w1 w2 new,
    refreshDatabase_tick w = Some (true, w1)
    /\ refreshDatabase_tick w1 = Some (true, w2)
    /\ mysql w2 = mysql w1
    /\ trace w2 = trace w1 ++ new
    /\ forall org rows, Delete org rows ∈ new ->
         exists d, MySQL.GetDB (mysql w) org = Some d
                   /\ MySQL.delete_fails d rows = true.
Proof.
  intros Hids.
  destruct (refreshDatabase_tick_spec w ids Hids) as (w1 & E1 & S1 & N1 & O1 & Hall).
  assert (MySQL.GetORGIDs (mysql w1) = Some ids) as Hids1.
  { unfold MySQL.GetORGIDs in *. by rewrite O1. }
  destruct (refreshDatabase_tick_spec w1 ids Hids1) as (w2 & E2 & _).
  exists w1, w2.
  pose proof E2 as E2'. unfold refreshDatabase_tick in E2'.
  unfold bind at 1, gets at 1 in E2'. rewrite Hids1 in E2'.
  unfold bind at 1, gets at 1 in E2'.
  apply bind_inv in E2' as ([] & w3 & Hloop & Hrest).
  apply settled_for_range in Hloop as (M3 & _ & new & T3 & Hdel).
  - unfold set_dirty, bind, modify, ret in Hrest. injection Hrest as <-.
    exists new. split; [done|]. split; [done|]. split; [done|]. split; [done|].
    intros org rows Hin. destruct (Hdel org rows Hin) as (d1 & Hd1 & Hf).
    specialize (Hall org). destruct (MySQL.GetDB (mysql w) org) as [d|]; [|congruence].
    destruct Hall as (d' & Hd' & (_ & Hr & _) & _).
    exists d. split; [done|]. assert (d' = d1) as -> by congruence.
    unfold MySQL.delete_fails in *. by rewrite <- Hr.
  - intros org d1 Hin Hd1. specialize (Hall org).
    destruct (MySQL.GetDB (mysql w) org) as [d|]; [|congruence].
    destruct Hall as (d' & Hd' & (_ & Hr & _) & Hcl).
    assert (d' = d1) as -> by congruence.
    destruct (MySQL.read_only d) eqn:Hro.
    + left. congruence.
    + right. rewrite N1. by apply Hcl.
Qed.

Lemma reconciler_deletes_once_witness :
  MySQL.GetORGIDs (mysql Examples.idle_zero) = Some [1]
  /\ exists w1 w2 new,
       refreshDatabase_tick Examples.idle_zero = Some (true, w1)
       /\ refreshDatabase_tick w1 = Some (true, w2)
       /\ mysql w2 = mysql w1
       /\ trace w2 = trace w1 ++ new
       /\ forall org rows, Delete org rows ∈ new ->
            MySQL.delete_fails Examples.org1_zero rows = true.
Proof.
  split; [reflexivity|].
  destruct (reconciler_deletes_once Examples.idle_zero [1] eq_refl)
    as (w1 & w2 & new & E1 & E2 & Hm & Ht & Hdel).
  exists w1, w2, new. split; [exact E1|]. split; [exact E2|]. split; [exact Hm|].
  split; [exact Ht|]. intros org rows Hin.
  destruct (Hdel org rows Hin) as (d & Hd & Hf).
  unfold MySQL.GetDB in Hd. simpl in Hd.
  apply lookup_insert_Some in Hd as [[_ <-]|[_ Hd]].
  - exact Hf.
  - rewrite lookup_empty in Hd. discriminate Hd.
Defined.

End SyncLoopsMore.

(** * KubernetesStorage, continued *)

Section KubernetesMore.

Import KubernetesInfo KubernetesStorage KubernetesStorageSpec KubernetesStorageFacts.

Variables (KUBERNETES CONTROLLER_STATE_EXCEPTION : Z).

Local Abbreviation Add := (Add KUBERNETES CONTROLLER_STATE_EXCEPTION).
Local Abbreviation triggerCloudRrefresh :=
  (triggerCloudRrefresh KUBERNETES CONTROLLER_STATE_EXCEPTION).

Lemma stored_aged now ttl data org cid s :
  stored (aged now ttl data) org cid = Some s
  <-> stored data org cid = Some s /\ GoTime.Sub now (Epoch s) <= ttl.
Proof.
  unfold stored, aged. rewrite lookup_fmap.
  destruct (data !! org) as [kd|]; simpl.
  - by rewrite map_lookup_filter_Some.
  - split; [done|by intros [? _]].
Qed.

Lemma stored_added org newInfo data org' cid' :
  stored (added org newInfo data) org' cid'
  = if decide ((org, ClusterID newInfo) = (org', cid'))
    then Some (match stored data org (ClusterID newInfo) with
               | Some oldInfo =>
                   if bool_decide (Version oldInfo = Version newInfo)
                   then refreshed oldInfo newInfo else newInfo
               | None => newInfo
               end)
    else stored data org' cid'.
Proof.
  unfold added, stored at 2. destruct (data !! org) as [kd|] eqn:Hkd; simpl.
  - destruct (kd !! ClusterID newInfo) as [oldInfo|] eqn:Hold.
    + case_bool_decide; by rewrite (stored_insert _ _ _ _ _ _ _ Hkd).
    + by rewrite (stored_insert _ _ _ _ _ _ _ Hkd).
  - unfold stored. destruct (decide (org = org')) as [<-|Ho].
    + rewrite lookup_insert_eq, Hkd. simpl.
      destruct (decide (ClusterID newInfo = cid')) as [<-|Hc].
      * rewrite lookup_insert_eq. by rewrite decide_True.
      * rewrite lookup_insert_ne by done. rewrite decide_False by congruence. done.
    + rewrite lookup_insert_ne by done. by rewrite decide_False by congruence.
Qed.

Lemma refreshed_refreshed old new : refreshed (refreshed old new) new = refreshed old new.
Proof. done. Qed.

Lemma refreshed_same i : refreshed i i = i.
Proof. by destruct i. Qed.

Lemma added_insert org newInfo data :
  exists kd y,
    added org newInfo data = <[org := <[ClusterID newInfo := y]> kd]> data
    /\ Version y = Version newInfo
    /\ refreshed y newInfo = y.
Proof.
  unfold added. destruct (data !! org) as [kd|].
  - destruct (kd !! ClusterID newInfo) as [oldInfo|].
    + case_bool_decide as Hv.
      * eexists _, _. split; [done|]. split; [done|]. apply refreshed_refreshed.
      * eexists _, _. split; [done|]. split; [done|]. apply refreshed_same.
    + eexists _, _. split; [done|]. split; [done|]. apply refreshed_same.
  - eexists _, _. split; [done|]. split; [done|]. apply refreshed_same.
Qed.

Lemma added_added org newInfo data :
  added org newInfo (added org newInfo data) = added org newInfo data
  /\ unchanged org newInfo (added org newInfo data) = true.
Proof.
  destruct (added_insert org newInfo data) as (kd & y & -> & Hv & Hy). split.
  - unfold added at 1. rewrite lookup_insert_eq, lookup_insert_eq.
    rewrite bool_decide_true by done. rewrite Hy.
    by rewrite !insert_insert_eq.
  - unfold unchanged, stored. rewrite lookup_insert_eq. simpl. rewrite lookup_insert_eq.
    by apply bool_decide_eq_true.
Qed.

Lemma Itoa_version (version : Z) :
  0 <= version < 2 ^ 64 ->
  Itoa (int_of_uint64 version)
  = Itoa (if bool_decide (version < 2 ^ 63) then version else version - 2 ^ 64).
Proof.
  intros Hv. f_equal. unfold int_of_uint64, GoTime.wrap64. case_bool_decide.
  - rewrite Z.mod_small by lia. lia.
  - replace (version + 2 ^ 63) with ((version - 2 ^ 63) + 1 * 2 ^ 64) by lia.
    rewrite Z.mod_add by lia. rewrite Z.mod_small by lia. lia.
Qed.

(** *** What the store of clusters does *)

(** X13. The aging tick keeps exactly the entries whose epoch is not
    older than the aging time; the organisations of the outer map all
    stay, also those left without an entry; the database is not touched
    and nothing but the channel sends is added to the trace. *)
Theorem aging_keeps_the_fresh (w : World) (now : Z) :
  exists w',
    exec (run_tick now) w = Some w'
    /\ (forall org cid s,
          stored (kubernetesData (self w')) org cid = Some s
          <-> stored (kubernetesData (self w)) org cid = Some s
              /\ GoTime.Sub now (Epoch s) <= GoTime.seconds (AgingTime (cfg (self w))))
    /\ (forall org, is_Some (kubernetesData (self w') !! org)
                    <-> is_Some (kubernetesData (self w) !! org))
    /\ mysql w' = mysql w
    /\ trace w' = trace w ++ (Send <$> snapshot (kubernetesData (self w'))).
Proof.
  eexists. split; [by rewrite (exec_Some _ _ _ _ (run_tick_eq now w))|].
  simpl. split; [intros org cid s; apply stored_aged|]. split; [|done].
  intros org. unfold aged. rewrite lookup_fmap. by rewrite fmap_is_Some.
Qed.

(** X14. A report for a cluster that is not stored, or is stored with
    another version, replaces the entry by the report as a whole and
    leaves every other entry alone; after the channel sends the trigger
    runs: it adds effects, none of them a send, and the database is as
    it was. *)
Theorem Add_stores_new_version (w : World) (org : Z) (newInfo : KubernetesInfo.t) :
  unchanged org newInfo (kubernetesData (self w)) = false ->
  exists w' new,
    exec (Add org newInfo) w = Some w'
    /\ stored (kubernetesData (self w')) org (ClusterID newInfo) = Some newInfo
    /\ (forall org' cid', (org, ClusterID newInfo) <> (org', cid') ->
          stored (kubernetesData (self w')) org' cid'
          = stored (kubernetesData (self w)) org' cid')
    /\ trace w' = trace w ++ (Send <$> snapshot (kubernetesData (self w'))) ++ new
    /\ new <> [] /\ sends new = []
    /\ mysql w' = mysql w.
Proof.
  intros Hu. destruct (Add_returns KUBERNETES CONTROLLER_STATE_EXCEPTION org newInfo w)
    as (new & E & Hs & _ & Hn).
  eexists _, new. split; [by rewrite (exec_Some _ _ _ _ E)|]. simpl.
  split; [|split; [|by auto]].
  - rewrite stored_added, decide_True by done. unfold unchanged in Hu.
    destruct (stored _ org _) as [oldInfo|]; [|done]. by rewrite Hu.
  - intros org' cid' Hne. by rewrite stored_added, decide_False.
Qed.

(** X15. A report that is added twice: the second call finds the
    version stored, leaves the store as the first call left it and
    sends it again, and does not run the trigger. *)
Theorem Add_twice_no_trigger (w : World) (org : Z) (newInfo : KubernetesInfo.t) :
  exists w1 w2,
    exec (Add org newInfo) w = Some w1
    /\ exec (Add org newInfo) w1 = Some w2
    /\ kubernetesData (self w2) = kubernetesData (self w1)
    /\ trace w2 = trace w1 ++ (Send <$> snapshot (kubernetesData (self w1)))
    /\ mysql w2 = mysql w1.
Proof.
  destruct (Add_returns KUBERNETES CONTROLLER_STATE_EXCEPTION org newInfo w)
    as (new & E & _).
  set (w1 := appended _ _) in E.
  destruct (Add_returns KUBERNETES CONTROLLER_STATE_EXCEPTION org newInfo w1)
    as (new' & E' & _ & Hq & _).
  destruct (added_added org newInfo (kubernetesData (self w))) as [Ha Hu].
  change (kubernetesData (self w1)) with (added org newInfo (kubernetesData (self w)))
    in E', Hq.
  rewrite Ha in E'. rewrite (Hq Hu), app_nil_r in E'.
  eexists w1, _. split; [by rewrite (exec_Some _ _ _ _ E)|].
  split; [by rewrite (exec_Some _ _ _ _ E')|]. done.
Qed.

(** X16. [Clear] and then one report: the store holds the report and
    nothing else, and the one record sent on the channel is the
    report. *)
Theorem Clear_then_Add (w : World) (org : Z) (newInfo : KubernetesInfo.t) :
  exists w',
    exec (Clear ;; Add org newInfo) w = Some w'
    /\ kubernetesData (self w') = {[ org := {[ ClusterID newInfo := newInfo ]} ]}
    /\ sends (trace w') = sends (trace w) ++ [newInfo]
    /\ mysql w' = mysql w.
Proof.
  destruct (Add_returns KUBERNETES CONTROLLER_STATE_EXCEPTION org newInfo
              (on_self (with_data ∅) w)) as (new & E & Hs & _).
  eexists. split.
  { unfold exec, bind, Clear, modify. by rewrite E. }
  simpl. split; [done|]. split; [|done].
  rewrite !sends_app, Hs, app_nil_r. f_equal.
  unfold added. rewrite lookup_empty. rewrite sends_Send.
  unfold snapshot. rewrite insert_empty, map_to_list_singleton. simpl.
  rewrite insert_empty, map_to_list_singleton. done.
Qed.

(** X17. The version of a refresh request is the report's uint64
    version read as a signed 64-bit integer: from 2^63 on, the request
    carries the negative number [version - 2^64].  Every request that
    the trigger issues has the three parameters, with this version, and
    the timeout 30. *)
Theorem refresh_version_is_signed (w : World) (org : Z) (clusterID : string)
    (version : Z) :
  0 <= version < 2 ^ 64 ->
  exists err new,
    triggerCloudRrefresh org clusterID version w = Some (err, appended new w)
    /\ forall url timeout q, HttpGet url timeout q ∈ new ->
         q !! "version"%string
         = Some (Itoa (if bool_decide (version < 2 ^ 63) then version
                       else version - 2 ^ 64))
         /\ dom q = ({[ "domain_lcuuid"%string; "sub_domain_lcuuid"%string;
                        "version"%string ]} : gset string)
         /\ timeout = 30.
Proof.
  intros Hv. destruct (MySQL.GetDB (mysql w) org) as [d|] eqn:Hd.
  - destruct (resolve KUBERNETES d clusterID (sub_domains_of d clusterID))
      as [err|[[controllerIP dl] sl]] eqn:Hr.
    + exists (Some err), []. rewrite appended_nil.
      split; [by eapply trigger_unresolved|]. by intros ? ? ? ?%elem_of_nil.
    + destruct (MySQL.First (fun c => Controller.IP c = controllerIP
                                      /\ Controller.State c <> CONTROLLER_STATE_EXCEPTION)
                  (MySQL.controller d)) as [controller|] eqn:Hc.
      * eexists _, _. split; [by eapply trigger_request|].
        intros url timeout q Hin. unfold refresh_request in Hin.
        apply elem_of_cons in Hin as [?|Hin]; [done|].
        apply list_elem_of_singleton in Hin. injection Hin as -> -> ->.
        unfold refresh_query. split; [|split; [|done]].
        -- rewrite lookup_insert_ne by done. rewrite lookup_insert_ne by done.
           rewrite lookup_insert_eq. by rewrite Itoa_version.
        -- rewrite !dom_insert_L, dom_empty_L. set_solver.
      * exists (Some ErrRecordNotFound), []. rewrite appended_nil.
        split; [by eapply trigger_no_controller|]. by intros ? ? ? ?%elem_of_nil.
  - eexists _, _. split; [by apply trigger_no_session|].
    intros url timeout q Hin. by apply list_elem_of_singleton in Hin.
Qed.

(** X19. The aging loop over any number of wake-ups: an entry is
    stored at the end exactly when it was stored at the start and was
    not older than the aging time at any of the wake-ups; the loop
    never adds an entry, never removes an organisation, and does not
    touch the database or the configuration. *)
Theorem aging_loop_keeps_the_fresh (w : World) (wakes : list Z) :
  exists w',
    exec (run wakes) w = Some w'
    /\ (forall org cid s,
          stored (kubernetesData (self w')) org cid = Some s
          <-> stored (kubernetesData (self w)) org cid = Some s
              /\ Forall (fun now => GoTime.Sub now (Epoch s)
                                    <= GoTime.seconds (AgingTime (cfg (self w)))) wakes)
    /\ (forall org, is_Some (kubernetesData (self w') !! org)
                    <-> is_Some (kubernetesData (self w) !! org))
    /\ mysql w' = mysql w
    /\ cfg (self w') = cfg (self w).
Proof.
  revert w. induction wakes as [|now wakes IH]; intros w.
  - exists w. split; [done|]. split; [|done].
    intros org cid s. split; [by intros ?|by intros [? _]].
  - set (w1 := appended
        (Send <$> snapshot (aged now (GoTime.seconds (AgingTime (cfg (self w))))
                              (kubernetesData (self w))))
        (on_self (with_data (aged now (GoTime.seconds (AgingTime (cfg (self w))))
                               (kubernetesData (self w)))) w)).
    destruct (IH w1) as (w' & E & Hst & Hk & Hm & Hc).
    exists w'. split.
    { unfold run in *. simpl. unfold exec, bind in *.
      rewrite (run_tick_eq now w). exact E. }
    split; [|split; [|split]].
    + intros org cid s. rewrite Hst. simpl. rewrite stored_aged, Forall_cons. tauto.
    + intros org. rewrite Hk. simpl. unfold aged. rewrite lookup_fmap.
      by rewrite fmap_is_Some.
    + by rewrite Hm.
    + by rewrite Hc.
Qed.

End KubernetesMore.

Lemma Add_stores_new_version_witness :
  KubernetesStorageSpec.unchanged 1 Examples.c1_v6
    (KubernetesStorage.kubernetesData (KubernetesStorage.self Examples.one_cluster)) = false
  /\ exists w' new,
       exec (KubernetesStorage.Add Examples.KUBERNETES Examples.CONTROLLER_STATE_EXCEPTION
               1 Examples.c1_v6) Examples.one_cluster = Some w'
       /\ KubernetesStorageSpec.stored
            (KubernetesStorage.kubernetesData (KubernetesStorage.self w')) 1 "c1"
          = Some Examples.c1_v6
       /\ KubernetesStorage.trace w' = KubernetesStorage.Send Examples.c1_v6 :: new
       /\ new <> [].
Proof.
  split; [reflexivity|].
  destruct (Add_stores_new_version Examples.KUBERNETES Examples.CONTROLLER_STATE_EXCEPTION
              Examples.one_cluster 1 Examples.c1_v6 eq_refl)
    as (w' & new & E & Hs & _ & Ht & Hn & _).
  exists w', new. split; [exact E|]. split; [exact Hs|]. split; [|exact Hn].
  rewrite Ht.
  assert (KubernetesStorage.kubernetesData (KubernetesStorage.self w')
          = <[1 := <["c1"%string := Examples.c1_v6]> ∅]> ∅) as Hdata.
  { vm_compute in E. injection E as <-. vm_compute. reflexivity. }
  rewrite Hdata. reflexivity.
Defined.

Lemma refresh_version_is_signed_witness :
  0 <= 2 ^ 64 - 1 < 2 ^ 64
  /\ exists err new,
       KubernetesStorage.triggerCloudRrefresh Examples.KUBERNETES
         Examples.CONTROLLER_STATE_EXCEPTION 1 "c1" (2 ^ 64 - 1) Examples.one_cluster
       = Some (err, KubernetesStorageSpec.appended new Examples.one_cluster)
       /\ forall url timeout q, KubernetesStorage.HttpGet url timeout q ∈ new ->
            q !! "version"%string = Some "-1"%string.
Proof.
  split; [lia|].
  destruct (refresh_version_is_signed Examples.KUBERNETES
              Examples.CONTROLLER_STATE_EXCEPTION Examples.one_cluster 1 "c1"
              (2 ^ 64 - 1)) as (err & new & E & H); [lia|].
  exists err, new. split; [exact E|]. intros url timeout q Hin.
  destruct (H url timeout q Hin) as (Hq & _). rewrite Hq. vm_compute. reflexivity.
Defined.
